(** * Thread building for the annotation sidebar

    A shallow embedding of [src/sidebar/util/build-thread.js] and a
    verification of the properties its specification states.

    The JavaScript code works on a table of mutable thread objects
    ([threads], an object used as a map from ids to threads) whose
    [children] arrays hold references to other objects of the same table.
    The embedding keeps this sharing: a thread object is stored once, under
    its id, and a [children] array is the list of the ids of the objects it
    refers to.  The later passes of [buildThread] copy the tree and are
    modelled by pure functions over an inductive [Thread].

    Modelling conventions:
    - a JavaScript string is a [string]; [<] on strings is [String.ltb],
      the order of the source for strings of ASCII characters;
    - [undefined] fields are [option]s, and truthiness tests of the source
      ([a.id || a.$tag], [!thread.parent]) are written out: the empty string
      is falsy;
    - the table [threads] is a [gmap] together with the creation order of
      its keys, which [for ... in] needs; this is the table of the source
      for ids that are not names of properties inherited from
      [Object.prototype] ([inherited] below), and a statement that depends
      on it says so in a hypothesis;
    - [fuel] bounds the depth of the call stack: a recursion deeper than
      [fuel] yields [OutOfFuel], and a call that yields [OutOfFuel] for every
      [fuel] does not return on any machine;
    - the functions of the options are total and pure, and
      [opts.expanded] is a [gmap]: [opts.expanded.hasOwnProperty(id)] is
      the test whether [id] is a key, as it is for an object without an
      own property [hasOwnProperty];
    - numbers ([depth], [replyCount]) are [Z]. *)

From Stdlib Require Import ZArith String Ascii List Lia Sorting.Sorted Sorting.Permutation.
From Stdlib Require Import Structures.OrderedTypeEx.
From stdpp Require Import base gmap strings list.

Open Scope Z_scope.
Open Scope string_scope.
Open Scope list_scope.

(** ** Results of calls *)

Inductive outcome (A : Type) : Type :=
| Ret (a : A)
| TypeError
| OutOfFuel.

Arguments Ret {A} a.
Arguments TypeError {A}.
Arguments OutOfFuel {A}.

(** Sequencing, written [x ← m; k] below. *)
#[global] Instance outcome_bind : MBind outcome := λ A B k m,
  match m with
  | Ret a => k a
  | TypeError => TypeError
  | OutOfFuel => OutOfFuel
  end.

(** [xs.map(f)] where [f] may fail. *)
Fixpoint mapM {A B : Type} (f : A → outcome B) (l : list A) : outcome (list B) :=
  match l with
  | [] => Ret []
  | x :: l' => y ← f x; ys ← mapM f l'; Ret (y :: ys)
  end.

(** [xs.forEach(x => { s = f(s, x) })] where [f] may fail. *)
Fixpoint foldM {A S : Type} (f : S → A → outcome S) (l : list A) (s : S) : outcome S :=
  match l with
  | [] => Ret s
  | x :: l' => s' ← f s x; foldM f l' s'
  end.

(** ** Data model *)

Record Annotation : Type := mkAnnotation {
  ann_id : option string;                 (* [id], assigned by the server *)
  ann_tag : string;                       (* [$tag] *)
  ann_references : option (list string);  (* [references] *)
  ann_created : string                    (* [created] *)
}.

(** A thread object of the table [threads]; [o_children] holds the ids of
    the objects the [children] array refers to. *)
Record ThreadObj : Type := mkThreadObj {
  o_id : string;
  o_annotation : option Annotation;
  o_parent : option string;
  o_visible : bool;
  o_collapsed : bool;
  o_children : list string;
  o_replyCount : Z;
  o_depth : Z
}.

(** A thread as a tree of copies, the value [buildThread] returns. *)
#[local] Unset Elimination Schemes.
Inductive Thread : Type := mkThread {
  t_id : string;
  t_annotation : option Annotation;
  t_parent : option string;
  t_visible : bool;
  t_collapsed : bool;
  t_children : list Thread;
  t_totalChildren : option Z;
  t_replyCount : Z;
  t_depth : Z
}.
#[local] Set Elimination Schemes.

(** Truthiness of a string, and of a field that is a string or [undefined]. *)
Definition truthy (s : string) : bool := negb (String.eqb s "").

Definition truthy_opt (o : option string) : bool :=
  match o with
  | Some s => truthy s
  | None => false
  end.

(** [annotation.id || annotation.$tag] *)
Definition annotationId (annotation : Annotation) : string :=
  match ann_id annotation with
  | Some i => if truthy i then i else ann_tag annotation
  | None => ann_tag annotation
  end.

(** ** The table [threads] *)

(** The own properties of [threads] and the order in which they were
    created. *)
Record Threads : Type := mkThreads {
  objs : gmap string ThreadObj;
  created_keys : list string
}.

Definition no_threads : Threads := mkThreads ∅ [].

(** [threads[k] = o] *)
Definition assign (k : string) (o : ThreadObj) (threads : Threads) : Threads :=
  mkThreads (<[k := o]> (objs threads))
            (match objs threads !! k with
             | Some _ => created_keys threads
             | None => created_keys threads ++ [k]
             end).

(** A mutation of the object stored under [k]. *)
Definition update (k : string) (f : ThreadObj → ThreadObj) (threads : Threads) : Threads :=
  mkThreads (alter f k (objs threads)) (created_keys threads).

(** *** Enumeration order of [for (const k in threads)]

    Keys that are array indices (canonical decimal numerals below
    [2^32 - 1]) come first, in ascending numeric order; the other keys
    follow in creation order. *)

Definition digit_of (c : ascii) : option N :=
  let n := N_of_ascii c in
  if ((48 <=? n) && (n <=? 57))%N then Some (n - 48)%N else None.

Fixpoint digits_value (s : string) (acc : N) : option N :=
  match s with
  | EmptyString => Some acc
  | String c s' =>
      match digit_of c with
      | Some d => digits_value s' (10 * acc + d)%N
      | None => None
      end
  end.

Definition array_index (s : string) : option N :=
  match s with
  | EmptyString => None
  | String c s' =>
      if (Ascii.eqb c "0" && negb (String.eqb s' ""))%bool then None
      else match digits_value s 0 with
           | Some n => if (n <? 4294967295)%N then Some n else None
           | None => None
           end
  end.

Fixpoint insert_index (k : N * string) (l : list (N * string)) : list (N * string) :=
  match l with
  | [] => [k]
  | k' :: l' => if (fst k <=? fst k')%N then k :: l else k' :: insert_index k l'
  end.

Definition index_keys (keys : list string) : list (N * string) :=
  foldr insert_index []
        (omap (fun k => match array_index k with
                        | Some n => Some (n, k)
                        | None => None
                        end) keys).

Definition is_index (k : string) : bool :=
  match array_index k with Some _ => true | None => false end.

Definition ownKeys (threads : Threads) : list string :=
  map snd (index_keys (created_keys threads))
  ++ List.filter (fun k => negb (is_index k)) (created_keys threads).

(** ** Default state for new threads *)

(** [{...DEFAULT_THREAD_STATE, children: [], annotation, id}] *)
Definition newThread (annotation : Annotation) : ThreadObj :=
  {| o_id := annotationId annotation;
     o_annotation := Some annotation;
     o_parent := None;
     o_visible := true;
     o_collapsed := false;
     o_children := [];
     o_replyCount := 0;
     o_depth := 0 |}.

(** [{...DEFAULT_THREAD_STATE, children: [], id: parentId}] *)
Definition placeholder (parentId : string) : ThreadObj :=
  {| o_id := parentId;
     o_annotation := None;
     o_parent := None;
     o_visible := true;
     o_collapsed := false;
     o_children := [];
     o_replyCount := 0;
     o_depth := 0 |}.

(** The assignments to a thread object: [o.parent = p],
    [o.children.push(c)] and [o.collapsed = b]. *)
Definition set_parent (p : string) (o : ThreadObj) : ThreadObj :=
  {| o_id := o_id o; o_annotation := o_annotation o; o_parent := Some p;
     o_visible := o_visible o; o_collapsed := o_collapsed o;
     o_children := o_children o; o_replyCount := o_replyCount o;
     o_depth := o_depth o |}.

Definition push_child (c : string) (o : ThreadObj) : ThreadObj :=
  {| o_id := o_id o; o_annotation := o_annotation o; o_parent := o_parent o;
     o_visible := o_visible o; o_collapsed := o_collapsed o;
     o_children := o_children o ++ [c]; o_replyCount := o_replyCount o;
     o_depth := o_depth o |}.

Definition set_collapsed (b : bool) (o : ThreadObj) : ThreadObj :=
  {| o_id := o_id o; o_annotation := o_annotation o; o_parent := o_parent o;
     o_visible := o_visible o; o_collapsed := b;
     o_children := o_children o; o_replyCount := o_replyCount o;
     o_depth := o_depth o |}.

(** ** Tree assembly *)

(** [hasPathToRoot(threads, id, ancestorId)] *)
Fixpoint hasPathToRoot (fuel : nat) (threads : gmap string ThreadObj)
    (id ancestorId : string) : outcome bool :=
  match fuel with
  | O => OutOfFuel
  | S fuel' =>
      match threads !! ancestorId with
      | None => Ret false
      | Some ancestor =>
          match o_parent ancestor with
          | Some p =>
              if String.eqb p id then Ret false
              else if negb (truthy p) then Ret true
              else hasPathToRoot fuel' threads id p
          | None => Ret true
          end
      end
  end.

(** [threads[id].parent = parentId;
     threads[parentId].children.push(threads[id])] *)
Definition attach (id parentId : string) (threads : Threads) : outcome Threads :=
  match objs threads !! id with
  | None => TypeError
  | Some _ =>
      let threads' := update id (set_parent parentId) threads in
      match objs threads' !! parentId with
      | None => TypeError
      | Some _ => Ret (update parentId (push_child id) threads')
      end
  end.

(** [setParent(threads, id, parents)] *)
Fixpoint setParent (fuel : nat) (threads : Threads) (id : string)
    (parents : list string) : outcome Threads :=
  match fuel with
  | O => OutOfFuel
  | S fuel' =>
      match objs threads !! id with
      | None => TypeError
      | Some thread =>
          if (truthy_opt (o_parent thread) || (length parents =? 0)%nat)%bool
          then Ret threads
          else
            let parentId := List.last parents "" in
            threads1 ←
              match objs threads !! parentId with
              | None =>
                  setParent fuel' (assign parentId (placeholder parentId) threads)
                            parentId (removelast parents)
              | Some _ => Ret threads
              end;
            ok ← hasPathToRoot fuel' (objs threads1) id parentId;
            if ok : bool then attach id parentId threads1 else Ret threads1
      end
  end.

(** The copy of the object graph below the object stored under [k], read
    as a tree.  Every id of a [children] list is a key of the table. *)
Fixpoint readThread (fuel : nat) (threads : gmap string ThreadObj) (k : string)
    : outcome Thread :=
  match fuel with
  | O => OutOfFuel
  | S fuel' =>
      match threads !! k with
      | None => TypeError
      | Some o =>
          children ← mapM (readThread fuel' threads) (o_children o);
          Ret {| t_id := o_id o; t_annotation := o_annotation o;
                 t_parent := o_parent o; t_visible := o_visible o;
                 t_collapsed := o_collapsed o; t_children := children;
                 t_totalChildren := None; t_replyCount := o_replyCount o;
                 t_depth := o_depth o |}
      end
  end.

(** The first loop of [threadAnnotations]: a thread for each annotation,
    added to the table [threads], which is empty at first. *)
Definition addThreads (threads : Threads) (annotations : list Annotation) : Threads :=
  foldl (fun threads annotation =>
           assign (annotationId annotation) (newThread annotation) threads)
        threads annotations.

Definition createThreads (annotations : list Annotation) : Threads :=
  addThreads no_threads annotations.

(** [(annotation.references || []).filter(id => id !== annotation.id)] *)
Definition parentsOf (annotation : Annotation) : list string :=
  let references := default [] (ann_references annotation) in
  match ann_id annotation with
  | Some i => List.filter (fun id => negb (String.eqb id i)) references
  | None => references
  end.

(** The second loop: ancestral relationships. *)
Definition linkThreads (fuel : nat) (annotations : list Annotation)
    (threads : Threads) : outcome Threads :=
  foldM (fun threads annotation =>
           setParent fuel threads (annotationId annotation) (parentsOf annotation))
        annotations threads.

(** The body of the third loop: a thread without a parent is collapsed and
    pushed onto [rootThreads]. *)
Definition collectStep (state : Threads * list string) (rootThreadId : string)
    : Threads * list string :=
  let '(threads, rootThreads) := state in
  match objs threads !! rootThreadId with
  | Some o =>
      if negb (truthy_opt (o_parent o))
      then (update rootThreadId (set_collapsed true) threads,
            rootThreads ++ [rootThreadId])
      else (threads, rootThreads)
  | None => (threads, rootThreads)
  end.

(** The third loop: the threads without a parent, in the order of
    [for ... in]. *)
Definition collectRoots (threads : Threads) : Threads * list string :=
  foldl collectStep (threads, []) (ownKeys threads).

(** [threadAnnotations(annotations)]: the root thread, with the objects its
    [children] refer to read as a tree. *)
Definition threadAnnotations (fuel : nat) (annotations : list Annotation)
    : outcome Thread :=
  threads ← linkThreads fuel annotations (createThreads annotations);
  let '(threads, rootThreads) := collectRoots threads in
  children ← mapM (readThread fuel (objs threads)) rootThreads;
  Ret {| t_id := "root"; t_annotation := None; t_parent := None;
         t_visible := true; t_collapsed := false; t_children := children;
         t_totalChildren := None; t_replyCount := 0; t_depth := 0 |}.

(** ** Copying passes *)

(** Copies of a thread with one field replaced: [{ ...thread, children }]
    and the like. *)
Definition with_children (thread : Thread) (children : list Thread) : Thread :=
  {| t_id := t_id thread; t_annotation := t_annotation thread;
     t_parent := t_parent thread; t_visible := t_visible thread;
     t_collapsed := t_collapsed thread; t_children := children;
     t_totalChildren := t_totalChildren thread;
     t_replyCount := t_replyCount thread; t_depth := t_depth thread |}.

Definition with_visible (thread : Thread) (b : bool) : Thread :=
  {| t_id := t_id thread; t_annotation := t_annotation thread;
     t_parent := t_parent thread; t_visible := b;
     t_collapsed := t_collapsed thread; t_children := t_children thread;
     t_totalChildren := t_totalChildren thread;
     t_replyCount := t_replyCount thread; t_depth := t_depth thread |}.

Definition with_collapsed (thread : Thread) (b : bool) : Thread :=
  {| t_id := t_id thread; t_annotation := t_annotation thread;
     t_parent := t_parent thread; t_visible := t_visible thread;
     t_collapsed := b; t_children := t_children thread;
     t_totalChildren := t_totalChildren thread;
     t_replyCount := t_replyCount thread; t_depth := t_depth thread |}.

(** [mapThread(thread, mapFn)] *)
Fixpoint mapThread (thread : Thread) (mapFn : Thread → Thread) : Thread :=
  with_children (mapFn thread)
    (match thread with
     | mkThread _ _ _ _ _ children _ _ _ =>
         map (fun child => mapThread child mapFn) children
     end).

(** [Array.prototype.sort] with a comparator that returns a number: a
    stable sort, here by insertion from the right.  An element moves past
    the elements it compares greater than.  For the comparators that
    less-than predicates give, every stable sort returns this list
    ([sort_unique] below). *)
Fixpoint array_insert {A : Type} (compare : A → A → Z) (x : A) (l : list A) : list A :=
  match l with
  | [] => [x]
  | y :: l' => if (0 <? compare x y)%Z then y :: array_insert compare x l'
               else x :: l
  end.

Definition array_sort {A : Type} (compare : A → A → Z) (l : list A) : list A :=
  foldr (array_insert compare) [] l.

(** The comparator that [sort] passes to [Array.prototype.sort]. *)
Definition compareThreads (compareFn : Annotation → Annotation → bool)
    (a b : Thread) : Z :=
  match t_annotation a, t_annotation b with
  | None, None => 0
  | None, Some _ => -1
  | Some _, None => 1
  | Some x, Some y =>
      if compareFn x y then -1
      else if compareFn y x then 1
      else 0
  end.

(** [sort(threads, compareFn)] *)
Definition sort (threads : list Thread)
    (compareFn : Annotation → Annotation → bool) : list Thread :=
  array_sort (compareThreads compareFn) threads.

(** [sortThread(thread, compareFn, replyCompareFn)] *)
Fixpoint sortThread (thread : Thread)
    (compareFn replyCompareFn : Annotation → Annotation → bool) : Thread :=
  let children :=
    match thread with
    | mkThread _ _ _ _ _ children _ _ _ =>
        map (fun child => sortThread child replyCompareFn replyCompareFn) children
    end in
  with_children thread (sort children compareFn).

(** [countRepliesAndDepth(thread, depth)] *)
Fixpoint countRepliesAndDepth (thread : Thread) (depth : Z) : Thread :=
  let children :=
    match thread with
    | mkThread _ _ _ _ _ children _ _ _ =>
        map (fun c => countRepliesAndDepth c (depth + 1)) children
    end in
  let replyCount :=
    fold_left (fun total child => total + 1 + t_replyCount child) children 0 in
  {| t_id := t_id thread; t_annotation := t_annotation thread;
     t_parent := t_parent thread; t_visible := t_visible thread;
     t_collapsed := t_collapsed thread; t_children := children;
     t_totalChildren := t_totalChildren thread;
     t_replyCount := replyCount; t_depth := depth |}.

(** [hasVisibleChildren(thread)] *)
Fixpoint hasVisibleChildren (thread : Thread) : bool :=
  match thread with
  | mkThread _ _ _ _ _ children _ _ _ =>
      existsb (fun child => t_visible child || hasVisibleChildren child) children
  end.

(** ** Options *)

(** The options of [buildThread] after [{ ...defaultOpts, ...options }]:
    every field has a value, the two optional predicates apart.  A caller
    who passes no option passes [defaultOpts]. *)
Record Options : Type := mkOptions {
  selected : list string;
  forcedVisible : list string;
  filterFn : option (Annotation → bool);
  threadFilterFn : option (Thread → bool);
  expanded : gmap string bool;
  sortCompareFn : Annotation → Annotation → bool;
  replySortCompareFn : Annotation → Annotation → bool
}.

(** [defaultOpts] *)
Definition defaultOpts : Options :=
  {| selected := [];
     forcedVisible := [];
     filterFn := None;
     threadFilterFn := None;
     expanded := ∅;
     sortCompareFn := fun a b => String.ltb (ann_tag a) (ann_tag b);
     replySortCompareFn := fun a b => String.ltb (ann_created a) (ann_created b) |}.

(** [xs.includes(x)] on strings *)
Definition includes (xs : list string) (x : string) : bool :=
  existsb (String.eqb x) xs.

(** ** [buildThread] and its steps *)

(** [opts.selected.length > 0] and [opts.forcedVisible.length > 0] *)
Definition hasSelection (opts : Options) : bool := (0 <? length (selected opts))%nat.
Definition hasForcedVisible (opts : Options) : bool := (0 <? length (forcedVisible opts))%nat.

(** The filter of the selection step. *)
Definition isSelectedOrForced (opts : Options) (child : Thread) : bool :=
  let isSelected := includes (selected opts) (t_id child) in
  let isForcedVisible :=
    hasForcedVisible opts &&
    match t_annotation child with
    | Some annotation => includes (forcedVisible opts) (ann_tag annotation)
    | None => false
    end in
  isSelected || isForcedVisible.

(** The function mapped over the tree to set visibility. *)
Definition setVisible (opts : Options) (thread : Thread) : Thread :=
  let threadIsVisible :=
    match t_annotation thread with
    | None => false
    | Some annotation =>
        match filterFn opts with
        | Some f =>
            if hasForcedVisible opts && includes (forcedVisible opts) (ann_tag annotation)
            then true
            else f annotation
        | None => t_visible thread
        end
    end in
  with_visible thread threadIsVisible.

(** The function mapped over the tree to set the collapsed state. *)
Definition setCollapsed (opts : Options) (thread : Thread) : Thread :=
  match expanded opts !! t_id thread with
  | Some e => with_collapsed thread (negb e)
  | None =>
      let hasUnfilteredChildren :=
        match filterFn opts with
        | Some _ => hasVisibleChildren thread
        | None => false
        end in
      with_collapsed thread (t_collapsed thread && negb hasUnfilteredChildren)
  end.

Definition with_totalChildren (thread : Thread) (n : Z) : Thread :=
  {| t_id := t_id thread; t_annotation := t_annotation thread;
     t_parent := t_parent thread; t_visible := t_visible thread;
     t_collapsed := t_collapsed thread; t_children := t_children thread;
     t_totalChildren := Some n;
     t_replyCount := t_replyCount thread; t_depth := t_depth thread |}.

(** The steps of [buildThread] after [threadAnnotations]. *)
Definition project (opts : Options) (thread : Thread) : Thread :=
  let thread :=
    if hasSelection opts
    then with_children thread (List.filter (isSelectedOrForced opts) (t_children thread))
    else thread in
  let thread :=
    match threadFilterFn opts with
    | Some f => with_children thread (List.filter f (t_children thread))
    | None => thread
    end in
  let thread := mapThread thread (setVisible opts) in
  let thread :=
    with_children thread
      (List.filter (fun child => t_visible child || hasVisibleChildren child)
                   (t_children thread)) in
  let thread := mapThread thread (setCollapsed opts) in
  let thread := sortThread thread (sortCompareFn opts) (replySortCompareFn opts) in
  let thread := countRepliesAndDepth thread (-1) in
  with_totalChildren thread (Z.of_nat (length (t_children thread))).

(** [buildThread(annotations, options)] *)
Definition buildThread (fuel : nat) (annotations : list Annotation)
    (opts : Options) : outcome Thread :=
  thread ← threadAnnotations fuel annotations;
  Ret (project opts thread).

(** * Vocabulary of the specification *)

(** ** Induction over threads *)

Section Thread_induction.
Variable P : Thread → Prop.
Hypothesis node :
  ∀ i a p v c children tc rc d,
    Forall P children → P (mkThread i a p v c children tc rc d).

Fixpoint Thread_ind (t : Thread) : P t :=
  match t with
  | mkThread i a p v c children tc rc d =>
      node i a p v c children tc rc d
        ((fix all (l : list Thread) : Forall P l :=
            match l with
            | [] => @List.Forall_nil _ P
            | x :: l' => @List.Forall_cons _ P x l' (Thread_ind x) (all l')
            end) children)
  end.
End Thread_induction.

(** All the nodes of a tree, the root first, and its strict descendants. *)
Fixpoint subthreads (t : Thread) : list Thread :=
  t :: match t with
       | mkThread _ _ _ _ _ children _ _ _ => flat_map subthreads children
       end.

Definition descendants (t : Thread) : list Thread :=
  flat_map subthreads (t_children t).

(** The number added up by [reduce] in [countRepliesAndDepth]. *)
Definition sumReplies (children : list Thread) : Z :=
  foldr (fun child total => 1 + t_replyCount child + total) 0 children.

(** A node whose count is the sum over its children and the number of its
    strict descendants. *)
Definition counted (t : Thread) : Prop :=
  t_replyCount t = sumReplies (t_children t)
  ∧ t_replyCount t = Z.of_nat (length (descendants t)).


(** ** Sample inputs *)

(** An annotation saved on the server, with its references. *)
Definition saved (id : string) (references : list string) : Annotation :=
  {| ann_id := Some id; ann_tag := "t" ++ id;
     ann_references := Some references; ann_created := "2020-01-0" ++ id |}.

(** An annotation that has only its local tag. *)
Definition unsaved (tag : string) (references : list string) : Annotation :=
  {| ann_id := None; ann_tag := tag;
     ann_references := Some references; ann_created := "2020-01-01" |}.

(** A top-level annotation, a reply to it, and a reply to the reply. *)
Definition chain3 : list Annotation :=
  [saved "1" []; saved "2" ["1"]; saved "3" ["1"; "2"]].

(** Options in which the user collapsed a thread whose id is [root]. *)
Definition rootCollapsedOpts : Options :=
  {| selected := [];
     forcedVisible := [];
     filterFn := None;
     threadFilterFn := None;
     expanded := {[ "root" := false ]};
     sortCompareFn := sortCompareFn defaultOpts;
     replySortCompareFn := replySortCompareFn defaultOpts |}.

(** ** Nodes of a copy and nodes of its original

    [refines R x n]: the tree [n] is made of copies of nodes of [x]: [R]
    relates [x] to [n], and every child of [n] refines a child of [x]. *)
Fixpoint refines (R : Thread → Thread → Prop) (x n : Thread) {struct n} : Prop :=
  R x n
  ∧ match n with
    | mkThread _ _ _ _ _ children _ _ _ =>
        (fix all (l : list Thread) : Prop :=
           match l with
           | [] => True
           | c :: l' => (∃ cx, In cx (t_children x) ∧ refines R cx c) ∧ all l'
           end) children
    end.

(** A copy that kept the id, the annotation and the parent. *)
Definition same_node (x n : Thread) : Prop :=
  t_id n = t_id x ∧ t_annotation n = t_annotation x ∧ t_parent n = t_parent x.

(** A copy that kept the visibility as well. *)
Definition same_visible (x n : Thread) : Prop :=
  same_node x n ∧ t_visible n = t_visible x.

(** ** The steps of [buildThread], named

    [selectTopLevel] is the part of [project] before the visibility pass
    and [afterVisible] the part after it. *)
Definition selectTopLevel (opts : Options) (thread : Thread) : Thread :=
  let thread :=
    if hasSelection opts
    then with_children thread (List.filter (isSelectedOrForced opts) (t_children thread))
    else thread in
  match threadFilterFn opts with
  | Some f => with_children thread (List.filter f (t_children thread))
  | None => thread
  end.

Definition pruneInvisible (thread : Thread) : Thread :=
  with_children thread
    (List.filter (fun child => t_visible child || hasVisibleChildren child)
                 (t_children thread)).

Definition afterVisible (opts : Options) (thread : Thread) : Thread :=
  let thread := pruneInvisible thread in
  let thread := mapThread thread (setCollapsed opts) in
  let thread := sortThread thread (sortCompareFn opts) (replySortCompareFn opts) in
  let thread := countRepliesAndDepth thread (-1) in
  with_totalChildren thread (Z.of_nat (length (t_children thread))).

(** Two top-level annotations and a reply; a filter that rejects every
    annotation while the user forced the second annotation visible. *)
Definition forcedSample : list Annotation :=
  [saved "1" []; saved "2" []; saved "3" ["1"]].

Definition forcedOpts : Options :=
  {| selected := [];
     forcedVisible := ["t2"];
     filterFn := Some (fun _ => false);
     threadFilterFn := None;
     expanded := ∅;
     sortCompareFn := sortCompareFn defaultOpts;
     replySortCompareFn := replySortCompareFn defaultOpts |}.

(** ** Order of a sorted list of threads *)

(** A comparison function that is a less-than predicate: asymmetric, and a
    strict weak order ([cmp a c] puts any [b] after [a] or before [c]). *)
Definition LessThan (cmp : Annotation → Annotation → bool) : Prop :=
  (∀ a b, cmp a b = true → cmp b a = false)
  ∧ (∀ a b c, cmp a c = true → cmp a b = true ∨ cmp b c = true).

(** [b] does not sort before [a]. *)
Definition inOrder (cmp : Annotation → Annotation → bool) (a b : Thread) : Prop :=
  (0 <= compareThreads cmp b a)%Z.

(** No thread of the list sorts before a thread that precedes it. *)
Definition ordered (cmp : Annotation → Annotation → bool) (l : list Thread) : Prop :=
  StronglySorted (inOrder cmp) l.

(** The comparator returns 0 for [a] and [b]. *)
Definition tie (cmp : Annotation → Annotation → bool) (a b : Thread) : bool :=
  (compareThreads cmp a b =? 0)%Z.

(** [a] comes before [b] in the list [l]. *)
Definition precedes (l : list Thread) (a b : Thread) : Prop :=
  ∃ l1 l2 l3, l = l1 ++ a :: l2 ++ b :: l3.

(** Two unsaved top-level annotations, tagged [b] and [a]. *)
Definition tagsBA : list Annotation := [unsaved "b" []; unsaved "a" []].

(** A reply whose references name a missing annotation twice. *)
Definition repeatedReference : list Annotation := [saved "A" ["X"; "X"]].

(** An unsaved annotation whose references name its own tag, alone and
    with a reply to it. *)
Definition selfReference : list Annotation := [unsaved "t" ["t"]].
Definition selfReferenceReply : list Annotation :=
  [unsaved "t" ["t"]; saved "B" ["t"]].

(** ** Consistency of the table [threads] *)

(** Every object is stored under its id, the children of an object name
    it as their parent, and a parent is never the empty string. *)
Definition well_linked (threads : gmap string ThreadObj) : Prop :=
  (∀ k o, threads !! k = Some o → o_id o = k)
  ∧ (∀ k o c, threads !! k = Some o → In c (o_children o) →
       ∃ co, threads !! c = Some co ∧ o_parent co = Some k)
  ∧ (∀ k o p, threads !! k = Some o → o_parent o = Some p → p ≠ "").

(** What a call [setParent(threads, id, ...)] leaves of the objects of the
    table: their ids and annotations, and the parents of all but [id]. *)
Definition preserved (id : string) (before after : gmap string ThreadObj) : Prop :=
  ∀ k o, before !! k = Some o →
    ∃ o', after !! k = Some o'
          ∧ o_id o' = o_id o ∧ o_annotation o' = o_annotation o
          ∧ (k ≠ id → o_parent o' = o_parent o).

(** The test of the loop that collects the top-level threads:
    [!threads[k].parent]. *)
Definition isRoot (threads : gmap string ThreadObj) (k : string) : bool :=
  match threads !! k with
  | Some o => negb (truthy_opt (o_parent o))
  | None => false
  end.

(** What that loop does to an object, visited ([b]) or not. *)
Definition collapseRoot (b : bool) (o : ThreadObj) : ThreadObj :=
  if b && negb (truthy_opt (o_parent o)) then set_collapsed true o else o.

(** No reference of an input annotation is the empty string. *)
Definition references_not_empty (annotations : list Annotation) : Prop :=
  ∀ a r, In a annotations → In r (default [] (ann_references a)) → r ≠ "".

Definition referencesNotEmpty (annotations : list Annotation) : bool :=
  forallb (fun a => forallb truthy (default [] (ann_references a))) annotations.

(** A reply whose only reference is the empty string. *)
Definition emptyReference : list Annotation := [saved "A" [""]].

(** The thread of the annotation whose identity is [y]. *)
Definition threadOf (y : string) (t : Thread) : Prop :=
  ∃ annotation, t_annotation t = Some annotation ∧ annotationId annotation = y.

(** The thread of annotation [x] is a strict descendant of the thread of
    annotation [y]. *)
Definition strictDescendant (root : Thread) (x y : string) : Prop :=
  ∃ ty tx, In ty (subthreads root) ∧ threadOf y ty
           ∧ In tx (descendants ty) ∧ threadOf x tx.

(** Two annotations that refer to each other. *)
Definition mutual12 : list Annotation := [saved "1" ["2"]; saved "2" ["1"]].

(** The keys of the table are listed once each in [created_keys]. *)
Definition keys_ok (threads : Threads) : Prop :=
  NoDup (created_keys threads)
  ∧ ∀ k, In k (created_keys threads) ↔ is_Some (objs threads !! k).

(** The thread of a top-level annotation without replies, as
    [threadAnnotations] returns it. *)
Definition leafThread (annotation : Annotation) : Thread :=
  mkThread (annotationId annotation) (Some annotation) None true true [] None 0 0.

(** A reply to a missing annotation [x], between two top-level
    annotations. *)
Definition replyToMissing : Annotation := saved "r" ["x"].
Definition missingParent : list Annotation :=
  [saved "a" []] ++ replyToMissing :: [saved "b" []].

(** A reply [r] to [y] and to the missing [x], where [y] is a reply to
    [r]. *)
Definition circularMissing : list Annotation :=
  [saved "y" ["r"]; saved "r" ["y"; "x"]].

(** ** What the passes of [buildThread] make of one thread

    The id and the annotation of every node of a tree, the root first. *)
Definition labels (t : Thread) : list (string * option Annotation) :=
  map (fun x => (t_id x, t_annotation x)) (subthreads t).

(** The four copying passes applied to a thread below the root: the
    visibility pass, the collapsed pass, the sort (by [cmp] for the children
    of this thread) and the count (from [depth]). *)
Definition passOver (opts : Options) (cmp : Annotation → Annotation → bool)
    (depth : Z) (x : Thread) : Thread :=
  countRepliesAndDepth
    (sortThread (mapThread (mapThread x (setVisible opts)) (setCollapsed opts))
                cmp (replySortCompareFn opts))
    depth.

(** ** More sample options *)

(** The first annotation of [forcedSample] is selected. *)
Definition selectedOpts : Options :=
  {| selected := ["1"];
     forcedVisible := [];
     filterFn := None;
     threadFilterFn := None;
     expanded := ∅;
     sortCompareFn := sortCompareFn defaultOpts;
     replySortCompareFn := replySortCompareFn defaultOpts |}.

(** Only threads with replies are kept. *)
Definition repliedOpts : Options :=
  {| selected := [];
     forcedVisible := [];
     filterFn := None;
     threadFilterFn := Some (fun thread => (0 <? length (t_children thread))%nat);
     expanded := ∅;
     sortCompareFn := sortCompareFn defaultOpts;
     replySortCompareFn := replySortCompareFn defaultOpts |}.

(** The user expanded thread [1] and collapsed thread [2]. *)
Definition expandedOpts : Options :=
  {| selected := [];
     forcedVisible := [];
     filterFn := None;
     threadFilterFn := None;
     expanded := {[ "1" := true; "2" := false ]};
     sortCompareFn := sortCompareFn defaultOpts;
     replySortCompareFn := replySortCompareFn defaultOpts |}.

(** A filter that accepts the annotation with id [3] only. *)
Definition onlyThreeOpts : Options :=
  {| selected := [];
     forcedVisible := [];
     filterFn := Some (fun a => match ann_id a with
                                | Some i => String.eqb i "3"
                                | None => false
                                end);
     threadFilterFn := None;
     expanded := ∅;
     sortCompareFn := sortCompareFn defaultOpts;
     replySortCompareFn := replySortCompareFn defaultOpts |}.

(** A top-level thread with two replies that are not in the order of their
    creation dates. *)
Definition unsortedThread : Thread :=
  mkThread "1" (Some (saved "1" [])) None true true
    [leafThread (saved "3" ["1"]); leafThread (saved "2" ["1"])] None 0 0.

(** ** What a thread of the tree shows of its object

    The fields that [readThread] copies from the object [o]. *)
Definition readsAs (o : ThreadObj) (t : Thread) : Prop :=
  t_id t = o_id o ∧ t_annotation t = o_annotation o ∧ t_parent t = o_parent o
  ∧ t_visible t = o_visible o ∧ t_collapsed t = o_collapsed o
  ∧ t_totalChildren t = None
  ∧ t_replyCount t = o_replyCount o ∧ t_depth t = o_depth o.

(** The object of a thread came from an annotation of the input, or is a
    placeholder. *)
Definition fromInput (annotations : list Annotation) (k : string) (o : ThreadObj)
    : Prop :=
  o_id o = k
  ∧ ∀ a, o_annotation o = Some a → In a annotations ∧ annotationId a = k.

(** The state of a thread that no loop of [threadAnnotations] changes. *)
Definition defaultState (k : string) (o : ThreadObj) : Prop :=
  o_visible o = true ∧ o_collapsed o = false ∧ o_replyCount o = 0%Z ∧ o_depth o = 0%Z.

(** Two annotations with the same id and a reply to them. *)
Definition sameId : list Annotation :=
  [saved "1" []; mkAnnotation (Some "1") "other" None "2020-01-05"; saved "2" ["1"]].

(** ** Reference chains *)

(** [p] comes immediately before [k] in the list. *)
Definition adjacent (chain : list string) (p k : string) : Prop :=
  ∃ l1 l2, chain = l1 ++ p :: k :: l2.

(** The ids that an annotation names, from its furthest ancestor to the
    annotation itself: the references that [threadAnnotations] passes to
    [setParent], followed by the identity of the annotation. *)
Definition referenceChain (annotation : Annotation) : list string :=
  parentsOf annotation ++ [annotationId annotation].

(** ** Ancestors in the table *)

(** [p] is the parent of the thread stored under [k], as the tests
    [threads[k].parent] of the source see it. *)
Definition parentOf (threads : gmap string ThreadObj) (p k : string) : Prop :=
  ∃ o, threads !! k = Some o ∧ o_parent o = Some p ∧ truthy p = true.

(** [x] is the parent of [k], or the parent of its parent, and so on. *)
Inductive ancestor (threads : gmap string ThreadObj) (x : string) : string → Prop :=
| ancestor_parent k : parentOf threads x k → ancestor threads x k
| ancestor_up p k : ancestor threads x p → parentOf threads p k → ancestor threads x k.

(** What [setParent] leaves of an object [o] of the table: [o'] has its id
    and annotation, and its children followed by new ones. *)
Definition grown (o o' : ThreadObj) : Prop :=
  o_id o' = o_id o ∧ o_annotation o' = o_annotation o
  ∧ ∃ added, o_children o' = o_children o ++ added.

(** The table of [chain3] after the first loop. *)
Definition chain3Threads : Threads := createThreads chain3.

(** ** Chains of parents and of children *)

(** [c] is one of the [children] of the thread stored under [k]. *)
Definition childOf (threads : gmap string ThreadObj) (c k : string) : Prop :=
  ∃ o, threads !! k = Some o ∧ In c (o_children o).

(** Every chain of parents and every chain of children of the table ends:
    the links of the table have no cycle. *)
Definition well_founded_links (threads : gmap string ThreadObj) : Prop :=
  (∀ k, Acc (parentOf threads) k) ∧ (∀ k, Acc (childOf threads) k).

(** No annotation names an id twice in its references, or names itself. *)
Definition references_distinct (annotations : list Annotation) : Prop :=
  ∀ a, In a annotations → List.NoDup (referenceChain a).

(** The parent of a thread lists the thread among its children. *)
Definition parent_lists_child (threads : gmap string ThreadObj) : Prop :=
  ∀ k o p, threads !! k = Some o → o_parent o = Some p →
    ∃ po, threads !! p = Some po ∧ In k (o_children po).

(** Options that filter nothing: no selection and no filter function. *)
Definition unfiltered (opts : Options) : Prop :=
  selected opts = [] ∧ threadFilterFn opts = None ∧ filterFn opts = None.

(** No [children] array of the table holds a thread twice. *)
Definition children_distinct (threads : gmap string ThreadObj) : Prop :=
  ∀ k o, threads !! k = Some o → List.NoDup (o_children o).

(** [x] is the thread stored under [k] or a thread below it. *)
Definition atOrBelow (threads : gmap string ThreadObj) (x k : string) : Prop :=
  x = k ∨ ancestor threads k x.

(** A function that a caller could pass to [mapThread]: it hides the thread
    and drops its replies. *)
Definition hideAndDropReplies (thread : Thread) : Thread :=
  with_children (with_visible thread false) [].

(** The thread has an annotation to show under the options: one that is
    forced visible or passes [filterFn], or any annotation when there is no
    [filterFn]. *)
Definition shows (opts : Options) (thread : Thread) : bool :=
  match t_annotation thread with
  | None => false
  | Some annotation =>
      match filterFn opts with
      | None => true
      | Some f =>
          (hasForcedVisible opts && includes (forcedVisible opts) (ann_tag annotation))
          || f annotation
      end
  end.

(** ** Names that the table inherits

    [threads] is a plain object, so [threads[k]] is not [undefined] for a
    name [k] of a property of [Object.prototype], and an assignment to
    [threads.__proto__] adds no key.  These are the names, with those of
    Annex B of ECMAScript. *)
Definition inheritedNames : list string :=
  ["__proto__"; "constructor"; "hasOwnProperty"; "isPrototypeOf";
   "propertyIsEnumerable"; "toLocaleString"; "toString"; "valueOf";
   "__defineGetter__"; "__defineSetter__"; "__lookupGetter__"; "__lookupSetter__"].

Definition inherited (k : string) : bool := includes inheritedNames k.

(** Neither the identity of the annotation nor one of its references is an
    inherited name. *)
Definition ordinaryAnnotation (annotation : Annotation) : bool :=
  negb (inherited (annotationId annotation))
  && forallb (fun r => negb (inherited r)) (default [] (ann_references annotation)).

Definition ordinaryInput (annotations : list Annotation) : bool :=
  forallb ordinaryAnnotation annotations.


(** The options of [forcedOpts] with a thread-level filter that rejects
    every thread. *)
Definition forcedRejectedOpts : Options :=
  {| selected := [];
     forcedVisible := ["t2"];
     filterFn := Some (fun _ => false);
     threadFilterFn := Some (fun _ => false);
     expanded := ∅;
     sortCompareFn := sortCompareFn defaultOpts;
     replySortCompareFn := replySortCompareFn defaultOpts |}.

(** The id and the annotation of a thread. *)
Definition labelOf (t : Thread) : string * option Annotation :=
  (t_id t, t_annotation t).

(** Three top-level annotations of one tag, and two replies to the first
    that were created at the same time. *)
Definition sameTag (id : string) (references : list string) : Annotation :=
  {| ann_id := Some id; ann_tag := "t"; ann_references := Some references;
     ann_created := "2020-01-01" |}.

Definition tiedSample : list Annotation :=
  [sameTag "c" []; sameTag "a" []; sameTag "b" []; sameTag "e" ["c"]; sameTag "d" ["c"]].

(** ** References that lead from one id to another *)

(** [p] comes immediately before [k] in the reference chain of an
    annotation of the list: the annotation names [p] as the parent of [k]. *)
Definition refersTo (annotations : list Annotation) (p k : string) : Prop :=
  ∃ a, In a annotations ∧ adjacent (referenceChain a) p k.

(** A reply [r] to the missing [x], itself a reply to the missing [p]; a
    reply to [p] comes before it and a reply to [r] after it. *)
Definition replyBelowMissing : Annotation := saved "r" ["p"; "x"].
Definition missingAncestors : list Annotation :=
  [saved "q" ["p"]] ++ replyBelowMissing :: [saved "s" ["p"; "x"; "r"]].

(** * Verification *)



Lemma subthreads_unfold t : subthreads t = t :: descendants t.
Proof. by destruct t. Qed.

Lemma subthreads_self t : In t (subthreads t).
Proof. rewrite subthreads_unfold. by left. Qed.

Lemma subthreads_child t c x :
  In c (t_children t) → In x (subthreads c) → In x (subthreads t).
Proof.
  intros Hc Hx. rewrite subthreads_unfold. right.
  apply in_flat_map. eauto.
Qed.

Lemma in_descendants t x :
  In x (descendants t) ↔ ∃ c, In c (t_children t) ∧ In x (subthreads c).
Proof. apply in_flat_map. Qed.

(** ** Equations of the recursive passes *)

Lemma mapThread_unfold t f :
  mapThread t f =
  with_children (f t) (map (fun child => mapThread child f) (t_children t)).
Proof. by destruct t. Qed.

Lemma sortThread_unfold t cmp rcmp :
  sortThread t cmp rcmp =
  with_children t
    (sort (map (fun child => sortThread child rcmp rcmp) (t_children t)) cmp).
Proof. by destruct t. Qed.

Lemma countRepliesAndDepth_unfold t d :
  countRepliesAndDepth t d =
  let children := map (fun c => countRepliesAndDepth c (d + 1)) (t_children t) in
  {| t_id := t_id t; t_annotation := t_annotation t;
     t_parent := t_parent t; t_visible := t_visible t;
     t_collapsed := t_collapsed t; t_children := children;
     t_totalChildren := t_totalChildren t;
     t_replyCount :=
       fold_left (fun total child => total + 1 + t_replyCount child) children 0;
     t_depth := d |}.
Proof. by destruct t. Qed.

Lemma hasVisibleChildren_unfold t :
  hasVisibleChildren t =
  existsb (fun child => t_visible child || hasVisibleChildren child) (t_children t).
Proof. by destruct t. Qed.

(** ** Outcomes *)

Lemma bind_Ret {A B : Type} (m : outcome A) (k : A → outcome B) (b : B) :
  m ≫= k = Ret b → ∃ a, m = Ret a ∧ k a = Ret b.
Proof. destruct m; simpl; intros H; try discriminate. eauto. Qed.

Lemma buildThread_Ret fuel annotations opts root :
  buildThread fuel annotations opts = Ret root →
  ∃ thread, threadAnnotations fuel annotations = Ret thread
            ∧ root = project opts thread.
Proof.
  unfold buildThread. intros H.
  apply bind_Ret in H as (thread & H1 & H2). injection H2 as <-. eauto.
Qed.

Lemma threadAnnotations_root fuel annotations thread :
  threadAnnotations fuel annotations = Ret thread →
  thread = mkThread "root" None None true false (t_children thread) None 0 0.
Proof.
  unfold threadAnnotations. intros H.
  apply bind_Ret in H as (threads & _ & H).
  destruct (collectRoots threads) as [threads' rootThreads].
  apply bind_Ret in H as (children & _ & H).
  by injection H as <-.
Qed.

(** ** Reply counts (claim C4) *)


Lemma fold_left_replies children acc :
  fold_left (fun total child => total + 1 + t_replyCount child) children acc
  = acc + sumReplies children.
Proof.
  revert acc. induction children as [|c l IH]; intros acc; simpl.
  - lia.
  - rewrite IH. lia.
Qed.


Lemma sumReplies_descendants children :
  Forall (fun c => t_replyCount c = Z.of_nat (length (descendants c))) children →
  sumReplies children = Z.of_nat (length (flat_map subthreads children)).
Proof.
  induction 1 as [|c l Hc _ IH]; simpl; [done|].
  rewrite subthreads_unfold. simpl. rewrite length_app, IH, Hc. lia.
Qed.

Lemma countRepliesAndDepth_counted t :
  ∀ d, Forall counted (subthreads (countRepliesAndDepth t d)).
Proof.
  induction t as [i a p v c children tc rc d0 IH] using Thread_ind; intros d.
  rewrite countRepliesAndDepth_unfold, subthreads_unfold. cbn zeta.
  set (children' := map (fun c => countRepliesAndDepth c (d + 1)) _).
  assert (Hall : Forall (fun c => Forall counted (subthreads c)) children').
  { subst children'. simpl. apply List.Forall_map.
    eapply List.Forall_impl; [|exact IH]. intros x Hx. apply Hx. }
  constructor.
  - unfold counted, descendants. simpl. rewrite fold_left_replies. split; [lia|].
    rewrite Z.add_0_l. apply sumReplies_descendants.
    eapply List.Forall_impl; [|exact Hall]. intros x Hx. cbv beta in Hx.
    rewrite subthreads_unfold in Hx. by apply List.Forall_inv in Hx as [_ ?].
  - unfold descendants. simpl. apply List.Forall_flat_map.
    exact Hall.
Qed.

Lemma counted_with_totalChildren t n :
  counted t → counted (with_totalChildren t n).
Proof. done. Qed.

Lemma project_shape opts thread :
  ∃ t, project opts thread =
         with_totalChildren (countRepliesAndDepth t (-1))
           (Z.of_nat (length (t_children (countRepliesAndDepth t (-1))))).
Proof. unfold project. eauto. Qed.

(** C4: in every tree that [buildThread] returns, the [replyCount] of every
    node, the root included, is the sum over its children of
    [1 + child.replyCount], which is the number of its strict descendants. *)
Theorem replyCount_counts_descendants fuel annotations opts root :
  buildThread fuel annotations opts = Ret root →
  ∀ node, In node (subthreads root) →
    t_replyCount node = sumReplies (t_children node)
    ∧ t_replyCount node = Z.of_nat (length (descendants node)).
Proof.
  intros H node Hnode.
  apply buildThread_Ret in H as (thread & _ & ->).
  destruct (project_shape opts thread) as [t Ht]. rewrite Ht in Hnode.
  pose proof (countRepliesAndDepth_counted t (-1)) as Hall.
  rewrite List.Forall_forall in Hall.
  rewrite subthreads_unfold in Hnode. destruct Hnode as [<- | Hnode].
  - apply counted_with_totalChildren, Hall, subthreads_self.
  - apply Hall. rewrite subthreads_unfold. by right.
Qed.

Lemma replyCount_counts_descendants_witness :
  ∃ root, buildThread 4 chain3 defaultOpts = Ret root
          ∧ t_replyCount root = 3
          ∧ t_replyCount root = Z.of_nat (length (descendants root)).
Proof.
  eexists. split; [vm_compute; reflexivity|]. split; [reflexivity|].
  eapply (replyCount_counts_descendants 4 chain3 defaultOpts).
  - vm_compute. reflexivity.
  - apply subthreads_self.
Defined.

(** ** Depths (claim C5) *)

Lemma countRepliesAndDepth_depth t d : t_depth (countRepliesAndDepth t d) = d.
Proof. by destruct t. Qed.

Lemma countRepliesAndDepth_children t d :
  t_children (countRepliesAndDepth t d)
  = map (fun c => countRepliesAndDepth c (d + 1)) (t_children t).
Proof. by destruct t. Qed.

Lemma countRepliesAndDepth_depths t :
  ∀ d node child,
    In node (subthreads (countRepliesAndDepth t d)) →
    In child (t_children node) →
    t_depth child = t_depth node + 1.
Proof.
  induction t as [i a p v c children tc rc d0 IH] using Thread_ind.
  intros d node child Hnode Hchild.
  rewrite subthreads_unfold in Hnode. destruct Hnode as [<- | Hnode].
  - rewrite countRepliesAndDepth_children in Hchild.
    apply in_map_iff in Hchild as (c0 & <- & _).
    by rewrite !countRepliesAndDepth_depth.
  - apply in_descendants in Hnode as (c' & Hc' & Hnode).
    rewrite countRepliesAndDepth_children in Hc'.
    apply in_map_iff in Hc' as (c0 & <- & Hc0).
    rewrite List.Forall_forall in IH. eapply IH; eauto.
Qed.

(** C5: in every tree that [buildThread] returns the root has depth -1 and
    each child is one level deeper than its parent, so that top-level
    threads have depth 0, their replies depth 1 and the replies to these
    depth 2. *)
Theorem depth_is_parent_depth_plus_one fuel annotations opts root :
  buildThread fuel annotations opts = Ret root →
  t_depth root = -1
  ∧ (∀ node child,
       In node (subthreads root) → In child (t_children node) →
       t_depth child = t_depth node + 1)
  ∧ (∀ top reply1 reply2,
       In top (t_children root) → In reply1 (t_children top) →
       In reply2 (t_children reply1) →
       t_depth top = 0 ∧ t_depth reply1 = 1 ∧ t_depth reply2 = 2).
Proof.
  intros H.
  apply buildThread_Ret in H as (thread & _ & ->).
  destruct (project_shape opts thread) as [t Ht]. rewrite Ht. clear Ht.
  set (r := countRepliesAndDepth t (-1)).
  assert (Hroot : t_depth (with_totalChildren r (Z.of_nat (length (t_children r)))) = -1).
  { simpl. apply countRepliesAndDepth_depth. }
  assert (Hstep : ∀ node child,
             In node (subthreads (with_totalChildren r (Z.of_nat (length (t_children r))))) →
             In child (t_children node) → t_depth child = t_depth node + 1).
  { intros node child Hnode Hchild.
    rewrite subthreads_unfold in Hnode. destruct Hnode as [<- | Hnode].
    - simpl in *. eapply (countRepliesAndDepth_depths t (-1)); [|exact Hchild].
      apply subthreads_self.
    - eapply (countRepliesAndDepth_depths t (-1)); [|exact Hchild].
      rewrite subthreads_unfold. by right. }
  split; [exact Hroot|]. split; [exact Hstep|].
  intros top reply1 reply2 Htop H1 H2.
  assert (t_depth top = 0) as Dtop.
  { rewrite (Hstep _ top (subthreads_self _) Htop), Hroot. lia. }
  assert (t_depth reply1 = 1) as D1.
  { rewrite (Hstep top reply1); [lia| |exact H1].
    eapply subthreads_child; [exact Htop|apply subthreads_self]. }
  split; [exact Dtop|]. split; [exact D1|].
  rewrite (Hstep reply1 reply2); [lia| |exact H2].
  eapply subthreads_child; [exact Htop|].
  eapply subthreads_child; [exact H1|apply subthreads_self].
Qed.

Lemma depth_is_parent_depth_plus_one_witness :
  ∃ root top reply1 reply2,
    buildThread 4 chain3 defaultOpts = Ret root
    ∧ t_children root = [top] ∧ t_children top = [reply1]
    ∧ t_children reply1 = [reply2]
    ∧ (t_id top, t_id reply1, t_id reply2) = ("1", "2", "3")
    ∧ t_depth root = -1
    ∧ t_depth top = 0 ∧ t_depth reply1 = 1 ∧ t_depth reply2 = 2.
Proof.
  do 4 eexists.
  split; [vm_compute; reflexivity|].
  do 4 (split; [reflexivity|]).
  destruct (depth_is_parent_depth_plus_one 4 chain3 defaultOpts _ eq_refl)
    as (Hroot & _ & Hchain).
  split; [exact Hroot|].
  apply Hchain; by left.
Defined.

(** ** The root thread (claim C9) *)

Lemma project_root_flags opts children :
  let root := project opts (mkThread "root" None None true false children None 0 0) in
  t_visible root = false
  ∧ t_collapsed root = match expanded opts !! "root" with
                       | Some e => negb e
                       | None => false
                       end.
Proof.
  unfold project.
  destruct (hasSelection opts), (threadFilterFn opts);
    cbn -[List.filter sort existsb]; unfold setCollapsed; cbn -[List.filter sort existsb];
    destruct (expanded opts !! "root"); done.
Qed.

(** C9, as the code has it: the root that [buildThread] returns is never
    visible; it is not collapsed unless the [expanded] map has an entry for
    the id [root], and then its [collapsed] flag is the negation of that
    entry. *)
Theorem root_not_visible_collapsed_by_expanded fuel annotations opts root :
  buildThread fuel annotations opts = Ret root →
  t_visible root = false
  ∧ t_collapsed root = match expanded opts !! "root" with
                       | Some e => negb e
                       | None => false
                       end
  ∧ (expanded opts !! "root" = None → t_collapsed root = false).
Proof.
  intros H.
  apply buildThread_Ret in H as (thread & Hthread & ->).
  rewrite (threadAnnotations_root _ _ _ Hthread).
  destruct (project_root_flags opts (t_children thread)) as [Hv Hc].
  split; [exact Hv|]. split; [exact Hc|].
  intros Hroot. rewrite Hc, Hroot. reflexivity.
Qed.

Lemma root_not_visible_collapsed_by_expanded_witness :
  ∃ root, buildThread 4 chain3 defaultOpts = Ret root
          ∧ t_visible root = false ∧ t_collapsed root = false.
Proof.
  eexists. split; [vm_compute; reflexivity|].
  destruct (root_not_visible_collapsed_by_expanded 4 chain3 defaultOpts _ eq_refl)
    as (Hv & _ & Hc).
  split; [exact Hv|]. apply Hc. reflexivity.
Defined.

(** The claim as stated fails when [expanded] has an entry for [root]: the
    returned root is collapsed. *)
Lemma root_collapsed_counterexample :
  ¬ (∀ fuel annotations opts root,
       buildThread fuel annotations opts = Ret root →
       t_visible root = false ∧ t_collapsed root = false).
Proof.
  intros claim.
  destruct (claim 1%nat [] rootCollapsedOpts _ eq_refl) as [_ Hc].
  vm_compute in Hc. discriminate Hc.
Qed.

(** ** Copies and originals *)

Lemma refines_unfold R x n :
  refines R x n ↔
  R x n ∧ Forall (fun c => ∃ cx, In cx (t_children x) ∧ refines R cx c) (t_children n).
Proof.
  destruct n as [i a p v c children tc rc d]. simpl.
  assert (Hall : ∀ l,
    (fix all (l : list Thread) : Prop :=
       match l with
       | [] => True
       | c :: l' => (∃ cx, In cx (t_children x) ∧ refines R cx c) ∧ all l'
       end) l
    ↔ Forall (fun c => ∃ cx, In cx (t_children x) ∧ refines R cx c) l).
  { induction l as [|c0 l IH].
    - split; [constructor|done].
    - split.
      + intros [H1 H2]. constructor; [exact H1|by apply IH].
      + intros H. apply List.Forall_cons_iff in H as [H1 H2]. split; [exact H1|by apply IH]. }
  by rewrite Hall.
Qed.

Lemma refines_root R x n : refines R x n → R x n.
Proof. intros H. by apply refines_unfold in H as [? _]. Qed.

Section Refinement.
Variable R : Thread → Thread → Prop.

Lemma refines_refl : (∀ x, R x x) → ∀ t, refines R t t.
Proof.
  intros Hrefl t.
  induction t as [i a p v c children tc rc d IH] using Thread_ind.
  apply refines_unfold. split; [apply Hrefl|]. simpl.
  rewrite List.Forall_forall in IH |- *. eauto.
Qed.

Lemma refines_trans :
  (∀ x y z, R x y → R y z → R x z) →
  ∀ z x y, refines R x y → refines R y z → refines R x z.
Proof.
  intros Htrans z.
  induction z as [i a p v c children tc rc d IH] using Thread_ind.
  intros x y Hxy Hyz.
  apply refines_unfold in Hxy as [Rxy Cxy].
  apply refines_unfold in Hyz as [Ryz Cyz].
  apply refines_unfold. split; [eauto|].
  simpl in *. rewrite List.Forall_forall in *.
  intros cz Hcz.
  destruct (Cyz cz Hcz) as (cy & Hcy & Hcyz).
  destruct (Cxy cy Hcy) as (cx & Hcx & Hcxy).
  exists cx. split; [exact Hcx|]. eapply IH; eauto.
Qed.

(** Every node of the copy is related to a node of the original, and so
    are its children to children of that node. *)
Lemma refines_nodes n :
  ∀ x, refines R x n →
  ∀ m, In m (subthreads n) →
  ∃ y, In y (subthreads x) ∧ R y m
       ∧ ∀ c, In c (t_children m) → ∃ cy, In cy (t_children y) ∧ R cy c.
Proof.
  induction n as [i a p v c children tc rc d IH] using Thread_ind.
  intros x Hx m Hm.
  apply refines_unfold in Hx as [Rx Cx]. simpl in Cx.
  rewrite List.Forall_forall in Cx, IH.
  rewrite subthreads_unfold in Hm. destruct Hm as [<- | Hm].
  - exists x. split; [apply subthreads_self|]. split; [exact Rx|].
    simpl. intros c0 Hc0. destruct (Cx c0 Hc0) as (cx & Hcx & Hr).
    exists cx. split; [exact Hcx|]. by apply refines_root in Hr.
  - apply in_descendants in Hm as (c0 & Hc0 & Hm). simpl in Hc0.
    destruct (Cx c0 Hc0) as (cx & Hcx & Hr).
    destruct (IH c0 Hc0 cx Hr m Hm) as (y & Hy & Hrest).
    exists y. split; [|exact Hrest].
    eapply subthreads_child; eauto.
Qed.

(** The copying passes. *)
Lemma refines_children x n children :
  R x n →
  (∀ y z ch, R y z → R y (with_children z ch)) →
  Forall (fun c => ∃ cx, In cx (t_children x) ∧ refines R cx c) children →
  refines R x (with_children n children).
Proof.
  intros Rx Hch Hall. apply refines_unfold. split; [by apply Hch|]. exact Hall.
Qed.

Lemma filter_refines p t :
  (∀ x, R x x) →
  (∀ y z ch, R y z → R y (with_children z ch)) →
  refines R t (with_children t (List.filter p (t_children t))).
Proof.
  intros Hrefl Hch. apply refines_children; [apply Hrefl|exact Hch|].
  apply List.Forall_forall. intros c Hc. apply filter_In in Hc as [Hc _].
  exists c. split; [exact Hc|]. by apply refines_refl.
Qed.

Lemma mapThread_refines f :
  (∀ x ch, R x (with_children (f x) ch)) →
  ∀ t, refines R t (mapThread t f).
Proof.
  intros Hf t.
  induction t as [i a p v c children tc rc d IH] using Thread_ind.
  rewrite mapThread_unfold. apply refines_unfold. split; [apply Hf|].
  simpl. apply List.Forall_map. rewrite List.Forall_forall in IH |- *.
  intros c0 Hc0. exists c0. split; [exact Hc0|]. by apply IH.
Qed.
End Refinement.

(** ** [Array.prototype.sort] returns a permutation *)

Lemma array_insert_perm {A} (compare : A → A → Z) x l :
  Permutation (array_insert compare x l) (x :: l).
Proof.
  induction l as [|y l IH]; simpl; [done|].
  destruct (0 <? compare x y)%Z.
  - rewrite IH. apply perm_swap.
  - done.
Qed.

Lemma array_sort_perm {A} (compare : A → A → Z) l :
  Permutation (array_sort compare l) l.
Proof.
  induction l as [|x l IH]; simpl; [done|].
  rewrite array_insert_perm. by constructor.
Qed.

Lemma sort_In threads compareFn x :
  In x (sort threads compareFn) ↔ In x threads.
Proof.
  unfold sort. split; apply Permutation_in;
    [apply array_sort_perm | symmetry; apply array_sort_perm].
Qed.

Lemma sort_length threads compareFn :
  length (sort threads compareFn) = length threads.
Proof. apply Permutation_length, array_sort_perm. Qed.

Section Refinement_passes.
Variable R : Thread → Thread → Prop.
Hypothesis R_refl : ∀ x, R x x.
Hypothesis R_trans : ∀ x y z, R x y → R y z → R x z.
Hypothesis R_children : ∀ y z ch, R y z → R y (with_children z ch).
Hypothesis R_collapsed : ∀ y z b, R y z → R y (with_collapsed z b).
Hypothesis R_counts :
  ∀ y i a p v c ch tc rc d tc' rc' d',
    R y (mkThread i a p v c ch tc rc d) → R y (mkThread i a p v c ch tc' rc' d').

Lemma sortThread_refines cmp rcmp t : refines R t (sortThread t cmp rcmp).
Proof.
  revert cmp.
  induction t as [i a p v c children tc rc d IH] using Thread_ind; intros cmp.
  rewrite sortThread_unfold.
  apply refines_children; [apply R_refl|exact R_children|].
  apply List.Forall_forall. intros c0 Hc0. apply sort_In in Hc0. simpl in Hc0.
  apply in_map_iff in Hc0 as (c1 & <- & Hc1).
  exists c1. split; [exact Hc1|].
  rewrite List.Forall_forall in IH. by apply IH.
Qed.

Lemma countRepliesAndDepth_refines t d : refines R t (countRepliesAndDepth t d).
Proof.
  revert d.
  induction t as [i a p v c children tc rc d0 IH] using Thread_ind; intros d.
  rewrite countRepliesAndDepth_unfold. cbn zeta. apply refines_unfold. split.
  - simpl. apply (R_counts _ i a p v c _ tc rc d0).
    apply (R_children _ (mkThread i a p v c children tc rc d0)), R_refl.
  - simpl. apply List.Forall_map. rewrite List.Forall_forall in IH |- *.
    intros c0 Hc0. exists c0. split; [exact Hc0|]. by apply IH.
Qed.

Lemma with_totalChildren_refines t n : refines R t (with_totalChildren t n).
Proof.
  apply refines_unfold. split.
  - destruct t as [i a p v c ch tc rc d]. simpl.
    apply (R_counts _ i a p v c ch tc rc d), R_refl.
  - simpl. apply List.Forall_forall. intros c Hc. exists c.
    split; [exact Hc|]. by apply refines_refl.
Qed.

Lemma setCollapsed_refines opts t : refines R t (mapThread t (setCollapsed opts)).
Proof.
  apply mapThread_refines. intros x ch. apply R_children.
  unfold setCollapsed. destruct (expanded opts !! t_id x); apply R_collapsed, R_refl.
Qed.

Lemma selectTopLevel_refines opts t : refines R t (selectTopLevel opts t).
Proof.
  unfold selectTopLevel.
  destruct (hasSelection opts), (threadFilterFn opts).
  - eapply refines_trans; [exact R_trans| |by apply filter_refines].
    by apply filter_refines.
  - by apply filter_refines.
  - by apply filter_refines.
  - by apply refines_refl.
Qed.

Lemma afterVisible_refines opts t : refines R t (afterVisible opts t).
Proof.
  unfold afterVisible, pruneInvisible.
  eapply refines_trans; [exact R_trans| |apply with_totalChildren_refines].
  eapply refines_trans; [exact R_trans| |apply countRepliesAndDepth_refines].
  eapply refines_trans; [exact R_trans| |apply sortThread_refines].
  eapply refines_trans; [exact R_trans| |apply setCollapsed_refines].
  by apply filter_refines.
Qed.
End Refinement_passes.

Lemma project_split opts thread :
  project opts thread
  = afterVisible opts (mapThread (selectTopLevel opts thread) (setVisible opts)).
Proof. reflexivity. Qed.

Lemma same_node_refl x : same_node x x.
Proof. done. Qed.

Lemma same_node_trans x y z : same_node x y → same_node y z → same_node x z.
Proof. unfold same_node. intros (?&?&?) (?&?&?). repeat split; congruence. Qed.

Lemma same_visible_refl x : same_visible x x.
Proof. done. Qed.

Lemma same_visible_trans x y z :
  same_visible x y → same_visible y z → same_visible x z.
Proof.
  unfold same_visible. intros [? ?] [? ?].
  split; [eapply same_node_trans; eauto | congruence].
Qed.

(** Every pass keeps ids, annotations and parents. *)
Lemma project_refines opts thread :
  refines same_node thread (project opts thread).
Proof.
  rewrite project_split.
  eapply refines_trans; [exact same_node_trans| |].
  2: { apply afterVisible_refines;
         solve [done | exact same_node_trans | by intros y [] ].  }
  eapply refines_trans; [exact same_node_trans| |].
  - apply selectTopLevel_refines; solve [done | exact same_node_trans].
  - apply mapThread_refines. intros x ch. by destruct x.
Qed.

(** The passes after the visibility pass keep the visibility too. *)
Lemma afterVisible_same_visible opts thread :
  refines same_visible thread (afterVisible opts thread).
Proof.
  apply afterVisible_refines;
    solve [done | exact same_visible_trans | by intros y [] ].
Qed.

(** ** Forced visibility (claim C8) *)

Lemma includes_true xs x : includes xs x = true ↔ In x xs.
Proof.
  unfold includes. rewrite existsb_exists. split.
  - intros (y & Hy & Heq). apply String.eqb_eq in Heq. by subst.
  - intros Hx. exists x. split; [exact Hx|apply String.eqb_refl].
Qed.

Lemma includes_hasForcedVisible opts x :
  includes (forcedVisible opts) x = true → hasForcedVisible opts = true.
Proof.
  unfold hasForcedVisible. intros H. apply includes_true in H.
  destruct (forcedVisible opts); [destruct H|done].
Qed.

Lemma mapThread_children t f :
  t_children (mapThread t f) = map (fun child => mapThread child f) (t_children t).
Proof. by rewrite mapThread_unfold. Qed.

Lemma mapThread_nodes f t :
  ∀ y, In y (subthreads (mapThread t f)) →
  ∃ x ch, In x (subthreads t) ∧ y = with_children (f x) ch.
Proof.
  induction t as [i a p v c children tc rc d IH] using Thread_ind.
  intros y Hy. rewrite subthreads_unfold in Hy. destruct Hy as [<- | Hy].
  - rewrite mapThread_unfold. eexists _, _. split; [apply subthreads_self|done].
  - apply in_descendants in Hy as (c0 & Hc0 & Hy).
    rewrite mapThread_children in Hc0. simpl in Hc0.
    apply in_map_iff in Hc0 as (c1 & <- & Hc1).
    rewrite List.Forall_forall in IH.
    destruct (IH c1 Hc1 y Hy) as (x & ch & Hx & ->).
    exists x, ch. split; [|done]. eapply subthreads_child; eauto.
Qed.

(** A visible top-level thread survives the passes that follow the
    visibility pass. *)
Lemma afterVisible_keeps opts t c :
  In c (t_children t) → t_visible c = true →
  ∃ c', In c' (t_children (afterVisible opts t)) ∧ same_visible c c'.
Proof.
  intros Hc Hv.
  set (c1 := mapThread c (setCollapsed opts)).
  set (c2 := sortThread c1 (replySortCompareFn opts) (replySortCompareFn opts)).
  set (c3 := countRepliesAndDepth c2 (-1 + 1)).
  assert (R1 : same_visible c c1).
  { apply (refines_root same_visible), setCollapsed_refines;
      solve [done | by intros y [] ]. }
  assert (R2 : same_visible c1 c2).
  { by apply (refines_root same_visible), sortThread_refines. }
  assert (R3 : same_visible c2 c3).
  { apply (refines_root same_visible), countRepliesAndDepth_refines;
      solve [done | by intros y [] ]. }
  exists c3. split.
  - unfold afterVisible, pruneInvisible. cbn [t_children with_totalChildren].
    rewrite countRepliesAndDepth_children.
    apply (in_map (fun c => countRepliesAndDepth c (-1 + 1))).
    rewrite sortThread_unfold. cbn [t_children with_children].
    apply sort_In.
    apply (in_map (fun c => sortThread c (replySortCompareFn opts) (replySortCompareFn opts))).
    rewrite mapThread_children. cbn [t_children with_children].
    apply (in_map (fun c => mapThread c (setCollapsed opts))).
    apply filter_In. split; [exact Hc|]. by rewrite Hv.
  - eapply same_visible_trans; [|exact R3].
    eapply same_visible_trans; [exact R1|exact R2].
Qed.

(** C8, as the code has it: with a filter that rejects every annotation, a
    top-level thread whose annotation's [$tag] is in [forcedVisible], and
    which the thread-level filter, if there is one, accepts, is a visible
    child of the returned root, and the threads whose annotation's [$tag] is
    not in [forcedVisible] are not visible. *)
Theorem forced_visible_thread_is_kept
    fuel annotations opts f thread root top annotation :
  threadAnnotations fuel annotations = Ret thread →
  buildThread fuel annotations opts = Ret root →
  filterFn opts = Some f → (∀ a, f a = false) →
  (∀ keep, threadFilterFn opts = Some keep → keep top = true) →
  In top (t_children thread) →
  t_annotation top = Some annotation →
  includes (forcedVisible opts) (ann_tag annotation) = true →
  (∃ c, In c (t_children root) ∧ t_id c = t_id top
        ∧ t_annotation c = Some annotation ∧ t_visible c = true)
  ∧ (∀ node a, In node (subthreads root) → t_annotation node = Some a →
       t_visible node = includes (forcedVisible opts) (ann_tag a))
  ∧ (∀ node a, In node (subthreads root) → t_annotation node = Some a →
       includes (forcedVisible opts) (ann_tag a) = false → t_visible node = false).
Proof.
  intros Hthread Hbuild Hf Hreject Htf Htop Hann Hforced.
  unfold buildThread in Hbuild. rewrite Hthread in Hbuild. simpl in Hbuild.
  injection Hbuild as <-. rewrite project_split.
  pose proof (includes_hasForcedVisible _ _ Hforced) as Hhas.
  assert (Hvis : ∀ node a, In node (subthreads (afterVisible opts
                   (mapThread (selectTopLevel opts thread) (setVisible opts)))) →
                 t_annotation node = Some a →
                 t_visible node = includes (forcedVisible opts) (ann_tag a)).
  { intros node a Hnode Ha.
    destruct (refines_nodes same_visible _ _ (afterVisible_same_visible opts _) node Hnode)
      as (y & Hy & ((Hid & Hya & Hp) & Hyv) & _).
    apply mapThread_nodes in Hy as (x & ch & _ & ->).
    rewrite Hyv. rewrite Ha in Hya. simpl in Hya |- *.
    unfold setVisible in Hya |- *. simpl in Hya. rewrite <- Hya. simpl.
    rewrite Hf, Hhas, Hreject.
    by destruct (includes (forcedVisible opts) (ann_tag a)). }
  split; [|split; [exact Hvis|]].
  - assert (Hsel : In top (t_children (selectTopLevel opts thread))).
    { assert (Hselected : In top (t_children
                (if hasSelection opts
                 then with_children thread
                        (List.filter (isSelectedOrForced opts) (t_children thread))
                 else thread))).
      { destruct (hasSelection opts); [|exact Htop].
        simpl. apply filter_In. split; [exact Htop|].
        unfold isSelectedOrForced. rewrite Hann, Hhas, Hforced.
        apply orb_true_r. }
      unfold selectTopLevel.
      destruct (threadFilterFn opts) as [keep|]; [|exact Hselected].
      simpl. apply filter_In. split; [exact Hselected|]. by apply Htf. }
    set (top1 := mapThread top (setVisible opts)).
    assert (H1 : In top1 (t_children (mapThread (selectTopLevel opts thread)
                                                (setVisible opts)))).
    { rewrite mapThread_children.
      by apply (in_map (fun c => mapThread c (setVisible opts))). }
    assert (Hv1 : t_visible top1 = true).
    { subst top1. rewrite mapThread_unfold. simpl.
      unfold setVisible. rewrite Hann, Hf, Hhas, Hforced. reflexivity. }
    destruct (afterVisible_keeps opts _ _ H1 Hv1) as (c & Hc & (Hid & Ha & _) & Hv).
    exists c. split; [exact Hc|].
    subst top1. rewrite mapThread_unfold in Hid, Ha, Hv. simpl in Hid, Ha, Hv.
    rewrite Hid, Ha. split; [done|]. split; [exact Hann|].
    rewrite Hv. unfold setVisible. rewrite Hann, Hf, Hhas, Hforced. reflexivity.
  - intros node a Hnode Ha Hnot. rewrite (Hvis node a Hnode Ha). exact Hnot.
Qed.

Lemma forced_visible_thread_is_kept_witness :
  ∃ root c,
    buildThread 4 forcedSample forcedOpts = Ret root
    ∧ t_children root = [c] ∧ t_id c = "2"
    ∧ t_annotation c = Some (saved "2" []) ∧ t_visible c = true.
Proof.
  do 2 eexists. split; [vm_compute; reflexivity|].
  do 2 (split; [reflexivity|]).
  assert (Hthread : ∃ thread top,
             threadAnnotations 4 forcedSample = Ret thread
             ∧ In top (t_children thread)
             ∧ t_annotation top = Some (saved "2" [])).
  { do 2 eexists. split; [vm_compute; reflexivity|].
    split; [right; left; reflexivity|reflexivity]. }
  destruct Hthread as (thread & top & Hthread & Htop & Hann).
  assert (Hkeep : ∀ keep, threadFilterFn forcedOpts = Some keep → keep top = true)
    by discriminate.
  destruct (forced_visible_thread_is_kept 4 forcedSample forcedOpts (fun _ => false)
              thread _ top (saved "2" []) Hthread eq_refl eq_refl
              (fun _ => eq_refl) Hkeep Htop Hann eq_refl)
    as ((c & Hc & _ & Ha & Hv) & _).
  destruct Hc as [<- | []]. split; [exact Ha|exact Hv].
Defined.

(** The claim as stated fails: a thread-level filter that rejects the thread
    removes it before the visibility pass, forced visible or not. *)
Lemma forced_visible_counterexample :
  ∃ thread top f root,
    threadAnnotations 4 forcedSample = Ret thread
    ∧ In top (t_children thread) ∧ t_annotation top = Some (saved "2" [])
    ∧ filterFn forcedRejectedOpts = Some f ∧ (∀ a, f a = false)
    ∧ includes (forcedVisible forcedRejectedOpts) (ann_tag (saved "2" [])) = true
    ∧ buildThread 4 forcedSample forcedRejectedOpts = Ret root
    ∧ descendants root = [].
Proof.
  do 4 eexists. split; [vm_compute; reflexivity|].
  split; [right; left; reflexivity|]. split; [reflexivity|].
  split; [reflexivity|]. split; [done|]. split; [reflexivity|].
  split; [vm_compute; reflexivity|reflexivity].
Qed.

(** ** Sorting *)

Section Stable_insertion.
Context {A : Type} (compare : A → A → Z).
Hypothesis compare_flip : ∀ x y, (compare x y <= 0 → 0 <= compare y x)%Z.
Hypothesis compare_trans :
  ∀ x y z, (0 <= compare y x → 0 <= compare z y → 0 <= compare z x)%Z.
Hypothesis compare_tie :
  ∀ w x y, compare w x = 0%Z → compare w y = 0%Z → compare x y = 0%Z.

Let after (a b : A) : Prop := (0 <= compare b a)%Z.

Lemma array_insert_sorted x l :
  StronglySorted after l → StronglySorted after (array_insert compare x l).
Proof.
  induction 1 as [|y l Hl IH Hy]; simpl.
  - repeat constructor.
  - destruct (0 <? compare x y)%Z eqn:Hxy.
    + apply Z.ltb_lt in Hxy. constructor; [exact IH|].
      rewrite List.Forall_forall in Hy |- *. intros z Hz.
      apply (Permutation_in _ (array_insert_perm compare x l)) in Hz.
      destruct Hz as [<- | Hz]; [unfold after; lia | by apply Hy].
    + apply Z.ltb_ge in Hxy. constructor; [by constructor|].
      constructor; [by apply compare_flip|].
      rewrite List.Forall_forall in Hy |- *. intros z Hz.
      eapply compare_trans; [apply compare_flip, Hxy | by apply Hy].
Qed.

Lemma array_sort_sorted l : StronglySorted after (array_sort compare l).
Proof.
  induction l as [|x l IH]; simpl; [constructor|].
  by apply array_insert_sorted.
Qed.

Lemma array_insert_stable w x l :
  List.filter (fun y => compare w y =? 0)%Z (array_insert compare x l)
  = List.filter (fun y => compare w y =? 0)%Z (x :: l).
Proof.
  induction l as [|y l IH]; [done|].
  cbn [array_insert]. destruct (0 <? compare x y)%Z eqn:Hxy; [|done].
  apply Z.ltb_lt in Hxy.
  cbn [List.filter] in IH |- *. rewrite IH.
  destruct (compare w x =? 0)%Z eqn:Hwx, (compare w y =? 0)%Z eqn:Hwy; try done.
  apply Z.eqb_eq in Hwx, Hwy. pose proof (compare_tie w x y Hwx Hwy). lia.
Qed.

Lemma array_sort_stable w l :
  List.filter (fun y => compare w y =? 0)%Z (array_sort compare l)
  = List.filter (fun y => compare w y =? 0)%Z l.
Proof.
  induction l as [|x l IH]; [done|].
  cbn [array_sort foldr]. rewrite array_insert_stable.
  cbn [List.filter]. fold (array_sort compare l). by rewrite IH.
Qed.
End Stable_insertion.

(** The comparator of [sort], case by case. *)
Lemma compareThreads_contract cmp a b :
  match t_annotation a, t_annotation b with
  | None, None => compareThreads cmp a b = 0
  | None, Some _ => compareThreads cmp a b = -1
  | Some _, None => compareThreads cmp a b = 1
  | Some x, Some y =>
      (cmp x y = true → compareThreads cmp a b = -1)
      ∧ (cmp x y = false → cmp y x = true → compareThreads cmp a b = 1)
      ∧ (cmp x y = false → cmp y x = false → compareThreads cmp a b = 0)
  end.
Proof.
  unfold compareThreads.
  destruct (t_annotation a) as [x|], (t_annotation b) as [y|]; try done.
  destruct (cmp x y), (cmp y x); done.
Qed.

Section Less_than.
Variable cmp : Annotation → Annotation → bool.
Hypothesis cmp_lt : LessThan cmp.

Lemma compareThreads_flip x y :
  (compareThreads cmp x y <= 0 → 0 <= compareThreads cmp y x)%Z.
Proof.
  destruct cmp_lt as [Hasym _]. unfold compareThreads.
  destruct (t_annotation x) as [a|], (t_annotation y) as [b|]; try lia.
  destruct (cmp a b) eqn:Hab.
  - rewrite (Hasym _ _ Hab). lia.
  - destruct (cmp b a); lia.
Qed.

Lemma compareThreads_trans x y z :
  (0 <= compareThreads cmp y x → 0 <= compareThreads cmp z y →
   0 <= compareThreads cmp z x)%Z.
Proof.
  destruct cmp_lt as [Hasym Hneg]. unfold compareThreads.
  destruct (t_annotation x) as [a|], (t_annotation y) as [b|],
           (t_annotation z) as [c|]; try lia.
  destruct (cmp c a) eqn:Hca.
  - destruct (Hneg _ b _ Hca) as [-> | ->]; [|lia].
    destruct (cmp b a); lia.
  - destruct (cmp a c); lia.
Qed.

Lemma compareThreads_tie w x y :
  compareThreads cmp w x = 0 → compareThreads cmp w y = 0 →
  compareThreads cmp x y = 0.
Proof.
  destruct cmp_lt as [Hasym Hneg]. unfold compareThreads.
  destruct (t_annotation w) as [c|], (t_annotation x) as [a|],
           (t_annotation y) as [b|]; try done.
  destruct (cmp c a) eqn:Hca; [done|]. destruct (cmp a c) eqn:Hac; [done|].
  destruct (cmp c b) eqn:Hcb; [done|]. destruct (cmp b c) eqn:Hbc; [done|].
  intros _ _.
  destruct (cmp a b) eqn:Hab.
  { destruct (Hneg _ c _ Hab); congruence. }
  destruct (cmp b a) eqn:Hba; [|done].
  destruct (Hneg _ c _ Hba); congruence.
Qed.

(** [sort] returns the stable sorted permutation of its argument. *)
Lemma sort_ordered threads : ordered cmp (sort threads cmp).
Proof.
  apply (array_sort_sorted (compareThreads cmp));
    [exact compareThreads_flip | exact compareThreads_trans].
Qed.

Lemma sort_stable w threads :
  List.filter (tie cmp w) (sort threads cmp) = List.filter (tie cmp w) threads.
Proof.
  apply (array_sort_stable (compareThreads cmp)). exact compareThreads_tie.
Qed.
End Less_than.

(** The order of a list depends on the annotations only. *)
Lemma ordered_map cmp (g : Thread → Thread) l :
  (∀ x, t_annotation (g x) = t_annotation x) →
  ordered cmp l → ordered cmp (map g l).
Proof.
  intros Hg. unfold ordered. induction 1 as [|x l Hl IH Hx]; simpl; constructor.
  - exact IH.
  - apply List.Forall_map. eapply List.Forall_impl; [|exact Hx].
    intros y. unfold inOrder, compareThreads. by rewrite !Hg.
Qed.

Lemma countRepliesAndDepth_annotation t d :
  t_annotation (countRepliesAndDepth t d) = t_annotation t.
Proof. by destruct t. Qed.

(** After sorting and counting, every list of children is in order: by the
    top-level comparison function at the root, by the one for replies
    below. *)
Lemma sortThread_ordered rcmp :
  LessThan rcmp →
  ∀ t cmp d, LessThan cmp →
    ordered cmp (t_children (countRepliesAndDepth (sortThread t cmp rcmp) d))
    ∧ ∀ node, In node (descendants (countRepliesAndDepth (sortThread t cmp rcmp) d)) →
              ordered rcmp (t_children node).
Proof.
  intros Hrcmp t.
  induction t as [i a p v c children tc rc d0 IH] using Thread_ind.
  intros cmp d Hcmp.
  rewrite countRepliesAndDepth_children, sortThread_unfold.
  cbn [t_children with_children]. split.
  - apply ordered_map; [intros x; apply countRepliesAndDepth_annotation|].
    by apply sort_ordered.
  - intros node Hnode. apply in_descendants in Hnode as (c0 & Hc0 & Hnode).
    rewrite countRepliesAndDepth_children in Hc0.
    cbn [t_children with_children] in Hc0.
    apply in_map_iff in Hc0 as (c1 & <- & Hc1).
    apply sort_In in Hc1. apply in_map_iff in Hc1 as (c2 & <- & Hc2).
    rewrite List.Forall_forall in IH.
    destruct (IH c2 Hc2 rcmp (d + 1) Hrcmp) as [Htop Hbelow].
    rewrite subthreads_unfold in Hnode. destruct Hnode as [<- | Hnode].
    + exact Htop.
    + by apply Hbelow.
Qed.

Lemma ordered_precedes cmp l a b :
  ordered cmp l → precedes l a b →
  (t_annotation b = None → t_annotation a = None)
  ∧ (∀ x y, t_annotation a = Some x → t_annotation b = Some y → cmp y x = false).
Proof.
  intros Hl (l1 & l2 & l3 & ->).
  assert (Hab : inOrder cmp a b).
  { unfold ordered in Hl. induction l1 as [|z l1 IH]; simpl in Hl.
    - apply StronglySorted_inv in Hl as [_ Hall].
      rewrite List.Forall_forall in Hall. apply Hall.
      apply in_or_app. right. by left.
    - apply StronglySorted_inv in Hl as [Hl _]. by apply IH. }
  unfold inOrder, compareThreads in Hab.
  destruct (t_annotation a) as [x|], (t_annotation b) as [y|]; try done; try lia.
  split; [done|]. intros ? ? [= <-] [= <-].
  destruct (cmp y x); [lia|done].
Qed.

(** A less-than predicate leaves one stable sorted permutation of a list:
    any implementation of [Array.prototype.sort] that is stable returns the
    list that [sort] returns. *)
Lemma tie_refl cmp a : LessThan cmp → tie cmp a a = true.
Proof.
  intros [Hasym _]. unfold tie, compareThreads.
  destruct (t_annotation a) as [x|]; [|done].
  destruct (cmp x x) eqn:Hx; [|done]. by rewrite (Hasym _ _ Hx) in Hx.
Qed.

Lemma compareThreads_after cmp a b :
  (0 < compareThreads cmp a b → compareThreads cmp b a < 0)%Z.
Proof.
  unfold compareThreads.
  destruct (t_annotation a) as [x|], (t_annotation b) as [y|]; try lia.
  destruct (cmp x y), (cmp y x); lia.
Qed.

Lemma stable_sorted_unique cmp l1 :
  LessThan cmp →
  ∀ l2, Permutation l1 l2 → ordered cmp l1 → ordered cmp l2 →
        (∀ w, List.filter (tie cmp w) l1 = List.filter (tie cmp w) l2) →
        l1 = l2.
Proof.
  intros Hcmp. induction l1 as [|a l1 IH]; intros l2 Hperm H1 H2 Hstable.
  - by apply Permutation_nil in Hperm.
  - destruct l2 as [|b l2]; [by apply Permutation_sym, Permutation_nil in Hperm|].
    assert (Hab : a = b).
    { pose proof (Hstable a) as Ha. cbn [List.filter] in Ha.
      rewrite (tie_refl cmp a Hcmp) in Ha.
      destruct (tie cmp a b) eqn:Htie; [by injection Ha|].
      exfalso.
      assert (Hb : In b l1).
      { assert (In b (a :: l1)) as [->|Hb]
          by (eapply Permutation_in; [symmetry; exact Hperm|by left]); [|done].
        by rewrite (tie_refl cmp b Hcmp) in Htie. }
      assert (Ha' : In a l2).
      { assert (In a (b :: l2)) as [->|Ha']
          by (eapply Permutation_in; [exact Hperm|by left]); [|done].
        by rewrite (tie_refl cmp a Hcmp) in Htie. }
      apply StronglySorted_inv in H1 as [_ H1]. rewrite List.Forall_forall in H1.
      apply StronglySorted_inv in H2 as [_ H2]. rewrite List.Forall_forall in H2.
      specialize (H1 b Hb). specialize (H2 a Ha').
      unfold inOrder in H1, H2. unfold tie in Htie. apply Z.eqb_neq in Htie.
      pose proof (compareThreads_after cmp a b). lia. }
    subst b. f_equal. apply IH.
    + by apply Permutation_cons_inv in Hperm.
    + by apply StronglySorted_inv in H1 as [? _].
    + by apply StronglySorted_inv in H2 as [? _].
    + intros w. specialize (Hstable w). cbn [List.filter] in Hstable.
      destruct (tie cmp w a); [by injection Hstable|done].
Qed.

Lemma sort_unique cmp threads sorted :
  LessThan cmp →
  Permutation sorted threads → ordered cmp sorted →
  (∀ w, List.filter (tie cmp w) sorted = List.filter (tie cmp w) threads) →
  sorted = sort threads cmp.
Proof.
  intros Hcmp Hperm Hord Hstable. apply (stable_sorted_unique cmp); try done.
  - rewrite Hperm. symmetry. apply array_sort_perm.
  - by apply sort_ordered.
  - intros w. by rewrite Hstable, sort_stable.
Qed.

(** The default comparison functions are less-than predicates. *)
Lemma string_ltb_asym s1 s2 : String.ltb s1 s2 = true → String.ltb s2 s1 = false.
Proof.
  unfold String.ltb. rewrite (String.compare_antisym s1 s2).
  by destruct (String.compare s2 s1).
Qed.

Lemma string_ltb_trans s1 s2 s3 :
  String.ltb s1 s2 = true → String.ltb s2 s3 = true → String.ltb s1 s3 = true.
Proof.
  unfold String.ltb.
  destruct (String.compare s1 s2) eqn:H12; try done.
  destruct (String.compare s2 s3) eqn:H23; try done. intros _ _.
  apply String_as_OT.cmp_lt in H12, H23.
  pose proof (String_as_OT.lt_trans _ _ _ H12 H23) as H13.
  apply String_as_OT.cmp_lt in H13. unfold String_as_OT.cmp in H13.
  by rewrite H13.
Qed.

Lemma string_ltb_between s1 s2 s3 :
  String.ltb s1 s3 = true → String.ltb s1 s2 = true ∨ String.ltb s2 s3 = true.
Proof.
  intros H13.
  destruct (String.ltb s1 s2) eqn:H12; [by left|right].
  unfold String.ltb in H12.
  destruct (String.compare s1 s2) eqn:Hc; try done.
  - apply String.compare_eq_iff in Hc. by subst.
  - eapply string_ltb_trans; [|exact H13].
    unfold String.ltb. rewrite (String.compare_antisym s2 s1), Hc. done.
Qed.

Lemma defaultOpts_LessThan :
  LessThan (sortCompareFn defaultOpts) ∧ LessThan (replySortCompareFn defaultOpts).
Proof.
  split; (split; simpl; [intros a b; apply string_ltb_asym
                        | intros a b c; apply string_ltb_between]).
Qed.

(** ** Tree assembly, one call at a time *)

Lemma truthy_true s : truthy s = true ↔ s ≠ "".
Proof. unfold truthy. rewrite negb_true_iff. apply String.eqb_neq. Qed.

Lemma truthy_false s : truthy s = false ↔ s = "".
Proof. unfold truthy. rewrite negb_false_iff. apply String.eqb_eq. Qed.

Lemma hasPathToRoot_unfold fuel (threads : gmap string ThreadObj) id ancestorId :
  hasPathToRoot (S fuel) threads id ancestorId =
  match threads !! ancestorId with
  | None => Ret false
  | Some ancestor =>
      match o_parent ancestor with
      | Some p =>
          if String.eqb p id then Ret false
          else if negb (truthy p) then Ret true
          else hasPathToRoot fuel threads id p
      | None => Ret true
      end
  end.
Proof. reflexivity. Qed.

Lemma hasPathToRoot_missing fuel (threads : gmap string ThreadObj) id ancestorId :
  threads !! ancestorId = None →
  hasPathToRoot (S fuel) threads id ancestorId = Ret false.
Proof. intros H. by rewrite hasPathToRoot_unfold, H. Qed.

Lemma hasPathToRoot_top fuel (threads : gmap string ThreadObj) id ancestorId ancestor :
  threads !! ancestorId = Some ancestor → o_parent ancestor = None →
  hasPathToRoot (S fuel) threads id ancestorId = Ret true.
Proof. intros H Hp. by rewrite hasPathToRoot_unfold, H, Hp. Qed.

Lemma hasPathToRoot_circular fuel (threads : gmap string ThreadObj) id ancestorId ancestor :
  threads !! ancestorId = Some ancestor → o_parent ancestor = Some id →
  hasPathToRoot (S fuel) threads id ancestorId = Ret false.
Proof. intros H Hp. by rewrite hasPathToRoot_unfold, H, Hp, String.eqb_refl. Qed.

Lemma hasPathToRoot_up fuel (threads : gmap string ThreadObj) id ancestorId ancestor p :
  threads !! ancestorId = Some ancestor → o_parent ancestor = Some p →
  p ≠ id → p ≠ "" →
  hasPathToRoot (S fuel) threads id ancestorId = hasPathToRoot fuel threads id p.
Proof.
  intros H Hp Hid Hne. rewrite hasPathToRoot_unfold, H, Hp.
  apply String.eqb_neq in Hid. apply truthy_true in Hne. by rewrite Hid, Hne.
Qed.

(** A thread that is its own parent is never left. *)
Lemma hasPathToRoot_loop fuel (threads : gmap string ThreadObj) id x o :
  threads !! x = Some o → o_parent o = Some x → x ≠ id → x ≠ "" →
  hasPathToRoot fuel threads id x = OutOfFuel.
Proof.
  intros Hx Hp Hid Hne. induction fuel as [|fuel IH]; [done|].
  by rewrite (hasPathToRoot_up _ _ _ _ _ _ Hx Hp).
Qed.

Lemma setParent_unfold fuel threads id parents :
  setParent (S fuel) threads id parents =
  match objs threads !! id with
  | None => TypeError
  | Some thread =>
      if (truthy_opt (o_parent thread) || (length parents =? 0)%nat)%bool
      then Ret threads
      else
        let parentId := List.last parents "" in
        threads1 ←
          match objs threads !! parentId with
          | None =>
              setParent fuel (assign parentId (placeholder parentId) threads)
                        parentId (removelast parents)
          | Some _ => Ret threads
          end;
        ok ← hasPathToRoot fuel (objs threads1) id parentId;
        if ok : bool then attach id parentId threads1 else Ret threads1
  end.
Proof. reflexivity. Qed.

Lemma setParent_assigned fuel threads id parents thread :
  objs threads !! id = Some thread → truthy_opt (o_parent thread) = true →
  setParent (S fuel) threads id parents = Ret threads.
Proof. intros H Hp. by rewrite setParent_unfold, H, Hp. Qed.

Lemma setParent_nil fuel threads id thread :
  objs threads !! id = Some thread →
  setParent (S fuel) threads id [] = Ret threads.
Proof. intros H. rewrite setParent_unfold, H. by rewrite orb_true_r. Qed.

Lemma snoc_not_empty {A} (l : list A) x : (length (l ++ [x]) =? 0)%nat = false.
Proof. rewrite length_app. simpl. apply Nat.eqb_neq. lia. Qed.

Lemma setParent_existing fuel threads id parents parentId thread parent :
  objs threads !! id = Some thread → truthy_opt (o_parent thread) = false →
  objs threads !! parentId = Some parent →
  setParent (S fuel) threads id (parents ++ [parentId]) =
  ok ← hasPathToRoot fuel (objs threads) id parentId;
  if ok : bool then attach id parentId threads else Ret threads.
Proof.
  intros H Hp Hparent.
  rewrite setParent_unfold, H, Hp, snoc_not_empty. cbn [orb]. cbv zeta.
  by rewrite last_last, Hparent.
Qed.

Lemma setParent_missing fuel threads id parents parentId thread :
  objs threads !! id = Some thread → truthy_opt (o_parent thread) = false →
  objs threads !! parentId = None →
  setParent (S fuel) threads id (parents ++ [parentId]) =
  threads1 ← setParent fuel (assign parentId (placeholder parentId) threads)
                       parentId parents;
  ok ← hasPathToRoot fuel (objs threads1) id parentId;
  if ok : bool then attach id parentId threads1 else Ret threads1.
Proof.
  intros H Hp Hparent.
  rewrite setParent_unfold, H, Hp, snoc_not_empty. cbn [orb]. cbv zeta.
  by rewrite last_last, removelast_last, Hparent.
Qed.

Lemma attach_ok id parentId threads thread parent :
  objs threads !! id = Some thread → objs threads !! parentId = Some parent →
  attach id parentId threads
  = Ret (update parentId (push_child id) (update id (set_parent parentId) threads)).
Proof.
  intros H Hparent. unfold attach. rewrite H. cbv zeta. cbn [objs update].
  destruct (decide (id = parentId)) as [->|Hne].
  - by rewrite lookup_alter_eq, H.
  - by rewrite lookup_alter_ne, Hparent.
Qed.

Lemma setParent_repeated fuel threads id x thread :
  objs threads !! id = Some thread → truthy_opt (o_parent thread) = false →
  objs threads !! x = None → x ≠ id → x ≠ "" →
  setParent fuel threads id [x; x] = OutOfFuel.
Proof.
  intros Hid Hp Hx Hne Hx0.
  destruct fuel as [|fuel]; [done|].
  change [x; x] with ([x] ++ [x]).
  rewrite (setParent_missing fuel threads id [x] x thread Hid Hp Hx).
  destruct fuel as [|fuel]; [done|].
  assert (Hx1 : objs (assign x (placeholder x) threads) !! x = Some (placeholder x)).
  { cbn [objs assign]. apply lookup_insert_eq. }
  change [x] with ([] ++ [x]).
  rewrite (setParent_existing fuel _ x [] x _ _ Hx1 eq_refl Hx1).
  destruct fuel as [|fuel]; [done|].
  rewrite (hasPathToRoot_top _ _ _ _ _ Hx1 eq_refl).
  cbn [mbind outcome_bind].
  rewrite (attach_ok _ _ _ _ _ Hx1 Hx1). cbn [mbind outcome_bind].
  rewrite (hasPathToRoot_loop _ _ id x (push_child x (set_parent x (placeholder x)))); try done.
  cbn [objs update assign].
  by rewrite !lookup_alter_eq, lookup_insert_eq.
Qed.

(** ** Circular references that the guard misses (claims C1 and C2) *)

(** C1, at a failing input: for the single annotation [A] whose references
    are [X, X], with [X] missing, [buildThread] does not return, whatever the
    size of the call stack: the placeholder for [X] becomes its own parent
    and [hasPathToRoot] walks it forever. *)
Theorem repeated_reference_never_returns :
  ∀ fuel, buildThread fuel repeatedReference defaultOpts = OutOfFuel.
Proof.
  intros fuel. unfold buildThread, threadAnnotations, linkThreads, repeatedReference.
  cbn [foldM].
  rewrite (setParent_repeated fuel _ "A" "X" (newThread (saved "A" ["X"; "X"])));
    done.
Qed.

(** The same walk does not end when a reply refers to an unsaved annotation
    that refers to itself. *)
Lemma self_reference_reply_never_returns :
  ∀ fuel, buildThread fuel selfReferenceReply defaultOpts = OutOfFuel.
Proof.
  intros fuel. unfold buildThread, threadAnnotations, linkThreads, selfReferenceReply.
  cbn [foldM].
  destruct fuel as [|[|fuel]]; [done..|].
  assert (Hlink : setParent (S (S fuel)) (createThreads [unsaved "t" ["t"]; saved "B" ["t"]])
                    "t" ["t"]
                  = Ret (update "t" (push_child "t") (update "t" (set_parent "t")
                          (createThreads [unsaved "t" ["t"]; saved "B" ["t"]])))).
  { change ["t"] with ([] ++ ["t"]).
    erewrite setParent_existing; [|reflexivity..].
    erewrite hasPathToRoot_top; [|reflexivity..].
    cbn [mbind outcome_bind]. erewrite attach_ok; [done|reflexivity..]. }
  change (annotationId (unsaved "t" ["t"])) with "t".
  change (parentsOf (unsaved "t" ["t"])) with ["t"].
  rewrite Hlink. cbn [mbind outcome_bind].
  change (annotationId (saved "B" ["t"])) with "B".
  change (parentsOf (saved "B" ["t"])) with ([] ++ ["t"]).
  erewrite setParent_existing; [|reflexivity..].
  erewrite hasPathToRoot_loop; [done|reflexivity|reflexivity|done|done].
Qed.

(** Entries equal to the server id of the annotation are dropped. *)
Lemma parentsOf_drops_id annotation i :
  ann_id annotation = Some i → ¬ In i (parentsOf annotation).
Proof.
  unfold parentsOf. intros -> Hin. apply filter_In in Hin as [_ Hne].
  by rewrite String.eqb_refl in Hne.
Qed.

(** C2, at a failing input: an annotation identified by its [$tag] keeps a
    reference equal to that tag; its thread becomes its own parent and its
    own child, and the tree that [buildThread] returns does not contain
    it. *)
Theorem self_reference_by_tag_is_kept :
  annotationId (unsaved "t" ["t"]) = "t"
  ∧ parentsOf (unsaved "t" ["t"]) = ["t"]
  ∧ (∃ threads thread,
       linkThreads 2 selfReference (createThreads selfReference) = Ret threads
       ∧ objs threads !! "t" = Some thread
       ∧ o_parent thread = Some "t" ∧ o_children thread = ["t"])
  ∧ (∃ root, buildThread 2 selfReference defaultOpts = Ret root
             ∧ t_children root = []).
Proof.
  split; [reflexivity|]. split; [reflexivity|]. split.
  - do 2 eexists. split; [vm_compute; reflexivity|].
    split; [vm_compute; reflexivity|]. split; reflexivity.
  - eexists. split; [vm_compute; reflexivity|reflexivity].
Qed.


(** ** Parents and children agree (claim C10) *)

Lemma well_linked_no_parent threads k o :
  well_linked threads → threads !! k = Some o →
  truthy_opt (o_parent o) = false → o_parent o = None.
Proof.
  intros (_ & _ & H3) Hk Hp. destruct (o_parent o) as [p|] eqn:Hpar; [|done].
  simpl in Hp. apply truthy_false in Hp. by destruct (H3 k o p Hk Hpar).
Qed.

Lemma preserved_refl id threads : preserved id threads threads.
Proof. intros k o Hk. exists o. done. Qed.

Lemma preserved_trans id t1 t2 t3 :
  preserved id t1 t2 → preserved id t2 t3 → preserved id t1 t3.
Proof.
  intros H12 H23 k o Hk.
  destruct (H12 k o Hk) as (o2 & Hk2 & Hi2 & Ha2 & Hp2).
  destruct (H23 k o2 Hk2) as (o3 & Hk3 & Hi3 & Ha3 & Hp3).
  exists o3. split; [done|]. split; [congruence|]. split; [congruence|].
  intros Hne. rewrite Hp3, Hp2; done.
Qed.

Lemma well_linked_placeholder threads x :
  well_linked threads → threads !! x = None →
  well_linked (<[x := placeholder x]> threads).
Proof.
  intros (H1 & H2 & H3) Hx. split; [|split].
  - intros k o Hk. apply lookup_insert_Some in Hk as [[<- <-]|[Hne Hk]]; [done|eauto].
  - intros k o c Hk Hc. apply lookup_insert_Some in Hk as [[<- <-]|[Hne Hk]]; [done|].
    destruct (H2 k o c Hk Hc) as (co & Hco & Hp). exists co. split; [|done].
    rewrite lookup_insert_ne; [done|]. intros <-. congruence.
  - intros k o p Hk Hp. apply lookup_insert_Some in Hk as [[<- <-]|[Hne Hk]]; [done|eauto].
Qed.

Lemma preserved_placeholder id threads x :
  threads !! x = None → preserved id threads (<[x := placeholder x]> threads).
Proof.
  intros Hx k o Hk. exists o. rewrite lookup_insert_ne; [done|]. intros <-. congruence.
Qed.

Lemma well_linked_attach threads id parentId thread parent :
  well_linked threads →
  threads !! id = Some thread → o_parent thread = None →
  threads !! parentId = Some parent → parentId ≠ "" →
  well_linked (alter (push_child id) parentId (alter (set_parent parentId) id threads)).
Proof.
  intros (H1 & H2 & H3) Hid Hnone Hparent Hne.
  assert (Hnot : ∀ k o, threads !! k = Some o → ¬ In id (o_children o)).
  { intros k o Hk Hc. destruct (H2 k o id Hk Hc) as (co & Hco & Hp). congruence. }
  split; [|split].
  - intros k o Hk.
    apply lookup_alter_Some in Hk as [(<- & o1 & Hk & ->)|[Hne1 Hk]];
      apply lookup_alter_Some in Hk as [(<- & o0 & Hk & ->)|[Hne0 Hk]]; simpl; eauto.
  - intros k o c Hk Hc.
    assert (Hold : ∀ o0, threads !! k = Some o0 → In c (o_children o0) →
              ∃ co, alter (push_child id) parentId (alter (set_parent parentId) id threads) !! c
                    = Some co ∧ o_parent co = Some k).
    { intros o0 Hk0 Hc0. destruct (H2 k o0 c Hk0 Hc0) as (co & Hco & Hp).
      assert (c ≠ id) as Hcid by (intros ->; congruence).
      destruct (decide (c = parentId)) as [->|Hcp].
      - exists (push_child id co). rewrite lookup_alter_eq, lookup_alter_ne, Hco; done.
      - exists co. rewrite !lookup_alter_ne; done. }
    apply lookup_alter_Some in Hk as [(<- & o1 & Hk & ->)|[Hne1 Hk]].
    + simpl in Hc. apply in_app_or in Hc as [Hc|[<-|[]]].
      * apply lookup_alter_Some in Hk as [(<- & o0 & Hk & ->)|[Hne0 Hk]]; eauto.
      * destruct (decide (id = parentId)) as [->|Hip].
        -- eexists. rewrite !lookup_alter_eq, Hid. done.
        -- eexists. rewrite lookup_alter_ne, lookup_alter_eq, Hid; done.
    + apply lookup_alter_Some in Hk as [(<- & o0 & Hk & ->)|[Hne0 Hk]]; eauto.
  - intros k o p Hk Hp.
    apply lookup_alter_Some in Hk as [(<- & o1 & Hk & ->)|[Hne1 Hk]];
      apply lookup_alter_Some in Hk as [(<- & o0 & Hk & ->)|[Hne0 Hk]];
      simpl in Hp; try (injection Hp as <-; done); eauto.
Qed.

Lemma preserved_attach threads id parentId :
  preserved id threads
    (alter (push_child id) parentId (alter (set_parent parentId) id threads)).
Proof.
  intros k o Hk.
  destruct (decide (parentId = k)) as [Hkp|Hkp], (decide (id = k)) as [Hki|Hki].
  - subst. eexists. rewrite !lookup_alter_eq, Hk. done.
  - subst. eexists. rewrite lookup_alter_eq, lookup_alter_ne, Hk; done.
  - subst. eexists. rewrite lookup_alter_ne, lookup_alter_eq, Hk; done.
  - eexists. rewrite !lookup_alter_ne, Hk; done.
Qed.

Lemma hasPathToRoot_true fuel (threads : gmap string ThreadObj) id ancestorId :
  hasPathToRoot fuel threads id ancestorId = Ret true →
  is_Some (threads !! ancestorId).
Proof.
  destruct fuel as [|fuel]; [done|]. rewrite hasPathToRoot_unfold.
  destruct (threads !! ancestorId); [eauto|done].
Qed.

Lemma parents_split (parents : list string) :
  (length parents =? 0)%nat = false →
  parents = removelast parents ++ [List.last parents ""].
Proof.
  intros H. apply app_removelast_last. intros ->. done.
Qed.

Lemma setParent_well_linked fuel :
  ∀ threads id parents threads',
    well_linked (objs threads) → ¬ In "" parents →
    setParent fuel threads id parents = Ret threads' →
    well_linked (objs threads') ∧ preserved id (objs threads) (objs threads').
Proof.
  induction fuel as [|fuel IH]; intros threads id parents threads' Hwl Hne H; [done|].
  rewrite setParent_unfold in H.
  destruct (objs threads !! id) as [thread|] eqn:Hid; [|done].
  destruct (truthy_opt (o_parent thread) || (length parents =? 0)%nat) eqn:Hc.
  { injection H as <-. split; [done|apply preserved_refl]. }
  apply orb_false_iff in Hc as [Hp Hlen].
  pose proof (parents_split parents Hlen) as Hsplit.
  set (parentId := List.last parents "") in *. cbv zeta in H.
  assert (HparentId : parentId ≠ "").
  { intros Heq. apply Hne. rewrite Hsplit, Heq. apply in_or_app. right. by left. }
  assert (Hrest : ¬ In "" (removelast parents)).
  { intros Hin. apply Hne. rewrite Hsplit. apply in_or_app. by left. }
  apply bind_Ret in H as (threads1 & H1 & H).
  apply bind_Ret in H as (ok & Hok & H).
  assert (H1' : well_linked (objs threads1)
                ∧ preserved id (objs threads) (objs threads1)
                ∧ ∃ thread1, objs threads1 !! id = Some thread1
                             ∧ o_parent thread1 = o_parent thread).
  { destruct (objs threads !! parentId) as [parent|] eqn:Hparent.
    - injection H1 as <-. split; [done|]. split; [apply preserved_refl|eauto].
    - apply IH in H1 as [Hwl1 Hpres1]; [|by apply well_linked_placeholder|done].
      cbn [objs assign] in Hpres1.
      assert (Hall : ∀ k o, objs threads !! k = Some o →
                ∃ o', objs threads1 !! k = Some o' ∧ o_id o' = o_id o
                      ∧ o_annotation o' = o_annotation o ∧ o_parent o' = o_parent o).
      { intros k o Hk.
        assert (k ≠ parentId) as Hkp by (intros ->; congruence).
        destruct (Hpres1 k o) as (o' & Hk' & Hi & Ha & Hpar).
        { by rewrite lookup_insert_ne. }
        exists o'. split; [done|]. split; [done|]. split; [done|]. by apply Hpar. }
      split; [exact Hwl1|]. split.
      + intros k o Hk. destruct (Hall k o Hk) as (o' & ? & ? & ? & ?).
        exists o'. done.
      + destruct (Hall id thread Hid) as (o' & ? & ? & ? & ?). eauto. }
  destruct H1' as (Hwl1 & Hpres1 & thread1 & Hid1 & Hpar1).
  destruct ok; [|injection H as <-; done].
  destruct (hasPathToRoot_true _ _ _ _ Hok) as [parent1 Hparent1].
  rewrite (attach_ok _ _ _ _ _ Hid1 Hparent1) in H. injection H as <-.
  cbn [objs update]. split.
  - eapply well_linked_attach; [exact Hwl1|exact Hid1| |exact Hparent1|exact HparentId].
    eapply well_linked_no_parent; [exact Hwl1|exact Hid1|]. by rewrite Hpar1.
  - eapply preserved_trans; [exact Hpres1|apply preserved_attach].
Qed.

Lemma parentsOf_references annotation r :
  In r (parentsOf annotation) → In r (default [] (ann_references annotation)).
Proof.
  unfold parentsOf. destruct (ann_id annotation); [|done].
  intros H. by apply filter_In in H as [? _].
Qed.

Lemma createThreads_fresh annotations :
  ∀ threads,
    (∀ k o, objs threads !! k = Some o →
       o_id o = k ∧ o_children o = [] ∧ o_parent o = None) →
    ∀ k o,
      objs (foldl (fun threads annotation =>
                     assign (annotationId annotation) (newThread annotation) threads)
                  threads annotations) !! k = Some o →
      o_id o = k ∧ o_children o = [] ∧ o_parent o = None.
Proof.
  induction annotations as [|a l IH]; intros threads Hfresh; [exact Hfresh|].
  cbn [foldl]. apply IH. intros k o Hk. cbn [objs assign] in Hk.
  apply lookup_insert_Some in Hk as [[<- <-]|[_ Hk]]; [done|eauto].
Qed.

Lemma createThreads_well_linked annotations :
  well_linked (objs (createThreads annotations)).
Proof.
  assert (Hfresh : ∀ k o, objs (createThreads annotations) !! k = Some o →
            o_id o = k ∧ o_children o = [] ∧ o_parent o = None).
  { apply createThreads_fresh. intros k o Hk. cbn in Hk.
    by rewrite lookup_empty in Hk. }
  split; [|split].
  - intros k o Hk. by apply Hfresh in Hk as (? & _ & _).
  - intros k o c Hk Hc. apply Hfresh in Hk as (_ & Hch & _).
    rewrite Hch in Hc. destruct Hc.
  - intros k o p Hk Hp. apply Hfresh in Hk as (_ & _ & Hnone). congruence.
Qed.

Lemma linkThreads_well_linked fuel annotations :
  references_not_empty annotations →
  ∀ threads threads',
    well_linked (objs threads) →
    linkThreads fuel annotations threads = Ret threads' →
    well_linked (objs threads').
Proof.
  unfold linkThreads.
  induction annotations as [|a l IH]; intros Hrefs threads threads' Hwl H.
  - by injection H as <-.
  - cbn [foldM] in H. apply bind_Ret in H as (threads1 & H1 & H).
    apply setParent_well_linked in H1 as [Hwl1 _]; [|exact Hwl|].
    + eapply IH; [|exact Hwl1|exact H].
      intros a' r Ha'. apply Hrefs. by right.
    + intros Hin. apply parentsOf_references in Hin.
      by apply (Hrefs a "" (or_introl eq_refl)).
Qed.

(** *** The loop over the keys *)

Lemma set_collapsed_twice o : set_collapsed true (set_collapsed true o) = set_collapsed true o.
Proof. done. Qed.

Lemma collectRoots_spec ks :
  ∀ threads acc,
    snd (foldl collectStep (threads, acc) ks)
    = acc ++ List.filter (isRoot (objs threads)) ks
    ∧ created_keys (fst (foldl collectStep (threads, acc) ks)) = created_keys threads
    ∧ ∀ k, objs (fst (foldl collectStep (threads, acc) ks)) !! k
           = collapseRoot (includes ks k) <$> objs threads !! k.
Proof.
  induction ks as [|k0 ks IH]; intros threads acc.
  - cbn [foldl fst snd List.filter]. rewrite app_nil_r.
    split; [done|]. split; [done|]. intros k.
    destruct (objs threads !! k); done.
  - cbn [foldl]. unfold collectStep at 2 4 6.
    destruct (objs threads !! k0) as [o|] eqn:Hk0.
    + destruct (negb (truthy_opt (o_parent o))) eqn:Hroot.
      * destruct (IH (update k0 (set_collapsed true) threads) (acc ++ [k0]))
          as (Hroots & Hkeys & Hobjs).
        rewrite Hroots, Hkeys.
        split; [|split; [done|]].
        -- cbn [List.filter]. unfold isRoot at 2. rewrite Hk0, Hroot.
           rewrite <- app_assoc. cbn [app]. do 2 f_equal.
           apply filter_ext. intros k. unfold isRoot. cbn [objs update].
           destruct (decide (k0 = k)) as [->|Hne].
           ++ by rewrite lookup_alter_eq, Hk0.
           ++ by rewrite lookup_alter_ne.
        -- intros k. rewrite Hobjs. cbn [objs update includes existsb].
           destruct (decide (k0 = k)) as [->|Hne].
           ++ rewrite lookup_alter_eq, Hk0, String.eqb_refl. cbn [fmap option_fmap option_map orb].
              f_equal. unfold collapseRoot. cbn [set_collapsed o_parent andb].
              rewrite Hroot. by destruct (includes ks k).
           ++ rewrite lookup_alter_ne by done.
              assert ((k =? k0) = false) as -> by (apply String.eqb_neq; congruence).
              done.
      * destruct (IH threads acc) as (Hroots & Hkeys & Hobjs).
        rewrite Hroots, Hkeys.
        split; [|split; [done|]].
        -- cbn [List.filter]. unfold isRoot at 2. by rewrite Hk0, Hroot.
        -- intros k. rewrite Hobjs. cbn [includes existsb].
           destruct (decide (k0 = k)) as [->|Hne].
           ++ rewrite Hk0. cbn. f_equal. unfold collapseRoot. rewrite Hroot.
              by rewrite !andb_false_r.
           ++ assert ((k =? k0) = false) as -> by (apply String.eqb_neq; congruence).
              done.
    + destruct (IH threads acc) as (Hroots & Hkeys & Hobjs).
      rewrite Hroots, Hkeys.
      split; [|split; [done|]].
      * cbn [List.filter]. unfold isRoot at 2. by rewrite Hk0.
      * intros k. rewrite Hobjs. cbn [includes existsb].
        destruct (decide (k0 = k)) as [->|Hne].
        -- by rewrite Hk0.
        -- assert ((k =? k0) = false) as -> by (apply String.eqb_neq; congruence).
           done.
Qed.

Lemma collapseRoot_fields b o :
  o_id (collapseRoot b o) = o_id o
  ∧ o_annotation (collapseRoot b o) = o_annotation o
  ∧ o_parent (collapseRoot b o) = o_parent o
  ∧ o_children (collapseRoot b o) = o_children o.
Proof. unfold collapseRoot. by destruct (b && _). Qed.

Lemma collectRoots_well_linked threads :
  well_linked (objs threads) → well_linked (objs (fst (collectRoots threads))).
Proof.
  intros (H1 & H2 & H3). unfold collectRoots.
  destruct (collectRoots_spec (ownKeys threads) threads []) as (_ & _ & Hobjs).
  assert (Hback : ∀ k o', objs (fst (foldl collectStep (threads, []) (ownKeys threads))) !! k
                          = Some o' →
            ∃ o, objs threads !! k = Some o
                 ∧ o' = collapseRoot (includes (ownKeys threads) k) o).
  { intros k o' Hk. rewrite Hobjs in Hk.
    destruct (objs threads !! k) as [o|]; [|done]. injection Hk as <-. eauto. }
  split; [|split].
  - intros k o' Hk. apply Hback in Hk as (o & Hk & ->).
    destruct (collapseRoot_fields (includes (ownKeys threads) k) o) as (-> & _). eauto.
  - intros k o' c Hk Hc. apply Hback in Hk as (o & Hk & ->).
    destruct (collapseRoot_fields (includes (ownKeys threads) k) o) as (_ & _ & _ & Hch).
    rewrite Hch in Hc. destruct (H2 k o c Hk Hc) as (co & Hco & Hp).
    exists (collapseRoot (includes (ownKeys threads) c) co).
    rewrite Hobjs, Hco. split; [done|].
    by destruct (collapseRoot_fields (includes (ownKeys threads) c) co) as (_ & _ & -> & _).
  - intros k o' p Hk Hp. apply Hback in Hk as (o & Hk & ->).
    destruct (collapseRoot_fields (includes (ownKeys threads) k) o) as (_ & _ & Hpar & _).
    rewrite Hpar in Hp. eauto.
Qed.

Lemma collectRoots_roots threads k :
  In k (snd (collectRoots threads)) →
  ∃ o, objs (fst (collectRoots threads)) !! k = Some o
       ∧ truthy_opt (o_parent o) = false.
Proof.
  unfold collectRoots.
  destruct (collectRoots_spec (ownKeys threads) threads []) as (Hroots & _ & Hobjs).
  rewrite Hroots, Hobjs. cbn [app]. intros Hk. apply filter_In in Hk as [_ Hk].
  unfold isRoot in Hk. destruct (objs threads !! k) as [o|]; [|done].
  eexists. split; [done|].
  destruct (collapseRoot_fields (includes (ownKeys threads) k) o) as (_ & _ & -> & _).
  by apply negb_true_iff.
Qed.

(** *** Reading the table as a tree *)

Lemma mapM_Ret {A B} (f : A → outcome B) l ys :
  mapM f l = Ret ys → Forall2 (fun x y => f x = Ret y) l ys.
Proof.
  revert ys. induction l as [|x l IH]; intros ys H; simpl in H.
  - injection H as <-. constructor.
  - apply bind_Ret in H as (y & Hy & H). apply bind_Ret in H as (ys' & Hys & H).
    injection H as <-. constructor; [done|by apply IH].
Qed.

Lemma Forall2_In_r {A B} (R : A → B → Prop) l l' y :
  Forall2 R l l' → In y l' → ∃ x, In x l ∧ R x y.
Proof.
  induction 1 as [|x0 y0 l l' HR _ IH]; intros Hy; [destruct Hy|].
  destruct Hy as [<-|Hy].
  - exists x0. split; [by left|done].
  - destruct (IH Hy) as (x & Hx & HRx). exists x. split; [by right|done].
Qed.

Lemma readThread_unfold fuel (threads : gmap string ThreadObj) k :
  readThread (S fuel) threads k =
  match threads !! k with
  | None => TypeError
  | Some o =>
      children ← mapM (readThread fuel threads) (o_children o);
      Ret {| t_id := o_id o; t_annotation := o_annotation o;
             t_parent := o_parent o; t_visible := o_visible o;
             t_collapsed := o_collapsed o; t_children := children;
             t_totalChildren := None; t_replyCount := o_replyCount o;
             t_depth := o_depth o |}
  end.
Proof. reflexivity. Qed.

Lemma readThread_linked fuel :
  ∀ (threads : gmap string ThreadObj) k t,
    well_linked threads → readThread fuel threads k = Ret t →
    (∃ o, threads !! k = Some o ∧ t_id t = k ∧ t_parent t = o_parent o)
    ∧ ∀ node child, In node (subthreads t) → In child (t_children node) →
        t_parent child = Some (t_id node).
Proof.
  induction fuel as [|fuel IH]; intros threads k t Hwl H; [done|].
  rewrite readThread_unfold in H.
  destruct (threads !! k) as [o|] eqn:Hk; [|done].
  apply bind_Ret in H as (children & Hch & H). injection H as <-.
  apply mapM_Ret in Hch.
  pose proof Hwl as (H1 & H2 & _).
  split.
  - exists o. split; [done|]. split; [by apply H1|done].
  - intros node child Hnode Hchild.
    rewrite subthreads_unfold in Hnode. destruct Hnode as [<-|Hnode].
    + cbn [t_children t_id] in *.
      destruct (Forall2_In_r _ _ _ _ Hch Hchild) as (c & Hc & Hread).
      destruct (IH _ _ _ Hwl Hread) as [(co & Hco & _ & Hpar) _].
      destruct (H2 k o c Hk Hc) as (co' & Hco' & Hpar').
      rewrite Hpar. rewrite Hco in Hco'. injection Hco' as ->.
      rewrite Hpar'. f_equal. symmetry. by apply H1.
    + apply in_descendants in Hnode as (c' & Hc' & Hnode). cbn [t_children] in Hc'.
      destruct (Forall2_In_r _ _ _ _ Hch Hc') as (c & Hc & Hread).
      destruct (IH _ _ _ Hwl Hread) as [_ Hbelow]. by apply Hbelow.
Qed.

Lemma threadAnnotations_linked fuel annotations thread :
  references_not_empty annotations →
  threadAnnotations fuel annotations = Ret thread →
  ∀ top, In top (t_children thread) →
    t_parent top = None
    ∧ ∀ node child, In node (subthreads top) → In child (t_children node) →
        t_parent child = Some (t_id node).
Proof.
  intros Hrefs H top Htop. unfold threadAnnotations in H.
  apply bind_Ret in H as (threads & Hlink & H).
  apply linkThreads_well_linked in Hlink;
    [|exact Hrefs|apply createThreads_well_linked].
  pose proof (collectRoots_well_linked threads Hlink) as Hwl.
  pose proof (collectRoots_roots threads) as Hroots.
  destruct (collectRoots threads) as [threads' rootThreads].
  cbn [fst snd] in Hwl, Hroots.
  apply bind_Ret in H as (children & Hch & H). injection H as <-.
  cbn [t_children] in Htop. apply mapM_Ret in Hch.
  destruct (Forall2_In_r _ _ _ _ Hch Htop) as (k & Hk & Hread).
  destruct (readThread_linked _ _ _ _ Hwl Hread) as [(o & Ho & _ & Hpar) Hbelow].
  split; [|exact Hbelow].
  destruct (Hroots k Hk) as (o' & Ho' & Hfalsy).
  rewrite Ho in Ho'. injection Ho' as ->.
  rewrite Hpar. eapply well_linked_no_parent; eauto.
Qed.

Lemma referencesNotEmpty_true annotations :
  referencesNotEmpty annotations = true → references_not_empty annotations.
Proof.
  unfold referencesNotEmpty. intros H a r Ha Hr.
  rewrite forallb_forall in H. specialize (H a Ha).
  rewrite forallb_forall in H. by apply truthy_true, H.
Qed.

(** C10, as the code has it: when no reference is the empty string, in
    every tree that [buildThread] returns the children of the root have no
    parent, and every other child has the id of the node that lists it as
    its parent. *)
Theorem parent_links_agree fuel annotations opts root :
  referencesNotEmpty annotations = true →
  buildThread fuel annotations opts = Ret root →
  (∀ top, In top (t_children root) → t_parent top = None)
  ∧ (∀ top node child,
       In top (t_children root) → In node (subthreads top) →
       In child (t_children node) → t_parent child = Some (t_id node)).
Proof.
  intros Hrefs H. apply referencesNotEmpty_true in Hrefs.
  apply buildThread_Ret in H as (thread & Hthread & ->).
  pose proof (threadAnnotations_linked _ _ _ Hrefs Hthread) as Hlinked.
  pose proof (project_refines opts thread) as Href.
  apply refines_unfold in Href as [_ Hchildren].
  rewrite List.Forall_forall in Hchildren.
  split.
  - intros top Htop. destruct (Hchildren top Htop) as (topx & Htopx & Hr).
    apply refines_root in Hr as (_ & _ & ->). by apply Hlinked.
  - intros top node child Htop Hnode Hchild.
    destruct (Hchildren top Htop) as (topx & Htopx & Hr).
    destruct (refines_nodes same_node top topx Hr node Hnode)
      as (y & Hy & (Hid & _ & _) & Hcs).
    destruct (Hcs child Hchild) as (cy & Hcy & (_ & _ & Hpar)).
    rewrite Hpar, Hid. destruct (Hlinked topx Htopx) as [_ Hbelow].
    by apply Hbelow with (node := y).
Qed.

Lemma parent_links_agree_witness :
  ∃ root top reply1 reply2,
    buildThread 4 chain3 defaultOpts = Ret root
    ∧ t_children root = [top] ∧ t_children top = [reply1]
    ∧ t_children reply1 = [reply2]
    ∧ t_parent top = None
    ∧ t_parent reply1 = Some (t_id top)
    ∧ t_parent reply2 = Some (t_id reply1).
Proof.
  do 4 eexists. split; [vm_compute; reflexivity|].
  do 3 (split; [reflexivity|]).
  destruct (parent_links_agree 4 chain3 defaultOpts _ eq_refl eq_refl)
    as [Htop Hbelow].
  split; [apply Htop; by left|]. split.
  - eapply Hbelow; [by left|apply subthreads_self|by left].
  - eapply Hbelow; [by left| |by left].
    eapply subthreads_child; [by left|apply subthreads_self].
Defined.

(** The claim as stated fails for a reference that is the empty string: the
    reply is a child of the placeholder and of the root, with a [parent]
    field. *)
Lemma parent_links_counterexample :
  ∃ root top,
    buildThread 3 emptyReference defaultOpts = Ret root
    ∧ In top (t_children root) ∧ t_id top = "A" ∧ t_parent top = Some "".
Proof.
  do 2 eexists. split; [vm_compute; reflexivity|].
  split; [right; left; reflexivity|]. split; reflexivity.
Qed.


(** ** A deeper call stack does not change a result *)

Lemma hasPathToRoot_more fuel :
  ∀ fuel' (threads : gmap string ThreadObj) id ancestorId b,
    (fuel ≤ fuel')%nat →
    hasPathToRoot fuel threads id ancestorId = Ret b →
    hasPathToRoot fuel' threads id ancestorId = Ret b.
Proof.
  induction fuel as [|fuel IH]; intros fuel' threads id ancestorId b Hle H; [done|].
  destruct fuel' as [|fuel']; [lia|].
  rewrite hasPathToRoot_unfold in H |- *.
  destruct (threads !! ancestorId) as [ancestor|]; [|done].
  destruct (o_parent ancestor) as [p|]; [|done].
  destruct (p =? id); [done|]. destruct (negb (truthy p)); [done|].
  apply IH; [lia|done].
Qed.

Lemma setParent_more fuel :
  ∀ fuel' threads id parents threads',
    (fuel ≤ fuel')%nat →
    setParent fuel threads id parents = Ret threads' →
    setParent fuel' threads id parents = Ret threads'.
Proof.
  induction fuel as [|fuel IH]; intros fuel' threads id parents threads' Hle H; [done|].
  destruct fuel' as [|fuel']; [lia|].
  rewrite setParent_unfold in H |- *.
  destruct (objs threads !! id) as [thread|]; [|done].
  destruct (truthy_opt (o_parent thread) || (length parents =? 0)%nat); [done|].
  cbv zeta in H |- *.
  apply bind_Ret in H as (threads1 & H1 & H).
  apply bind_Ret in H as (ok & Hok & H).
  assert (H1' : match objs threads !! List.last parents "" with
                | Some _ => Ret threads
                | None => setParent fuel' (assign (List.last parents "")
                                             (placeholder (List.last parents "")) threads)
                            (List.last parents "") (removelast parents)
                end = Ret threads1).
  { destruct (objs threads !! List.last parents ""); [done|]. apply IH; [lia|done]. }
  rewrite H1'. cbn [mbind outcome_bind].
  rewrite (hasPathToRoot_more fuel fuel' _ _ _ _ ltac:(lia) Hok).
  exact H.
Qed.

Lemma foldM_more {A S} (f g : S → A → outcome S) l :
  (∀ s x s', f s x = Ret s' → g s x = Ret s') →
  ∀ s s', foldM f l s = Ret s' → foldM g l s = Ret s'.
Proof.
  intros Hfg. induction l as [|x l IH]; intros s s' H; [done|].
  cbn [foldM] in H |- *. apply bind_Ret in H as (s1 & H1 & H).
  rewrite (Hfg _ _ _ H1). cbn [mbind outcome_bind]. by apply IH.
Qed.

Lemma mapM_more {A B} (f g : A → outcome B) l :
  (∀ x y, f x = Ret y → g x = Ret y) →
  ∀ ys, mapM f l = Ret ys → mapM g l = Ret ys.
Proof.
  intros Hfg. induction l as [|x l IH]; intros ys H; [done|].
  cbn [mapM] in H |- *. apply bind_Ret in H as (y & Hy & H).
  apply bind_Ret in H as (ys' & Hys & H).
  rewrite (Hfg _ _ Hy). cbn [mbind outcome_bind].
  rewrite (IH _ Hys). exact H.
Qed.

Lemma readThread_more fuel :
  ∀ fuel' (threads : gmap string ThreadObj) k t,
    (fuel ≤ fuel')%nat →
    readThread fuel threads k = Ret t → readThread fuel' threads k = Ret t.
Proof.
  induction fuel as [|fuel IH]; intros fuel' threads k t Hle H; [done|].
  destruct fuel' as [|fuel']; [lia|].
  rewrite readThread_unfold in H |- *.
  destruct (threads !! k) as [o|]; [|done].
  apply bind_Ret in H as (children & Hch & H).
  rewrite (mapM_more _ (readThread fuel' threads) _ (fun x y => IH fuel' threads x y ltac:(lia)) _ Hch).
  exact H.
Qed.

(** The result of [buildThread] does not depend on the size of the call
    stack, once it is large enough for the call to return. *)
Lemma buildThread_more fuel fuel' annotations opts root :
  (fuel ≤ fuel')%nat →
  buildThread fuel annotations opts = Ret root →
  buildThread fuel' annotations opts = Ret root.
Proof.
  intros Hle H. unfold buildThread, threadAnnotations in H |- *.
  apply bind_Ret in H as (thread & H & Hroot).
  apply bind_Ret in H as (threads & Hlink & H).
  unfold linkThreads in Hlink |- *.
  rewrite (foldM_more _ (fun threads annotation =>
             setParent fuel' threads (annotationId annotation) (parentsOf annotation))
             _ (fun s x s' => setParent_more fuel fuel' s _ _ s' Hle) _ _ Hlink).
  cbn [mbind outcome_bind].
  destruct (collectRoots threads) as [threads' rootThreads].
  apply bind_Ret in H as (children & Hch & H).
  rewrite (mapM_more _ (readThread fuel' (objs threads')) _
             (fun x y => readThread_more fuel fuel' _ x y Hle) _ Hch).
  cbn [mbind outcome_bind]. injection H as <-. exact Hroot.
Qed.

(** ** The order of [for ... in] is a permutation of the keys *)

Lemma insert_index_perm k l : Permutation (insert_index k l) (k :: l).
Proof.
  induction l as [|k' l IH]; simpl; [done|].
  destruct (fst k <=? fst k')%N; [done|].
  rewrite IH. apply perm_swap.
Qed.

Lemma index_keys_perm keys :
  Permutation (map snd (index_keys keys)) (List.filter is_index keys).
Proof.
  unfold index_keys, is_index.
  induction keys as [|k keys IH]; [done|].
  cbn [omap list_omap List.filter]. destruct (array_index k) as [n|]; [|exact IH].
  cbn [foldr]. rewrite insert_index_perm. cbn [map snd]. by constructor.
Qed.

Lemma filter_split {A} (f : A → bool) l :
  Permutation (List.filter f l ++ List.filter (fun x => negb (f x)) l) l.
Proof.
  induction l as [|x l IH]; [done|].
  cbn [List.filter]. destruct (f x); cbn [negb app].
  - by constructor.
  - rewrite <- Permutation_middle. by constructor.
Qed.

Lemma ownKeys_perm threads : Permutation (ownKeys threads) (created_keys threads).
Proof.
  unfold ownKeys. rewrite index_keys_perm. apply filter_split.
Qed.

Lemma filter_perm {A} (f : A → bool) l l' :
  Permutation l l' → Permutation (List.filter f l) (List.filter f l').
Proof.
  induction 1 as [|x l l' _ IH|x y l|l1 l2 l3 _ IH1 _ IH2]; cbn [List.filter].
  - done.
  - destruct (f x); [by constructor|done].
  - destruct (f x), (f y); try done. apply perm_swap.
  - by rewrite IH1.
Qed.

Lemma includes_ownKeys threads k :
  In k (created_keys threads) → includes (ownKeys threads) k = true.
Proof.
  intros H. apply includes_true.
  eapply Permutation_in; [symmetry; apply ownKeys_perm|exact H].
Qed.

(** The top-level threads, when exactly one key passes the test. *)
Lemma collectRoots_single threads k :
  List.filter (isRoot (objs threads)) (created_keys threads) = [k] →
  snd (collectRoots threads) = [k]
  ∧ ∀ k', In k' (created_keys threads) →
      objs (fst (collectRoots threads)) !! k' = collapseRoot true <$> objs threads !! k'.
Proof.
  intros Hk. unfold collectRoots.
  destruct (collectRoots_spec (ownKeys threads) threads []) as (Hroots & _ & Hobjs).
  split.
  - rewrite Hroots. cbn [app]. apply Permutation_length_1_inv.
    rewrite <- Hk. apply filter_perm. symmetry. apply ownKeys_perm.
  - intros k' Hk'. by rewrite Hobjs, includes_ownKeys.
Qed.

Lemma annotationId_saved annotation i :
  ann_id annotation = Some i → i ≠ "" → annotationId annotation = i.
Proof.
  unfold annotationId. intros -> Hi. apply truthy_true in Hi. by rewrite Hi.
Qed.

(** ** Two annotations that refer to each other (claim C3) *)

Section Mutual.
Variables (a b ta tb ca cb : string).
Hypothesis a_not_empty : a ≠ "".
Hypothesis b_not_empty : b ≠ "".
Hypothesis a_not_b : a ≠ b.

Let A := {| ann_id := Some a; ann_tag := ta; ann_references := Some [b]; ann_created := ca |}.
Let B := {| ann_id := Some b; ann_tag := tb; ann_references := Some [a]; ann_created := cb |}.

Lemma mutual_link fuel :
  linkThreads (S (S fuel)) [A; B] (createThreads [A; B])
  = Ret (mkThreads (<[b := push_child a (newThread B)]>
                     (<[a := set_parent b (newThread A)]> ∅)) [a; b]).
Proof.
  assert (Ha : annotationId A = a) by by apply annotationId_saved.
  assert (Hb : annotationId B = b) by by apply annotationId_saved.
  assert (Hba : (b =? a) = false) by (apply String.eqb_neq; congruence).
  assert (Hab : (a =? b) = false) by by apply String.eqb_neq.
  assert (HpA : parentsOf A = [] ++ [b]).
  { unfold parentsOf. cbn. by rewrite Hba. }
  assert (HpB : parentsOf B = [] ++ [a]).
  { unfold parentsOf. cbn. by rewrite Hab. }
  set (T0 := mkThreads (<[b := newThread B]> (<[a := newThread A]> ∅)) [a; b]).
  assert (Hcreate : createThreads [A; B] = T0).
  { unfold createThreads, addThreads. cbn [foldl]. rewrite Ha, Hb. unfold assign at 2.
    cbn [objs created_keys no_threads]. rewrite lookup_empty. unfold assign.
    cbn [objs created_keys]. rewrite lookup_insert_ne, lookup_empty by done. done. }
  rewrite Hcreate. unfold linkThreads. cbn [foldM]. rewrite Ha, Hb, HpA, HpB.
  assert (H0a : objs T0 !! a = Some (newThread A)).
  { cbn. by rewrite lookup_insert_ne, lookup_insert_eq by congruence. }
  assert (H0b : objs T0 !! b = Some (newThread B)).
  { cbn. by rewrite lookup_insert_eq. }
  rewrite (setParent_existing _ _ _ _ _ _ _ H0a eq_refl H0b).
  rewrite (hasPathToRoot_top _ _ _ _ _ H0b eq_refl). cbn [mbind outcome_bind].
  rewrite (attach_ok _ _ _ _ _ H0a H0b). cbn [mbind outcome_bind].
  set (T1 := update b (push_child a) (update a (set_parent b) T0)).
  assert (H1a : objs T1 !! a = Some (set_parent b (newThread A))).
  { cbn. rewrite lookup_alter_ne, lookup_alter_eq by congruence.
    by rewrite lookup_insert_ne, lookup_insert_eq by congruence. }
  assert (H1b : objs T1 !! b = Some (push_child a (newThread B))).
  { cbn. rewrite lookup_alter_eq, lookup_alter_ne by done.
    by rewrite lookup_insert_eq. }
  rewrite (setParent_existing _ _ _ _ _ _ _ H1b eq_refl H1a).
  rewrite (hasPathToRoot_circular _ _ _ _ _ H1a eq_refl). cbn [mbind outcome_bind].
  f_equal. subst T1 T0. unfold update. cbn [objs created_keys]. f_equal.
  rewrite (alter_insert_ne _ a b) by done.
  by rewrite !alter_insert_eq.
Qed.

Lemma mutual_threadAnnotations fuel :
  threadAnnotations (S (S fuel)) [A; B]
  = Ret (mkThread "root" None None true false
           [mkThread b (Some B) None true true
              [mkThread a (Some A) (Some b) true false [] None 0 0] None 0 0]
           None 0 0).
Proof.
  assert (Ha : annotationId A = a) by by apply annotationId_saved.
  assert (Hb : annotationId B = b) by by apply annotationId_saved.
  unfold threadAnnotations. rewrite mutual_link. cbn [mbind outcome_bind].
  set (T := mkThreads _ _).
  assert (Ta : objs T !! a = Some (set_parent b (newThread A))).
  { cbn. by rewrite lookup_insert_ne, lookup_insert_eq by congruence. }
  assert (Tb : objs T !! b = Some (push_child a (newThread B))).
  { cbn. by rewrite lookup_insert_eq. }
  assert (Hroots : List.filter (isRoot (objs T)) (created_keys T) = [b]).
  { cbn [created_keys T List.filter]. unfold isRoot. rewrite Ta, Tb. cbn.
    apply truthy_true in b_not_empty. by rewrite b_not_empty. }
  destruct (collectRoots_single T b Hroots) as [Hsnd Hobjs].
  destruct (collectRoots T) as [T' roots]. cbn [fst snd] in Hsnd, Hobjs. subst roots.
  cbn [mapM]. rewrite readThread_unfold, Hobjs, Tb by (cbn; tauto).
  cbn [fmap option_fmap option_map]. cbn [collapseRoot push_child newThread o_parent
    truthy_opt negb andb set_collapsed o_children o_id app mapM].
  rewrite readThread_unfold, Hobjs, Ta by (cbn; tauto).
  cbn [fmap option_fmap option_map]. unfold collapseRoot.
  apply truthy_true in b_not_empty.
  cbn [set_parent o_parent truthy_opt]. rewrite b_not_empty.
  apply truthy_true in a_not_empty.
  cbn. by rewrite a_not_empty, b_not_empty.
Qed.

Lemma mutual_buildThread fuel :
  buildThread (S (S fuel)) [A; B] defaultOpts
  = Ret (mkThread "root" None None false false
           [mkThread b (Some B) None true true
              [mkThread a (Some A) (Some b) true false [] None 0 1] None 1 0]
           (Some 1) 2 (-1)).
Proof.
  unfold buildThread. rewrite mutual_threadAnnotations. cbn [mbind outcome_bind].
  reflexivity.
Qed.
End Mutual.

(** C3, as the code has it: of two annotations that refer to each other,
    whose ids are not names that the table inherits, the first becomes the
    only child of the second, which is the only top-level thread: the first
    is a strict descendant of the second and the second is no descendant of
    the first; the call returns as soon as the call stack has room for two
    calls. *)
Theorem mutual_references_first_under_second a b ta tb ca cb fuel :
  a ≠ "" → b ≠ "" → a ≠ b → inherited a = false → inherited b = false →
  let A := {| ann_id := Some a; ann_tag := ta;
              ann_references := Some [b]; ann_created := ca |} in
  let B := {| ann_id := Some b; ann_tag := tb;
              ann_references := Some [a]; ann_created := cb |} in
  let root := mkThread "root" None None false false
                [mkThread b (Some B) None true true
                   [mkThread a (Some A) (Some b) true false [] None 0 1] None 1 0]
                (Some 1) 2 (-1) in
  buildThread (S (S fuel)) [A; B] defaultOpts = Ret root
  ∧ strictDescendant root a b
  ∧ ¬ strictDescendant root b a.
Proof.
  intros Ha Hb Hab _ _ A B root. split; [by apply mutual_buildThread|].
  assert (HA : annotationId A = a) by by apply annotationId_saved.
  assert (HB : annotationId B = b) by by apply annotationId_saved.
  split.
  - eexists _, _. split; [right; left; reflexivity|].
    split; [by exists B|]. split; [left; reflexivity|by exists A].
  - intros (ty & tx & Hty & (ay & Hay & Hy) & Htx & (ax & Hax & Hx)).
    destruct Hty as [<-|[<-|[<-|[]]]]; cbn in Htx, Hay.
    + done.
    + injection Hay as <-. congruence.
    + destruct Htx.
Qed.

Lemma mutual_references_first_under_second_witness :
  ∃ root, buildThread 2 mutual12 defaultOpts = Ret root
          ∧ strictDescendant root "1" "2" ∧ ¬ strictDescendant root "2" "1".
Proof.
  eexists.
  exact (mutual_references_first_under_second "1" "2" "t1" "t2"
           "2020-01-01" "2020-01-02" 0
           ltac:(discriminate) ltac:(discriminate) ltac:(discriminate)
           eq_refl eq_refl).
Defined.

(** The claim as stated fails: the thread of the first annotation is a
    strict descendant of the thread of the second. *)
Lemma mutual_references_counterexample :
  ∃ root, buildThread 2 mutual12 defaultOpts = Ret root
          ∧ ¬ (¬ strictDescendant root "1" "2" ∧ ¬ strictDescendant root "2" "1").
Proof.
  eexists. split; [vm_compute; reflexivity|].
  intros [H _]. apply H.
  eexists _, _. split; [right; left; reflexivity|].
  split; [by eexists|]. split; [left; reflexivity|by eexists].
Qed.


(** ** The first loop, and annotations without references *)

Lemma keys_ok_empty : keys_ok no_threads.
Proof.
  split; [constructor|]. intros k. cbn. rewrite lookup_empty.
  split; [done|]. by intros [? ?].
Qed.

Lemma keys_ok_assign k o threads : keys_ok threads → keys_ok (assign k o threads).
Proof.
  intros [Hnodup Hkeys]. unfold assign, keys_ok.
  destruct (objs threads !! k) as [o'|] eqn:Hk; cbn [objs created_keys].
  - split; [done|]. intros k'. rewrite Hkeys, lookup_insert_is_Some. split.
    + intros H. destruct (decide (k = k')); [by left|by right].
    + intros [<-|[_ H]]; [by rewrite Hk|done].
  - split.
    + apply NoDup_app. split; [done|]. split; [|apply NoDup_singleton].
      intros k' Hin Hk'. apply list_elem_of_In in Hin, Hk'.
      destruct Hk' as [<-|[]]. apply Hkeys in Hin.
      rewrite Hk in Hin. by destruct Hin.
    + intros k'. rewrite in_app_iff, Hkeys, lookup_insert_is_Some. cbn. split.
      * intros [H|[<-|[]]]; [|by left].
        destruct (decide (k = k')); [by left|by right].
      * intros [<-|[_ H]]; [right; by left|by left].
Qed.

Lemma keys_ok_update k f threads : keys_ok threads → keys_ok (update k f threads).
Proof.
  intros [Hnodup Hkeys]. split; [done|]. intros k'. cbn [objs created_keys update].
  rewrite Hkeys. unfold is_Some. setoid_rewrite lookup_alter_Some.
  split.
  - intros [o Ho]. destruct (decide (k = k')) as [<-|Hne]; eauto 10.
  - intros [o [(<- & o' & Ho & _)|[_ Ho]]]; eauto.
Qed.


Lemma create_other annotations : ∀ threads k,
  (∀ a, In a annotations → annotationId a ≠ k) →
  objs (addThreads threads annotations) !! k = objs threads !! k.
Proof.
  induction annotations as [|a l IH]; intros threads k Hk; [done|].
  cbn [addThreads foldl]; fold addThreads. rewrite IH.
  - cbn [objs assign]. apply lookup_insert_ne, Hk. by left.
  - intros a' Ha'. apply Hk. by right.
Qed.

Lemma create_Some annotations : ∀ threads k o,
  objs (addThreads threads annotations) !! k = Some o →
  objs threads !! k = Some o
  ∨ ∃ a, In a annotations ∧ annotationId a = k ∧ o = newThread a.
Proof.
  induction annotations as [|a l IH]; intros threads k o Hk; [by left|].
  cbn [addThreads foldl]; fold addThreads in Hk. apply IH in Hk as [Hk|(a' & Ha' & Hid & Ho)].
  - cbn [objs assign] in Hk.
    apply lookup_insert_Some in Hk as [[<- <-]|[_ Hk]]; [|by left].
    right. exists a. split; [by left|done].
  - right. exists a'. split; [by right|done].
Qed.

Lemma create_keeps annotations : ∀ threads k,
  is_Some (objs threads !! k) → is_Some (objs (addThreads threads annotations) !! k).
Proof.
  induction annotations as [|a l IH]; intros threads k Hk; [done|].
  cbn [addThreads foldl]; fold addThreads. apply IH. cbn [objs assign].
  apply lookup_insert_is_Some. destruct (decide (annotationId a = k)); [by left|by right].
Qed.

Lemma create_In annotations : ∀ threads a,
  In a annotations → is_Some (objs (addThreads threads annotations) !! annotationId a).
Proof.
  induction annotations as [|a' l IH]; intros threads a Ha; [destruct Ha|].
  destruct Ha as [->|Ha]; [|by apply IH].
  cbn [addThreads foldl]; fold addThreads. apply create_keeps. cbn [objs assign].
  rewrite lookup_insert_eq. eauto.
Qed.

Lemma create_keys_ok annotations : ∀ threads,
  keys_ok threads → keys_ok (addThreads threads annotations).
Proof.
  induction annotations as [|a l IH]; intros threads Hok; [done|].
  cbn [addThreads foldl]; fold addThreads. apply IH. by apply keys_ok_assign.
Qed.

Lemma foldM_app {A S} (f : S → A → outcome S) l1 l2 s :
  foldM f (l1 ++ l2) s = (s' ← foldM f l1 s; foldM f l2 s').
Proof.
  revert s. induction l1 as [|x l1 IH]; intros s; [done|].
  cbn [app foldM]. destruct (f s x); [|done..]. cbn [mbind outcome_bind]. apply IH.
Qed.

(** Annotations without references are left where they are. *)
Lemma linkThreads_no_references fuel annotations threads :
  (∀ a, In a annotations →
        parentsOf a = [] ∧ is_Some (objs threads !! annotationId a)) →
  linkThreads (S fuel) annotations threads = Ret threads.
Proof.
  unfold linkThreads. induction annotations as [|a l IH]; intros H; [done|].
  cbn [foldM]. destruct (H a (or_introl eq_refl)) as [-> [o Ho]].
  rewrite (setParent_nil _ _ _ _ Ho). cbn [mbind outcome_bind].
  apply IH. intros a' Ha'. apply H. by right.
Qed.

Lemma mapM_map {A B} (f : A → outcome B) (g : A → B) l :
  (∀ x, In x l → f x = Ret (g x)) → mapM f l = Ret (map g l).
Proof.
  induction l as [|x l IH]; intros H; [done|].
  cbn [mapM map]. rewrite (H x (or_introl eq_refl)). cbn [mbind outcome_bind].
  rewrite IH; [done|]. intros y Hy. apply H. by right.
Qed.

(** * Further properties of the passes *)

(** ** Visible descendants *)

Lemma hasVisibleChildren_iff t :
  hasVisibleChildren t = true ↔ ∃ d, In d (descendants t) ∧ t_visible d = true.
Proof.
  induction t as [i a p v c children tc rc d0 IH] using Thread_ind.
  rewrite hasVisibleChildren_unfold, existsb_exists. cbn [t_children].
  rewrite List.Forall_forall in IH. split.
  - intros (child & Hchild & Hv). apply orb_true_iff in Hv as [Hv|Hv].
    + exists child. split; [|done]. apply in_descendants.
      exists child. split; [done|apply subthreads_self].
    + apply (IH child Hchild) in Hv as (d & Hd & Hv).
      exists d. split; [|done]. apply in_descendants.
      exists child. split; [done|]. rewrite subthreads_unfold. by right.
  - intros (d & Hd & Hv). apply in_descendants in Hd as (child & Hchild & Hd).
    exists child. split; [done|]. apply orb_true_iff.
    rewrite subthreads_unfold in Hd. destruct Hd as [<-|Hd]; [by left|right].
    apply (IH child Hchild). eauto.
Qed.

(** [hasVisibleChildren] looks at every depth: it answers whether some strict
    descendant is visible. *)
Theorem hasVisibleChildren_descendants t :
  hasVisibleChildren t = true ↔ ∃ d, In d (descendants t) ∧ t_visible d = true.
Proof. apply hasVisibleChildren_iff. Qed.

Lemma existsb_perm {A} (f : A → bool) l l' :
  Permutation l l' → existsb f l = existsb f l'.
Proof.
  induction 1 as [|x l l' _ IH|x y l|l1 l2 l3 _ IH1 _ IH2]; cbn [existsb].
  - done.
  - by rewrite IH.
  - destruct (f x), (f y); done.
  - by rewrite IH1.
Qed.

Lemma existsb_map_ext {A B} (f : B → bool) (g : A → bool) (h : A → B) l :
  (∀ x, In x l → f (h x) = g x) → existsb f (map h l) = existsb g l.
Proof.
  induction l as [|x l IH]; intros H; [done|]. cbn [map existsb].
  rewrite (H x (or_introl eq_refl)), IH; [done|]. intros y Hy. apply H. by right.
Qed.

Lemma mapThread_visible t f : t_visible (mapThread t f) = t_visible (f t).
Proof. by rewrite mapThread_unfold. Qed.

Lemma sortThread_visible t cmp rcmp : t_visible (sortThread t cmp rcmp) = t_visible t.
Proof. by rewrite sortThread_unfold. Qed.

Lemma countRepliesAndDepth_visible t d :
  t_visible (countRepliesAndDepth t d) = t_visible t.
Proof. by destruct t. Qed.

Lemma mapThread_hasVisibleChildren f :
  (∀ x, t_visible (f x) = t_visible x) →
  ∀ t, hasVisibleChildren (mapThread t f) = hasVisibleChildren t.
Proof.
  intros Hf t. induction t as [i a p v c children tc rc d IH] using Thread_ind.
  rewrite !hasVisibleChildren_unfold, mapThread_children. cbn [t_children].
  apply existsb_map_ext. rewrite List.Forall_forall in IH. intros x Hx.
  by rewrite mapThread_visible, Hf, IH.
Qed.

Lemma sortThread_hasVisibleChildren rcmp t :
  ∀ cmp, hasVisibleChildren (sortThread t cmp rcmp) = hasVisibleChildren t.
Proof.
  induction t as [i a p v c children tc rc d IH] using Thread_ind. intros cmp.
  rewrite sortThread_unfold, !hasVisibleChildren_unfold. cbn [t_children with_children].
  unfold sort. rewrite (existsb_perm _ _ _ (array_sort_perm _ _)).
  apply existsb_map_ext. rewrite List.Forall_forall in IH. intros x Hx.
  by rewrite sortThread_visible, IH.
Qed.

Lemma countRepliesAndDepth_hasVisibleChildren t :
  ∀ d, hasVisibleChildren (countRepliesAndDepth t d) = hasVisibleChildren t.
Proof.
  induction t as [i a p v c children tc rc d0 IH] using Thread_ind. intros d.
  rewrite !hasVisibleChildren_unfold, countRepliesAndDepth_children. cbn [t_children].
  apply existsb_map_ext. rewrite List.Forall_forall in IH. intros x Hx.
  by rewrite countRepliesAndDepth_visible, IH.
Qed.

Lemma setCollapsed_visible opts x : t_visible (setCollapsed opts x) = t_visible x.
Proof. unfold setCollapsed. by destruct (expanded opts !! t_id x). Qed.

(** ** The nodes of a copy *)

Lemma mapThread_subthreads f t :
  subthreads (mapThread t f) = map (fun x => mapThread x f) (subthreads t).
Proof.
  induction t as [i a p v c children tc rc d IH] using Thread_ind.
  rewrite (subthreads_unfold (mapThread _ _)), (subthreads_unfold (mkThread _ _ _ _ _ _ _ _ _)).
  cbn [map]. f_equal. unfold descendants. rewrite mapThread_children. cbn [t_children].
  rewrite List.Forall_forall in IH.
  induction children as [|x l IHl]; [done|].
  cbn [map flat_map]. rewrite map_app, IH by (by left). f_equal.
  apply IHl. intros y Hy. apply IH. by right.
Qed.

Lemma sortThread_nodes rcmp t :
  ∀ cmp node, In node (subthreads (sortThread t cmp rcmp)) →
    ∃ x cmp', In x (subthreads t) ∧ node = sortThread x cmp' rcmp.
Proof.
  induction t as [i a p v c children tc rc d IH] using Thread_ind.
  intros cmp node Hnode. rewrite subthreads_unfold in Hnode.
  destruct Hnode as [<-|Hnode].
  - eexists _, cmp. split; [apply subthreads_self|done].
  - apply in_descendants in Hnode as (c0 & Hc0 & Hnode).
    rewrite sortThread_unfold in Hc0. cbn [t_children with_children] in Hc0.
    apply sort_In, in_map_iff in Hc0 as (c1 & <- & Hc1).
    rewrite List.Forall_forall in IH.
    destruct (IH c1 Hc1 _ _ Hnode) as (x & cmp' & Hx & ->).
    exists x, cmp'. split; [|done]. eapply subthreads_child; eauto.
Qed.

Lemma countRepliesAndDepth_nodes t :
  ∀ d node, In node (subthreads (countRepliesAndDepth t d)) →
    ∃ x d', In x (subthreads t) ∧ node = countRepliesAndDepth x d'.
Proof.
  induction t as [i a p v c children tc rc d0 IH] using Thread_ind.
  intros d node Hnode. rewrite subthreads_unfold in Hnode.
  destruct Hnode as [<-|Hnode].
  - eexists _, d. split; [apply subthreads_self|done].
  - apply in_descendants in Hnode as (c0 & Hc0 & Hnode).
    rewrite countRepliesAndDepth_children in Hc0. cbn [t_children] in Hc0.
    apply in_map_iff in Hc0 as (c1 & <- & Hc1).
    rewrite List.Forall_forall in IH.
    destruct (IH c1 Hc1 _ _ Hnode) as (x & d' & Hx & ->).
    exists x, d'. split; [|done]. eapply subthreads_child; eauto.
Qed.

Lemma descendants_filter p t x :
  In x (descendants (with_children t (List.filter p (t_children t)))) →
  In x (descendants t).
Proof.
  intros H. apply in_descendants in H as (c & Hc & Hx). cbn [t_children with_children] in Hc.
  apply filter_In in Hc as [Hc _]. apply in_descendants. eauto.
Qed.

Lemma selectTopLevel_descendants opts t x :
  In x (descendants (selectTopLevel opts t)) → In x (descendants t).
Proof.
  unfold selectTopLevel. intros H.
  destruct (hasSelection opts), (threadFilterFn opts);
    repeat (apply descendants_filter in H); exact H.
Qed.

(** Every node below the root of the tree that [buildThread] returns is a
    node below the root that [threadAnnotations] built, taken through the
    four copying passes. *)
Lemma project_nodes opts thread node :
  In node (descendants (project opts thread)) →
  ∃ x cmp d, In x (descendants thread) ∧ node = passOver opts cmp d x.
Proof.
  rewrite project_split. unfold afterVisible, pruneInvisible.
  intros H. apply in_descendants in H as (c & Hc & H).
  cbn [t_children with_totalChildren] in Hc.
  rewrite countRepliesAndDepth_children in Hc.
  apply in_map_iff in Hc as (c1 & <- & Hc1).
  apply countRepliesAndDepth_nodes in H as (n1 & d & Hn1 & ->).
  rewrite sortThread_unfold in Hc1. cbn [t_children with_children] in Hc1.
  apply sort_In, in_map_iff in Hc1 as (c2 & <- & Hc2).
  apply sortThread_nodes in Hn1 as (n2 & cmp & Hn2 & ->).
  rewrite mapThread_children in Hc2. cbn [t_children with_children] in Hc2.
  apply in_map_iff in Hc2 as (c3 & <- & Hc3).
  rewrite mapThread_subthreads in Hn2. apply in_map_iff in Hn2 as (n3 & <- & Hn3).
  apply filter_In in Hc3 as [Hc3 _].
  rewrite mapThread_children in Hc3. apply in_map_iff in Hc3 as (c4 & <- & Hc4).
  rewrite mapThread_subthreads in Hn3. apply in_map_iff in Hn3 as (n4 & <- & Hn4).
  exists n4, cmp, d. split; [|done].
  apply selectTopLevel_descendants with (opts := opts).
  apply in_descendants. eauto.
Qed.

(** The same for the top-level threads: each is a top-level thread that the
    selection kept and the pruning did not remove, and its replies are
    sorted by [replySortCompareFn]. *)
Lemma project_children opts thread c :
  In c (t_children (project opts thread)) →
  ∃ x, In x (t_children (selectTopLevel opts thread))
       ∧ (let y := mapThread x (setVisible opts) in
          t_visible y || hasVisibleChildren y = true)
       ∧ c = passOver opts (replySortCompareFn opts) (-1 + 1) x.
Proof.
  rewrite project_split. unfold afterVisible, pruneInvisible.
  cbn [t_children with_totalChildren]. rewrite countRepliesAndDepth_children.
  intros Hc. apply in_map_iff in Hc as (c1 & <- & Hc1).
  rewrite sortThread_unfold in Hc1. cbn [t_children with_children] in Hc1.
  apply sort_In, in_map_iff in Hc1 as (c2 & <- & Hc2).
  rewrite mapThread_children in Hc2. cbn [t_children with_children] in Hc2.
  apply in_map_iff in Hc2 as (c3 & <- & Hc3).
  apply filter_In in Hc3 as [Hc3 Hkeep].
  rewrite mapThread_children in Hc3. apply in_map_iff in Hc3 as (c4 & <- & Hc4).
  exists c4. done.
Qed.

(** The fields of a thread after the four passes. *)
Lemma countRepliesAndDepth_fields t d :
  t_id (countRepliesAndDepth t d) = t_id t
  ∧ t_annotation (countRepliesAndDepth t d) = t_annotation t
  ∧ t_parent (countRepliesAndDepth t d) = t_parent t
  ∧ t_totalChildren (countRepliesAndDepth t d) = t_totalChildren t
  ∧ t_collapsed (countRepliesAndDepth t d) = t_collapsed t.
Proof. by destruct t. Qed.

Lemma sortThread_fields t cmp rcmp :
  t_id (sortThread t cmp rcmp) = t_id t
  ∧ t_annotation (sortThread t cmp rcmp) = t_annotation t
  ∧ t_parent (sortThread t cmp rcmp) = t_parent t
  ∧ t_totalChildren (sortThread t cmp rcmp) = t_totalChildren t
  ∧ t_collapsed (sortThread t cmp rcmp) = t_collapsed t.
Proof. by rewrite sortThread_unfold. Qed.

Lemma mapThread_fields t f :
  t_id (mapThread t f) = t_id (f t)
  ∧ t_annotation (mapThread t f) = t_annotation (f t)
  ∧ t_parent (mapThread t f) = t_parent (f t)
  ∧ t_totalChildren (mapThread t f) = t_totalChildren (f t)
  ∧ t_collapsed (mapThread t f) = t_collapsed (f t).
Proof. by rewrite mapThread_unfold. Qed.

Lemma setCollapsed_fields opts x :
  t_id (setCollapsed opts x) = t_id x
  ∧ t_annotation (setCollapsed opts x) = t_annotation x
  ∧ t_parent (setCollapsed opts x) = t_parent x
  ∧ t_totalChildren (setCollapsed opts x) = t_totalChildren x.
Proof. unfold setCollapsed. by destruct (expanded opts !! t_id x). Qed.

Lemma setVisible_fields opts x :
  t_id (setVisible opts x) = t_id x
  ∧ t_annotation (setVisible opts x) = t_annotation x
  ∧ t_parent (setVisible opts x) = t_parent x
  ∧ t_totalChildren (setVisible opts x) = t_totalChildren x
  ∧ t_collapsed (setVisible opts x) = t_collapsed x.
Proof. done. Qed.

Lemma passOver_fields opts cmp d x :
  let y := mapThread x (setVisible opts) in
  t_id (passOver opts cmp d x) = t_id x
  ∧ t_annotation (passOver opts cmp d x) = t_annotation x
  ∧ t_parent (passOver opts cmp d x) = t_parent x
  ∧ t_totalChildren (passOver opts cmp d x) = t_totalChildren x
  ∧ t_visible (passOver opts cmp d x) = t_visible (setVisible opts x)
  ∧ t_collapsed (passOver opts cmp d x) = t_collapsed (setCollapsed opts y)
  ∧ hasVisibleChildren (passOver opts cmp d x) = hasVisibleChildren y
  ∧ t_depth (passOver opts cmp d x) = d.
Proof.
  intros y. unfold passOver. fold y.
  set (z := mapThread y (setCollapsed opts)).
  set (s := sortThread z cmp (replySortCompareFn opts)).
  destruct (countRepliesAndDepth_fields s d) as (-> & -> & -> & -> & ->).
  destruct (sortThread_fields z cmp (replySortCompareFn opts)) as (Hi & Ha & Hp & Ht & Hc).
  fold s in Hi, Ha, Hp, Ht, Hc. rewrite Hi, Ha, Hp, Ht, Hc. clear Hi Ha Hp Ht Hc.
  destruct (mapThread_fields y (setCollapsed opts)) as (Hi & Ha & Hp & Ht & Hc).
  fold z in Hi, Ha, Hp, Ht, Hc. rewrite Hi, Ha, Hp, Ht, Hc. clear Hi Ha Hp Ht Hc.
  destruct (setCollapsed_fields opts y) as (-> & -> & -> & ->).
  destruct (mapThread_fields x (setVisible opts)) as (Hi & Ha & Hp & Ht & _).
  fold y in Hi, Ha, Hp, Ht. rewrite Hi, Ha, Hp, Ht. clear Hi Ha Hp Ht.
  destruct (setVisible_fields opts x) as (-> & -> & -> & -> & _).
  repeat split.
  - subst s z. rewrite countRepliesAndDepth_visible, sortThread_visible,
      mapThread_visible, setCollapsed_visible.
    subst y. by rewrite mapThread_visible.
  - subst s z. rewrite countRepliesAndDepth_hasVisibleChildren,
      sortThread_hasVisibleChildren.
    by rewrite (mapThread_hasVisibleChildren _ (setCollapsed_visible opts)).
  - apply countRepliesAndDepth_depth.
Qed.

(** ** Visibility *)

(** A thread without annotation is never visible, and under an annotation
    filter a thread is visible when its annotation is forced visible or
    passes the filter. *)
Theorem visibility_rule fuel annotations opts root :
  buildThread fuel annotations opts = Ret root →
  ∀ node, In node (descendants root) →
    (t_annotation node = None → t_visible node = false)
    ∧ (∀ a f, t_annotation node = Some a → filterFn opts = Some f →
         t_visible node
         = (hasForcedVisible opts && includes (forcedVisible opts) (ann_tag a)) || f a).
Proof.
  intros H node Hnode. apply buildThread_Ret in H as (thread & _ & ->).
  apply project_nodes in Hnode as (x & cmp & d & _ & ->).
  destruct (passOver_fields opts cmp d x) as (_ & -> & _ & _ & -> & _).
  unfold setVisible. cbn [t_visible with_visible]. split.
  - by intros ->.
  - intros a f -> ->.
    by destruct (hasForcedVisible opts && includes (forcedVisible opts) (ann_tag a)).
Qed.

Lemma visibility_rule_witness :
  ∃ root top reply,
    buildThread 4 forcedSample onlyThreeOpts = Ret root
    ∧ t_children root = [top] ∧ t_children top = [reply]
    ∧ t_id top = "1" ∧ t_visible top = false
    ∧ t_id reply = "3" ∧ t_visible reply = true.
Proof.
  assert (Hroot : ∃ root top reply,
            buildThread 4 forcedSample onlyThreeOpts = Ret root
            ∧ t_children root = [top] ∧ t_children top = [reply]
            ∧ t_id top = "1" ∧ t_id reply = "3"
            ∧ In top (descendants root) ∧ In reply (descendants root)
            ∧ t_annotation top = Some (saved "1" [])
            ∧ t_annotation reply = Some (saved "3" ["1"])).
  { do 3 eexists. split; [vm_compute; reflexivity|].
    do 4 (split; [reflexivity|]). split; [left; reflexivity|].
    split; [right; left; reflexivity|]. split; reflexivity. }
  destruct Hroot as (root & top & reply & Hroot & Hch & Hch' & Hid & Hid' & Htop & Hreply
                     & Hann & Hann').
  exists root, top, reply. do 4 (split; [done|]).
  destruct (visibility_rule 4 forcedSample onlyThreeOpts root Hroot top Htop) as [_ Hv].
  destruct (visibility_rule 4 forcedSample onlyThreeOpts root Hroot reply Hreply) as [_ Hv'].
  split; [exact (Hv _ _ Hann eq_refl)|]. split; [done|exact (Hv' _ _ Hann' eq_refl)].
Defined.

(** ** Pruning *)

(** Every top-level thread that [buildThread] returns is visible or has a
    visible descendant. *)
Theorem top_level_has_visible fuel annotations opts root :
  buildThread fuel annotations opts = Ret root →
  ∀ top, In top (t_children root) →
    t_visible top = true ∨ ∃ d, In d (descendants top) ∧ t_visible d = true.
Proof.
  intros H top Htop. apply buildThread_Ret in H as (thread & _ & ->).
  apply project_children in Htop as (x & _ & Hkeep & ->). cbv zeta in Hkeep.
  destruct (passOver_fields opts (replySortCompareFn opts) (-1 + 1) x)
    as (_ & _ & _ & _ & Hv & _ & Hh & _).
  cbv zeta in Hh. rewrite mapThread_visible in Hkeep.
  apply orb_true_iff in Hkeep as [Hkeep|Hkeep].
  - left. by rewrite Hv.
  - right. apply hasVisibleChildren_iff. by rewrite Hh.
Qed.

Lemma top_level_has_visible_witness :
  ∃ root top d,
    buildThread 4 forcedSample onlyThreeOpts = Ret root
    ∧ In top (t_children root) ∧ t_visible top = false
    ∧ In d (descendants top) ∧ t_visible d = true.
Proof.
  assert (Hroot : ∃ root top, buildThread 4 forcedSample onlyThreeOpts = Ret root
                              ∧ In top (t_children root) ∧ t_visible top = false).
  { do 2 eexists. split; [vm_compute; reflexivity|]. split; [left|]; reflexivity. }
  destruct Hroot as (root & top & Hroot & Htop & Hv).
  destruct (top_level_has_visible 4 forcedSample onlyThreeOpts root Hroot top Htop)
    as [Hv'|(d & Hd & Hdv)]; [congruence|].
  exists root, top, d. done.
Defined.

(** ** Selection and thread-level filter *)

Lemma selectTopLevel_selected opts thread x :
  selected opts ≠ [] →
  In x (t_children (selectTopLevel opts thread)) →
  isSelectedOrForced opts x = true.
Proof.
  intros Hsel Hx. unfold selectTopLevel in Hx.
  assert (hasSelection opts = true) as Hhas.
  { unfold hasSelection. by destruct (selected opts). }
  rewrite Hhas in Hx.
  destruct (threadFilterFn opts); cbn [t_children with_children] in Hx.
  - apply filter_In in Hx as [Hx _]. by apply filter_In in Hx as [_ ?].
  - by apply filter_In in Hx as [_ ?].
Qed.

(** With a selection, every top-level thread of the result is selected, or
    its annotation is forced visible. *)
Theorem top_level_is_selected fuel annotations opts root :
  selected opts ≠ [] →
  buildThread fuel annotations opts = Ret root →
  ∀ top, In top (t_children root) →
    In (t_id top) (selected opts)
    ∨ ∃ a, t_annotation top = Some a ∧ In (ann_tag a) (forcedVisible opts).
Proof.
  intros Hsel H top Htop. apply buildThread_Ret in H as (thread & _ & ->).
  apply project_children in Htop as (x & Hx & _ & ->).
  destruct (passOver_fields opts (replySortCompareFn opts) (-1 + 1) x)
    as (-> & -> & _).
  apply (selectTopLevel_selected _ _ _ Hsel) in Hx.
  unfold isSelectedOrForced in Hx. apply orb_true_iff in Hx as [Hx|Hx].
  - left. by apply includes_true.
  - right. apply andb_true_iff in Hx as [_ Hx].
    destruct (t_annotation x) as [a|]; [|done].
    exists a. split; [done|]. by apply includes_true.
Qed.

Lemma top_level_is_selected_witness :
  ∃ root top,
    buildThread 4 forcedSample selectedOpts = Ret root
    ∧ t_children root = [top] ∧ In (t_id top) ["1"].
Proof.
  assert (Hroot : ∃ root top, buildThread 4 forcedSample selectedOpts = Ret root
                              ∧ t_children root = [top]).
  { do 2 eexists. split; [vm_compute; reflexivity|reflexivity]. }
  destruct Hroot as (root & top & Hroot & Hch).
  exists root, top. do 2 (split; [done|]).
  destruct (top_level_is_selected 4 forcedSample selectedOpts root
              ltac:(discriminate) Hroot top) as [Hin|(a & _ & [])].
  - rewrite Hch. by left.
  - exact Hin.
Defined.

Lemma selectTopLevel_kept opts thread keep x :
  threadFilterFn opts = Some keep →
  In x (t_children (selectTopLevel opts thread)) →
  In x (t_children thread) ∧ keep x = true.
Proof.
  intros Hkeep Hx. unfold selectTopLevel in Hx. rewrite Hkeep in Hx.
  cbn [t_children with_children] in Hx. apply filter_In in Hx as [Hx ?].
  split; [|done]. destruct (hasSelection opts); [|done].
  cbn [t_children with_children] in Hx. by apply filter_In in Hx as [? _].
Qed.

(** With a thread-level filter, every top-level thread of the result is the
    copy of a top-level thread that the filter accepted. *)
Theorem top_level_passes_threadFilterFn fuel annotations opts keep thread root :
  threadFilterFn opts = Some keep →
  threadAnnotations fuel annotations = Ret thread →
  buildThread fuel annotations opts = Ret root →
  ∀ top, In top (t_children root) →
    ∃ x, In x (t_children thread) ∧ keep x = true
         ∧ t_id top = t_id x ∧ t_annotation top = t_annotation x.
Proof.
  intros Hkeep Hthread H top Htop. unfold buildThread in H. rewrite Hthread in H.
  injection H as <-.
  apply project_children in Htop as (x & Hx & _ & ->).
  destruct (passOver_fields opts (replySortCompareFn opts) (-1 + 1) x)
    as (-> & -> & _).
  destruct (selectTopLevel_kept _ _ _ _ Hkeep Hx) as [Hin Hk]. eauto.
Qed.

Lemma top_level_passes_threadFilterFn_witness :
  ∃ thread root top x,
    threadAnnotations 4 forcedSample = Ret thread
    ∧ buildThread 4 forcedSample repliedOpts = Ret root
    ∧ t_children root = [top]
    ∧ In x (t_children thread) ∧ (0 <? length (t_children x))%nat = true
    ∧ t_id top = t_id x.
Proof.
  assert (Hthread : ∃ thread, threadAnnotations 4 forcedSample = Ret thread)
    by (eexists; vm_compute; reflexivity).
  destruct Hthread as [thread Hthread].
  assert (Hroot : ∃ root top, buildThread 4 forcedSample repliedOpts = Ret root
                              ∧ t_children root = [top]).
  { do 2 eexists. split; [vm_compute; reflexivity|reflexivity]. }
  destruct Hroot as (root & top & Hroot & Hch).
  destruct (top_level_passes_threadFilterFn 4 forcedSample repliedOpts _ thread root
              eq_refl Hthread Hroot top) as (x & Hx & Hk & Hid & _).
  { rewrite Hch. by left. }
  exists thread, root, top, x. done.
Defined.

(** ** Collapsed state *)

(** An entry of [expanded] for the id of a thread decides its collapsed
    state, whatever the filters. *)
Theorem expanded_entry_wins fuel annotations opts root :
  buildThread fuel annotations opts = Ret root →
  ∀ node e, In node (descendants root) →
    expanded opts !! t_id node = Some e → t_collapsed node = negb e.
Proof.
  intros H node e Hnode He. apply buildThread_Ret in H as (thread & _ & ->).
  apply project_nodes in Hnode as (x & cmp & d & _ & ->).
  destruct (passOver_fields opts cmp d x) as (Hid & _ & _ & _ & _ & -> & _).
  rewrite Hid in He. unfold setCollapsed.
  destruct (mapThread_fields x (setVisible opts)) as (-> & _).
  cbn [setVisible with_visible t_id]. by rewrite He.
Qed.

Lemma expanded_entry_wins_witness :
  ∃ root top1 top2,
    buildThread 4 forcedSample expandedOpts = Ret root
    ∧ t_children root = [top1; top2]
    ∧ t_id top1 = "1" ∧ t_id top2 = "2"
    ∧ t_collapsed top1 = false ∧ t_collapsed top2 = true.
Proof.
  assert (Hroot : ∃ root top1 top2,
            buildThread 4 forcedSample expandedOpts = Ret root
            ∧ t_children root = [top1; top2]
            ∧ t_id top1 = "1" ∧ t_id top2 = "2"
            ∧ In top1 (descendants root) ∧ In top2 (descendants root)).
  { do 3 eexists. split; [vm_compute; reflexivity|].
    do 3 (split; [reflexivity|]).
    split; [left; reflexivity|right; right; left; reflexivity]. }
  destruct Hroot as (root & top1 & top2 & Hroot & Hch & Hid1 & Hid2 & Hin1 & Hin2).
  exists root, top1, top2. do 4 (split; [done|]).
  pose proof (expanded_entry_wins 4 forcedSample expandedOpts root Hroot) as H.
  split.
  - apply (H top1 true Hin1). by rewrite Hid1.
  - apply (H top2 false Hin2). by rewrite Hid2.
Defined.

(** Under an annotation filter, a thread that has a visible descendant and
    no entry in [expanded] is not collapsed. *)
Theorem filter_match_expands fuel annotations opts f root :
  filterFn opts = Some f →
  buildThread fuel annotations opts = Ret root →
  ∀ node, In node (descendants root) →
    expanded opts !! t_id node = None →
    (∃ d, In d (descendants node) ∧ t_visible d = true) →
    t_collapsed node = false.
Proof.
  intros Hf H node Hnode He Hd. apply hasVisibleChildren_iff in Hd.
  apply buildThread_Ret in H as (thread & _ & ->).
  apply project_nodes in Hnode as (x & cmp & d & _ & ->).
  destruct (passOver_fields opts cmp d x) as (Hid & _ & _ & _ & _ & -> & Hh & _).
  cbv zeta in Hh. rewrite Hh in Hd. rewrite Hid in He. unfold setCollapsed.
  destruct (mapThread_fields x (setVisible opts)) as (-> & _).
  cbn [setVisible with_visible t_id]. rewrite He, Hf, Hd. apply andb_false_r.
Qed.

Lemma filter_match_expands_witness :
  ∃ root top,
    buildThread 4 forcedSample onlyThreeOpts = Ret root
    ∧ t_children root = [top] ∧ t_id top = "1" ∧ t_collapsed top = false.
Proof.
  assert (Hroot : ∃ root top reply,
            buildThread 4 forcedSample onlyThreeOpts = Ret root
            ∧ t_children root = [top] ∧ t_id top = "1"
            ∧ In top (descendants root)
            ∧ In reply (descendants top) ∧ t_visible reply = true).
  { do 3 eexists. split; [vm_compute; reflexivity|].
    do 2 (split; [reflexivity|]). split; [left; reflexivity|].
    split; [left; reflexivity|reflexivity]. }
  destruct Hroot as (root & top & reply & Hroot & Hch & Hid & Hin & Hreply & Hv).
  exists root, top. do 3 (split; [done|]).
  apply (filter_match_expands 4 forcedSample onlyThreeOpts _ root eq_refl Hroot top Hin).
  - by rewrite Hid.
  - by exists reply.
Defined.

(** ** The nodes that the passes keep *)

Lemma labels_unfold t :
  labels t = (t_id t, t_annotation t) :: flat_map labels (t_children t).
Proof.
  unfold labels. rewrite subthreads_unfold. cbn [map]. f_equal.
  unfold descendants. induction (t_children t) as [|c l IH]; [done|].
  cbn [flat_map]. by rewrite map_app, IH.
Qed.

Lemma flat_map_labels_ext (g : Thread → Thread) l :
  Forall (fun c => Permutation (labels (g c)) (labels c)) l →
  Permutation (flat_map labels (map g l)) (flat_map labels l).
Proof.
  induction 1 as [|c l Hc _ IH]; [done|].
  cbn [map flat_map]. by apply Permutation_app.
Qed.

Lemma flat_map_labels_eq (g : Thread → Thread) l :
  Forall (fun c => labels (g c) = labels c) l →
  flat_map labels (map g l) = flat_map labels l.
Proof.
  induction 1 as [|c l Hc _ IH]; [done|].
  cbn [map flat_map]. by rewrite Hc, IH.
Qed.

Lemma mapThread_labels f t :
  (∀ x, t_id (f x) = t_id x ∧ t_annotation (f x) = t_annotation x) →
  labels (mapThread t f) = labels t.
Proof.
  intros Hf. induction t as [i a p v c children tc rc d IH] using Thread_ind.
  rewrite mapThread_unfold, !labels_unfold.
  cbn [t_id t_annotation t_children with_children].
  destruct (Hf (mkThread i a p v c children tc rc d)) as [-> ->].
  cbn [t_id t_annotation]. f_equal. by apply flat_map_labels_eq.
Qed.

Lemma countRepliesAndDepth_labels t : ∀ d, labels (countRepliesAndDepth t d) = labels t.
Proof.
  induction t as [i a p v c children tc rc d0 IH] using Thread_ind. intros d.
  rewrite !labels_unfold, countRepliesAndDepth_children.
  cbn [t_id t_annotation countRepliesAndDepth t_children]. f_equal.
  apply flat_map_labels_eq. eapply List.Forall_impl; [|exact IH].
  intros x Hx. apply Hx.
Qed.

Lemma sortThread_labels t cmp rcmp :
  Permutation (labels (sortThread t cmp rcmp)) (labels t).
Proof.
  revert cmp. induction t as [i a p v c children tc rc d IH] using Thread_ind.
  intros cmp. rewrite sortThread_unfold, !labels_unfold.
  cbn [t_id t_annotation t_children with_children]. constructor.
  etransitivity.
  - apply Permutation_flat_map. unfold sort. apply array_sort_perm.
  - apply flat_map_labels_ext. eapply List.Forall_impl; [|exact IH].
    intros x Hx. apply Hx.
Qed.

Lemma passOver_labels opts cmp d x :
  Permutation (labels (passOver opts cmp d x)) (labels x).
Proof.
  unfold passOver. rewrite countRepliesAndDepth_labels.
  rewrite sortThread_labels.
  rewrite !mapThread_labels; [done| |].
  - intros y. unfold setVisible. by destruct y.
  - intros y. unfold setCollapsed. by destruct (expanded opts !! t_id y), y.
Qed.

(** Sorting moves threads and loses none: a sorted thread has the nodes of
    the thread it was given, whatever the comparison functions answer. *)
Theorem sortThread_keeps_every_thread t cmp rcmp :
  Permutation (labels (sortThread t cmp rcmp)) (labels t).
Proof. apply sortThread_labels. Qed.

(** The filters of [buildThread] remove whole top-level threads only: a
    top-level thread of the result has every reply, visible or not, of the
    top-level thread that [threadAnnotations] built. *)
Theorem top_level_keeps_replies fuel annotations opts thread root :
  threadAnnotations fuel annotations = Ret thread →
  buildThread fuel annotations opts = Ret root →
  ∀ top, In top (t_children root) →
    ∃ x, In x (t_children thread) ∧ Permutation (labels top) (labels x).
Proof.
  intros Hthread H top Htop. unfold buildThread in H. rewrite Hthread in H.
  injection H as <-.
  apply project_children in Htop as (x & Hx & _ & ->).
  exists x. split; [|apply passOver_labels].
  unfold selectTopLevel in Hx.
  destruct (threadFilterFn opts); cbn [t_children with_children] in Hx.
  - apply filter_In in Hx as [Hx _].
    destruct (hasSelection opts); [|done].
    cbn [t_children with_children] in Hx. by apply filter_In in Hx as [? _].
  - destruct (hasSelection opts); [|done].
    cbn [t_children with_children] in Hx. by apply filter_In in Hx as [? _].
Qed.

Lemma top_level_keeps_replies_witness :
  ∃ thread root top x,
    threadAnnotations 4 forcedSample = Ret thread
    ∧ buildThread 4 forcedSample onlyThreeOpts = Ret root
    ∧ t_children root = [top] ∧ length (labels top) = 2%nat
    ∧ In x (t_children thread) ∧ Permutation (labels top) (labels x).
Proof.
  assert (Hthread : ∃ thread, threadAnnotations 4 forcedSample = Ret thread)
    by (eexists; vm_compute; reflexivity).
  destruct Hthread as [thread Hthread].
  assert (Hroot : ∃ root top, buildThread 4 forcedSample onlyThreeOpts = Ret root
                              ∧ t_children root = [top]
                              ∧ length (labels top) = 2%nat).
  { do 2 eexists. split; [vm_compute; reflexivity|]. split; reflexivity. }
  destruct Hroot as (root & top & Hroot & Htop & Hlen).
  destruct (top_level_keeps_replies 4 forcedSample onlyThreeOpts thread root
              Hthread Hroot top) as (x & Hx & Hperm).
  { rewrite Htop. by left. }
  exists thread, root, top, x. done.
Defined.

(** ** Sorting twice *)

(** [sort] leaves a list that is in order as it is. *)
Theorem sort_keeps_sorted cmp threads :
  LessThan cmp → ordered cmp threads → sort threads cmp = threads.
Proof.
  intros Hcmp Hord. symmetry. by apply sort_unique.
Qed.

Lemma sort_keeps_sorted_witness :
  sort [leafThread (unsaved "a" []); leafThread (unsaved "b" [])]
       (sortCompareFn defaultOpts)
  = [leafThread (unsaved "a" []); leafThread (unsaved "b" [])].
Proof.
  apply sort_keeps_sorted; [apply defaultOpts_LessThan|].
  repeat constructor. unfold inOrder. vm_compute. discriminate.
Defined.

Lemma array_insert_map {A B} (compare : B → B → Z) (compare' : A → A → Z)
    (g : A → B) x l :
  (∀ a b, compare (g a) (g b) = compare' a b) →
  array_insert compare (g x) (map g l) = map g (array_insert compare' x l).
Proof.
  intros Hg. induction l as [|y l IH]; [done|].
  cbn [map array_insert]. rewrite Hg. destruct (0 <? compare' x y)%Z; [|done].
  cbn [map]. by rewrite IH.
Qed.

Lemma sort_map cmp (g : Thread → Thread) l :
  (∀ x, t_annotation (g x) = t_annotation x) →
  sort (map g l) cmp = map g (sort l cmp).
Proof.
  intros Hg. unfold sort. induction l as [|x l IH]; [done|].
  cbn [map array_sort foldr]. fold (array_sort (compareThreads cmp) (map g l)).
  fold (array_sort (compareThreads cmp) l). rewrite IH.
  apply array_insert_map. intros a b. unfold compareThreads. by rewrite !Hg.
Qed.

Lemma sortThread_annotation t cmp rcmp :
  t_annotation (sortThread t cmp rcmp) = t_annotation t.
Proof. by rewrite sortThread_unfold. Qed.

Lemma sort_sort cmp l : LessThan cmp → sort (sort l cmp) cmp = sort l cmp.
Proof.
  intros Hcmp. symmetry. apply sort_unique; [done|done|by apply sort_ordered|done].
Qed.

(** For less-than comparison functions, sorting a sorted thread changes
    nothing. *)
Theorem sortThread_idempotent t cmp rcmp :
  LessThan cmp → LessThan rcmp →
  sortThread (sortThread t cmp rcmp) cmp rcmp = sortThread t cmp rcmp.
Proof.
  intros Hcmp Hrcmp. revert cmp Hcmp.
  induction t as [i a p v c children tc rc d IH] using Thread_ind. intros cmp Hcmp.
  rewrite (sortThread_unfold (sortThread _ _ _)).
  rewrite (sortThread_unfold (mkThread _ _ _ _ _ _ _ _ _)).
  cbn [t_children with_children].
  unfold with_children at 1. cbn [t_id t_annotation t_parent t_visible t_collapsed
    t_totalChildren t_replyCount t_depth]. unfold with_children. cbn. f_equal.
  rewrite sort_map by (intros x; apply sortThread_annotation).
  rewrite sort_sort by done.
  rewrite <- sort_map by (intros x; apply sortThread_annotation).
  rewrite map_map. f_equal.
  apply map_ext_in. intros x Hx.
  rewrite List.Forall_forall in IH. by apply IH.
Qed.

Lemma sortThread_idempotent_witness :
  sortThread (sortThread unsortedThread (sortCompareFn defaultOpts)
                         (replySortCompareFn defaultOpts))
             (sortCompareFn defaultOpts) (replySortCompareFn defaultOpts)
  = sortThread unsortedThread (sortCompareFn defaultOpts)
               (replySortCompareFn defaultOpts)
  ∧ map t_id (t_children (sortThread unsortedThread (sortCompareFn defaultOpts)
                                     (replySortCompareFn defaultOpts)))
    = ["2"; "3"].
Proof.
  split; [|reflexivity].
  apply sortThread_idempotent; apply defaultOpts_LessThan.
Defined.

(** ** Counting *)

(** [countRepliesAndDepth] reads neither [replyCount] nor [depth] of the
    thread it is given: counting a counted thread again, from any depth,
    gives what counting the thread itself gives. *)
Theorem countRepliesAndDepth_recount t :
  ∀ d d', countRepliesAndDepth (countRepliesAndDepth t d) d'
          = countRepliesAndDepth t d'.
Proof.
  induction t as [i a p v c children tc rc d0 IH] using Thread_ind. intros d d'.
  assert (map (fun x => countRepliesAndDepth (countRepliesAndDepth x (d + 1)) (d' + 1))
              children
          = map (fun c => countRepliesAndDepth c (d' + 1)) children) as Hmap.
  { apply map_ext_in. intros x Hx. rewrite List.Forall_forall in IH. by apply IH. }
  cbn [countRepliesAndDepth t_id t_annotation t_parent t_visible t_collapsed
       t_totalChildren]. by rewrite map_map, Hmap.
Qed.

Lemma sumReplies_perm l l' : Permutation l l' → sumReplies l = sumReplies l'.
Proof.
  unfold sumReplies.
  induction 1 as [|x l l' _ IH|x y l|l1 l2 l3 _ IH1 _ IH2]; cbn [foldr]; lia.
Qed.

(** Sorting and counting commute: the reply counts and depths do not depend
    on the order of the children. *)
Theorem count_sort_commute t :
  ∀ cmp rcmp d,
    countRepliesAndDepth (sortThread t cmp rcmp) d
    = sortThread (countRepliesAndDepth t d) cmp rcmp.
Proof.
  induction t as [i a p v c children tc rc d0 IH] using Thread_ind.
  intros cmp rcmp d.
  rewrite (sortThread_unfold (countRepliesAndDepth _ _)).
  rewrite countRepliesAndDepth_children.
  rewrite (countRepliesAndDepth_unfold (sortThread _ _ _)). cbv zeta.
  rewrite !fold_left_replies.
  rewrite (sortThread_unfold (mkThread _ _ _ _ _ _ _ _ _)).
  cbn [t_children with_children t_id t_annotation t_parent t_visible t_collapsed
       t_totalChildren].
  rewrite <- sort_map by (intros x; apply countRepliesAndDepth_annotation).
  rewrite !map_map.
  assert (map (fun x => countRepliesAndDepth (sortThread x rcmp rcmp) (d + 1)) children
          = map (fun x => sortThread (countRepliesAndDepth x (d + 1)) rcmp rcmp) children)
    as Hmap.
  { apply map_ext_in. intros x Hx. rewrite List.Forall_forall in IH. by apply IH. }
  rewrite Hmap. unfold with_children.
  cbn [t_id t_annotation t_parent t_visible t_collapsed t_totalChildren t_replyCount
       t_depth countRepliesAndDepth]. f_equal.
  rewrite fold_left_replies. f_equal.
  rewrite (sumReplies_perm (sort _ _) _ (array_sort_perm _ _)).
  unfold sumReplies. clear. induction children as [|x l IHl]; [done|].
  cbn [map foldr]. rewrite IHl. by rewrite sortThread_unfold.
Qed.

(** * The table and the tree read from it *)

Lemma readThread_objects fuel :
  ∀ (threads : gmap string ThreadObj) k t,
    readThread fuel threads k = Ret t →
    ∀ node, In node (subthreads t) →
      ∃ k' o, threads !! k' = Some o ∧ readsAs o node.
Proof.
  induction fuel as [|fuel IH]; intros threads k t H node Hnode; [done|].
  rewrite readThread_unfold in H.
  destruct (threads !! k) as [o|] eqn:Hk; [|done].
  apply bind_Ret in H as (children & Hch & H). injection H as <-.
  apply mapM_Ret in Hch.
  rewrite subthreads_unfold in Hnode. destruct Hnode as [<-|Hnode].
  - exists k, o. split; [done|]. by repeat split.
  - apply in_descendants in Hnode as (c' & Hc' & Hnode). cbn [t_children] in Hc'.
    destruct (Forall2_In_r _ _ _ _ Hch Hc') as (c & Hc & Hread).
    by eapply IH.
Qed.

Lemma attach_Ret id parentId threads threads' :
  attach id parentId threads = Ret threads' →
  is_Some (objs threads !! id)
  ∧ threads' = update parentId (push_child id) (update id (set_parent parentId) threads).
Proof.
  unfold attach. destruct (objs threads !! id) as [o|] eqn:Hid; [|done].
  destruct (objs (update id (set_parent parentId) threads) !! parentId); [|done].
  intros H. injection H as <-. eauto.
Qed.

Section Object_invariant.
Variable Q : string → ThreadObj → Prop.
Hypothesis Q_placeholder : ∀ x, Q x (placeholder x).
Hypothesis Q_set_parent : ∀ k o p, Q k o → Q k (set_parent p o).
Hypothesis Q_push_child : ∀ k o c, Q k o → Q k (push_child c o).

Lemma alter_objects (f : ThreadObj → ThreadObj) x (threads : gmap string ThreadObj) :
  (∀ k o, Q k o → Q k (f o)) →
  map_Forall Q threads → map_Forall Q (alter f x threads).
Proof.
  intros Hf H k o Hk. apply lookup_alter_Some in Hk as [(<- & o' & Ho' & ->)|[_ Hk]].
  - apply Hf. by apply H.
  - by apply H.
Qed.

Lemma setParent_objects fuel :
  ∀ threads id parents threads',
    map_Forall Q (objs threads) →
    setParent fuel threads id parents = Ret threads' →
    map_Forall Q (objs threads').
Proof.
  induction fuel as [|fuel IH]; intros threads id parents threads' HQ H; [done|].
  rewrite setParent_unfold in H.
  destruct (objs threads !! id) as [thread|] eqn:Hid; [|done].
  destruct (truthy_opt (o_parent thread) || (length parents =? 0)%nat);
    [by injection H as <-|].
  cbv zeta in H.
  apply bind_Ret in H as (threads1 & H1 & H).
  apply bind_Ret in H as (ok & Hok & H).
  assert (HQ1 : map_Forall Q (objs threads1)).
  { destruct (objs threads !! List.last parents "") as [parent|] eqn:Hparent.
    - by injection H1 as <-.
    - eapply IH; [|exact H1]. cbn [objs assign].
      apply map_Forall_insert_2; [apply Q_placeholder|exact HQ]. }
  destruct ok; [|by injection H as <-].
  apply attach_Ret in H as [_ ->]. cbn [objs update].
  apply alter_objects; [intros; by apply Q_push_child|].
  apply alter_objects; [intros; by apply Q_set_parent|done].
Qed.

Lemma linkThreads_objects fuel annotations :
  ∀ threads threads',
    map_Forall Q (objs threads) →
    linkThreads fuel annotations threads = Ret threads' →
    map_Forall Q (objs threads').
Proof.
  unfold linkThreads.
  induction annotations as [|a l IH]; intros threads threads' HQ H.
  - by injection H as <-.
  - cbn [foldM] in H. apply bind_Ret in H as (threads1 & H1 & H).
    eapply IH; [|exact H]. by eapply setParent_objects.
Qed.
End Object_invariant.

Lemma setParent_keys_ok fuel :
  ∀ threads id parents threads',
    keys_ok threads →
    setParent fuel threads id parents = Ret threads' → keys_ok threads'.
Proof.
  induction fuel as [|fuel IH]; intros threads id parents threads' Hok H; [done|].
  rewrite setParent_unfold in H.
  destruct (objs threads !! id) as [thread|] eqn:Hid; [|done].
  destruct (truthy_opt (o_parent thread) || (length parents =? 0)%nat);
    [by injection H as <-|].
  cbv zeta in H.
  apply bind_Ret in H as (threads1 & H1 & H).
  apply bind_Ret in H as (ok & _ & H).
  assert (Hok1 : keys_ok threads1).
  { destruct (objs threads !! List.last parents "") as [parent|] eqn:Hparent.
    - by injection H1 as <-.
    - eapply IH; [|exact H1]. by apply keys_ok_assign. }
  destruct ok; [|by injection H as <-].
  apply attach_Ret in H as [_ ->]. by do 2 apply keys_ok_update.
Qed.

Lemma linkThreads_keys_ok fuel annotations :
  ∀ threads threads',
    keys_ok threads →
    linkThreads fuel annotations threads = Ret threads' → keys_ok threads'.
Proof.
  unfold linkThreads.
  induction annotations as [|a l IH]; intros threads threads' Hok H.
  - by injection H as <-.
  - cbn [foldM] in H. apply bind_Ret in H as (threads1 & H1 & H).
    eapply IH; [|exact H]. by eapply setParent_keys_ok.
Qed.

Lemma createThreads_objects annotations :
  map_Forall (fun k o => ∃ a, In a annotations ∧ annotationId a = k ∧ o = newThread a)
             (objs (createThreads annotations)).
Proof.
  intros k o Hk. unfold createThreads in Hk.
  apply create_Some in Hk as [Hk|Hk]; [|done].
  cbn in Hk. by rewrite lookup_empty in Hk.
Qed.

Lemma Forall2_In_impl {A B} (P R : A → B → Prop) l l' :
  Forall2 P l l' → (∀ x y, In x l → P x y → R x y) → Forall2 R l l'.
Proof.
  induction 1 as [|x y l l' HP _ IH]; intros HR; constructor.
  - apply HR; [by left|done].
  - apply IH. intros x' y' Hx'. apply HR. by right.
Qed.

Lemma readThread_top fuel (threads : gmap string ThreadObj) k t :
  readThread fuel threads k = Ret t →
  ∃ o, threads !! k = Some o ∧ readsAs o t.
Proof.
  destruct fuel as [|fuel]; [done|]. rewrite readThread_unfold.
  destruct (threads !! k) as [o|]; [|done].
  intros H. apply bind_Ret in H as (children & _ & H). injection H as <-.
  exists o. by repeat split.
Qed.

Lemma linked_fromInput fuel annotations threads :
  linkThreads fuel annotations (createThreads annotations) = Ret threads →
  map_Forall (fromInput annotations) (objs threads).
Proof.
  intros Hlink.
  eapply (linkThreads_objects (fromInput annotations)); [..|exact Hlink].
  - intros x. by split.
  - intros k o p HQ. exact HQ.
  - intros k o c HQ. exact HQ.
  - intros k o Hk. apply createThreads_objects in Hk as (a & Ha & Hk & ->).
    split; [done|]. intros a' Ha'. by injection Ha' as <-.
Qed.

Lemma linked_defaultState fuel annotations threads :
  linkThreads fuel annotations (createThreads annotations) = Ret threads →
  map_Forall defaultState (objs threads).
Proof.
  intros Hlink.
  eapply (linkThreads_objects defaultState); [..|exact Hlink].
  - intros x. by repeat split.
  - intros k o p HQ. exact HQ.
  - intros k o c HQ. exact HQ.
  - intros k o Hk. apply createThreads_objects in Hk as (a & _ & _ & ->).
    by repeat split.
Qed.

(** The table after the second loop, and what the tree shows of it: every
    thread below the root is the copy of an object of that table, on which
    the third loop set [collapsed] when it has no parent; the top-level
    threads are the objects without parent, in the order of [for ... in]. *)
Lemma threadAnnotations_table fuel annotations thread :
  threadAnnotations fuel annotations = Ret thread →
  ∃ threads,
    linkThreads fuel annotations (createThreads annotations) = Ret threads
    ∧ keys_ok threads
    ∧ Forall2 (fun k top => ∃ o, objs threads !! k = Some o
                                 ∧ truthy_opt (o_parent o) = false
                                 ∧ readsAs (collapseRoot true o) top)
              (List.filter (isRoot (objs threads)) (ownKeys threads))
              (t_children thread)
    ∧ ∀ node, In node (descendants thread) →
        ∃ k o, objs threads !! k = Some o ∧ readsAs (collapseRoot true o) node.
Proof.
  intros H. unfold threadAnnotations in H.
  apply bind_Ret in H as (threads & Hlink & H). exists threads.
  split; [exact Hlink|].
  assert (Hok : keys_ok threads).
  { eapply linkThreads_keys_ok; [|exact Hlink].
    apply create_keys_ok, keys_ok_empty. }
  split; [exact Hok|].
  unfold collectRoots in H.
  destruct (collectRoots_spec (ownKeys threads) threads []) as (Hroots & _ & Hobjs).
  destruct (foldl collectStep (threads, []) (ownKeys threads)) as [threads' rootThreads].
  cbn [fst snd app] in Hroots, Hobjs. subst rootThreads.
  apply bind_Ret in H as (children & Hch & H). injection H as <-.
  cbn [t_children]. apply mapM_Ret in Hch.
  assert (Hobj : ∀ k o', objs threads' !! k = Some o' →
            ∃ o, objs threads !! k = Some o ∧ o' = collapseRoot true o).
  { intros k o' Hk. rewrite Hobjs in Hk.
    destruct (objs threads !! k) as [o|] eqn:Ho; [|done].
    injection Hk as <-. exists o. split; [done|].
    rewrite includes_ownKeys; [done|]. apply Hok. by rewrite Ho. }
  split.
  - eapply Forall2_In_impl; [exact Hch|]. intros k top Hk Hread. cbv beta in Hread.
    apply readThread_top in Hread as (o' & Ho' & Hreads).
    apply Hobj in Ho' as (o & Ho & ->). exists o. split; [done|]. split; [|done].
    apply filter_In in Hk as [_ Hk]. unfold isRoot in Hk. rewrite Ho in Hk.
    by apply negb_true_iff.
  - intros node Hnode. apply in_descendants in Hnode as (top & Htop & Hnode).
    cbn [t_children] in Htop.
    destruct (Forall2_In_r _ _ _ _ Hch Htop) as (k & _ & Hread).
    destruct (readThread_objects _ _ _ _ Hread node Hnode) as (k' & o' & Ho' & Hreads).
    apply Hobj in Ho' as (o & Ho & ->). eauto.
Qed.

Lemma collapseRoot_state o :
  o_visible (collapseRoot true o) = o_visible o
  ∧ o_replyCount (collapseRoot true o) = o_replyCount o
  ∧ o_depth (collapseRoot true o) = o_depth o
  ∧ o_collapsed (collapseRoot true o)
    = (negb (truthy_opt (o_parent o)) || o_collapsed o).
Proof.
  unfold collapseRoot. cbn [andb].
  by destruct (negb (truthy_opt (o_parent o))).
Qed.

(** What every thread below the root of [threadAnnotations] is like. *)
Lemma threadAnnotations_nodes fuel annotations thread :
  threadAnnotations fuel annotations = Ret thread →
  ∀ node, In node (descendants thread) →
    (∀ a, t_annotation node = Some a → In a annotations ∧ annotationId a = t_id node)
    ∧ t_visible node = true
    ∧ t_collapsed node = negb (truthy_opt (t_parent node))
    ∧ t_totalChildren node = None.
Proof.
  intros H node Hnode.
  apply threadAnnotations_table in H as (threads & Hlink & _ & _ & Hnodes).
  destruct (Hnodes node Hnode) as (k & o & Ho & Hreads).
  destruct Hreads as (Hid & Ha & Hp & Hv & Hc & Htc & _).
  destruct (collapseRoot_fields true o) as (Hid' & Ha' & Hp' & _).
  destruct (collapseRoot_state o) as (Hv' & _ & _ & Hc').
  rewrite Hid, Ha, Hp, Hv, Hc, Htc, Hid', Ha', Hp', Hv', Hc'. clear Hnodes.
  pose proof (linked_fromInput _ _ _ Hlink k o Ho) as Hin.
  pose proof (linked_defaultState _ _ _ Hlink k o Ho) as Hdef.
  destruct Hin as [Hk Hann]. destruct Hdef as (Hvis & Hcol & _).
  rewrite Hk, Hvis, Hcol, orb_false_r. done.
Qed.

Lemma threadAnnotations_top_level fuel annotations thread :
  threadAnnotations fuel annotations = Ret thread →
  ∀ top, In top (t_children thread) → truthy_opt (t_parent top) = false.
Proof.
  intros H top Htop.
  apply threadAnnotations_table in H as (threads & _ & _ & Htops & _).
  destruct (Forall2_In_r _ _ _ _ Htops Htop) as (k & _ & o & _ & Hfalsy & Hreads).
  destruct Hreads as (_ & _ & -> & _).
  by destruct (collapseRoot_fields true o) as (_ & _ & -> & _).
Qed.

Lemma selectTopLevel_children opts thread x :
  In x (t_children (selectTopLevel opts thread)) → In x (t_children thread).
Proof.
  unfold selectTopLevel. intros Hx.
  destruct (threadFilterFn opts); cbn [t_children with_children] in Hx.
  - apply filter_In in Hx as [Hx _].
    destruct (hasSelection opts); [|done].
    cbn [t_children with_children] in Hx. by apply filter_In in Hx as [? _].
  - destruct (hasSelection opts); [|done].
    cbn [t_children with_children] in Hx. by apply filter_In in Hx as [? _].
Qed.

(** ** Where the threads of the result come from *)

(** Every annotation in the tree that [buildThread] returns is an annotation
    of the input, on a thread whose id is the identity of that annotation.
    No thread is made up, and no annotation moves to another id. *)
Theorem threads_come_from_annotations fuel annotations opts root :
  buildThread fuel annotations opts = Ret root →
  ∀ node a, In node (descendants root) → t_annotation node = Some a →
    In a annotations ∧ t_id node = annotationId a.
Proof.
  intros H node a Hnode Ha. apply buildThread_Ret in H as (thread & Hthread & ->).
  apply project_nodes in Hnode as (x & cmp & d & Hx & ->).
  destruct (passOver_fields opts cmp d x) as (Hid & Hann & _).
  rewrite Hid. rewrite Hann in Ha.
  destruct (threadAnnotations_nodes _ _ _ Hthread x Hx) as (Hin & _).
  destruct (Hin a Ha) as [? ?]. done.
Qed.

Lemma threads_come_from_annotations_witness :
  ∃ root top a,
    buildThread 4 sameId defaultOpts = Ret root
    ∧ t_children root = [top]
    ∧ t_annotation top = Some a ∧ ann_tag a = "other"
    ∧ In a sameId ∧ t_id top = annotationId a.
Proof.
  assert (Hroot : ∃ root top a,
            buildThread 4 sameId defaultOpts = Ret root
            ∧ t_children root = [top] ∧ In top (descendants root)
            ∧ t_annotation top = Some a ∧ ann_tag a = "other").
  { do 3 eexists. split; [vm_compute; reflexivity|].
    split; [reflexivity|]. split; [left; reflexivity|]. split; reflexivity. }
  destruct Hroot as (root & top & a & Hroot & Hch & Hin & Hann & Htag).
  exists root, top, a. do 4 (split; [done|]).
  exact (threads_come_from_annotations 4 sameId defaultOpts root Hroot top a Hin Hann).
Defined.

(** ** Default state of the threads *)

(** Without an annotation filter, the visible threads are the threads that
    have an annotation. *)
Theorem unfiltered_threads_are_visible fuel annotations opts root :
  filterFn opts = None →
  buildThread fuel annotations opts = Ret root →
  ∀ node, In node (descendants root) →
    t_visible node = match t_annotation node with Some _ => true | None => false end.
Proof.
  intros Hf H node Hnode. apply buildThread_Ret in H as (thread & Hthread & ->).
  apply project_nodes in Hnode as (x & cmp & d & Hx & ->).
  destruct (passOver_fields opts cmp d x) as (_ & -> & _ & _ & -> & _).
  destruct (threadAnnotations_nodes _ _ _ Hthread x Hx) as (_ & Hv & _).
  unfold setVisible. cbn [t_visible with_visible]. rewrite Hf.
  by destruct (t_annotation x).
Qed.

Lemma unfiltered_threads_are_visible_witness :
  ∃ root parent reply,
    buildThread 4 missingParent defaultOpts = Ret root
    ∧ In parent (t_children root) ∧ t_children parent = [reply]
    ∧ t_annotation parent = None ∧ t_visible parent = false
    ∧ t_visible reply = true.
Proof.
  assert (Hroot : ∃ root parent reply,
            buildThread 4 missingParent defaultOpts = Ret root
            ∧ In parent (t_children root) ∧ t_children parent = [reply]
            ∧ t_annotation parent = None
            ∧ t_annotation reply = Some replyToMissing
            ∧ In parent (descendants root) ∧ In reply (descendants root)).
  { do 3 eexists. split; [vm_compute; reflexivity|].
    split; [left; reflexivity|]. do 3 (split; [reflexivity|]).
    split; [left; reflexivity|right; left; reflexivity]. }
  destruct Hroot as (root & parent & reply & Hroot & Hp & Hch & Hann & Hann' & Hin & Hin').
  exists root, parent, reply. do 4 (split; [done|]).
  pose proof (unfiltered_threads_are_visible 4 missingParent defaultOpts root
                eq_refl Hroot) as H.
  split.
  - rewrite (H parent Hin). by rewrite Hann.
  - rewrite (H reply Hin'). by rewrite Hann'.
Defined.

(** Without an annotation filter, and for ids that are not names that the
    table inherits, a thread that has no entry in [expanded] is collapsed
    when it has no parent, as the top-level threads are, and not collapsed
    when it has one. *)
Theorem collapsed_by_default fuel annotations opts root :
  ordinaryInput annotations = true →
  filterFn opts = None →
  buildThread fuel annotations opts = Ret root →
  (∀ node, In node (descendants root) → expanded opts !! t_id node = None →
     t_collapsed node = negb (truthy_opt (t_parent node)))
  ∧ (∀ top, In top (t_children root) → expanded opts !! t_id top = None →
       t_collapsed top = true).
Proof.
  intros _ Hf H. apply buildThread_Ret in H as (thread & Hthread & ->).
  assert (Hnodes : ∀ x cmp d, In x (descendants thread) →
            expanded opts !! t_id (passOver opts cmp d x) = None →
            t_collapsed (passOver opts cmp d x) = negb (truthy_opt (t_parent x))).
  { intros x cmp d Hx He.
    destruct (passOver_fields opts cmp d x) as (Hid & _ & _ & _ & _ & -> & _).
    rewrite Hid in He.
    destruct (threadAnnotations_nodes _ _ _ Hthread x Hx) as (_ & _ & Hc & _).
    unfold setCollapsed. destruct (mapThread_fields x (setVisible opts)) as (-> & _).
    cbn [setVisible with_visible t_id]. rewrite He, Hf.
    cbn [with_collapsed t_collapsed]. rewrite andb_true_r, mapThread_unfold.
    cbn [with_children t_collapsed setVisible with_visible]. exact Hc. }
  split.
  - intros node Hnode He.
    apply project_nodes in Hnode as (x & cmp & d & Hx & ->).
    destruct (passOver_fields opts cmp d x) as (_ & _ & -> & _). by apply Hnodes.
  - intros top Htop He.
    apply project_children in Htop as (x & Hx & _ & ->).
    apply selectTopLevel_children in Hx.
    rewrite Hnodes; [|apply in_descendants; eauto using subthreads_self|done].
    by rewrite (threadAnnotations_top_level _ _ _ Hthread x Hx).
Qed.

Lemma collapsed_by_default_witness :
  ∃ root top reply,
    buildThread 4 forcedSample defaultOpts = Ret root
    ∧ In top (t_children root) ∧ t_children top = [reply]
    ∧ t_collapsed top = true ∧ t_collapsed reply = false.
Proof.
  assert (Hroot : ∃ root top reply,
            buildThread 4 forcedSample defaultOpts = Ret root
            ∧ In top (t_children root) ∧ t_children top = [reply]
            ∧ In reply (descendants root) ∧ t_parent reply = Some "1").
  { do 3 eexists. split; [vm_compute; reflexivity|].
    split; [left; reflexivity|]. split; [reflexivity|].
    split; [right; left; reflexivity|reflexivity]. }
  destruct Hroot as (root & top & reply & Hroot & Htop & Hch & Hin & Hpar).
  exists root, top, reply. do 3 (split; [done|]).
  destruct (collapsed_by_default 4 forcedSample defaultOpts root eq_refl eq_refl Hroot)
    as [Hnode Htops].
  split.
  - by apply Htops.
  - rewrite (Hnode reply Hin eq_refl). by rewrite Hpar.
Defined.

(** Only the root carries [totalChildren]: it is the number of the top-level
    threads that are left, and no other thread has the field. *)
Theorem only_root_has_totalChildren fuel annotations opts root :
  buildThread fuel annotations opts = Ret root →
  t_totalChildren root = Some (Z.of_nat (length (t_children root)))
  ∧ ∀ node, In node (descendants root) → t_totalChildren node = None.
Proof.
  intros H. apply buildThread_Ret in H as (thread & Hthread & ->). split.
  - destruct (project_shape opts thread) as [t ->]. done.
  - intros node Hnode.
    apply project_nodes in Hnode as (x & cmp & d & Hx & ->).
    destruct (passOver_fields opts cmp d x) as (_ & _ & _ & -> & _).
    by destruct (threadAnnotations_nodes _ _ _ Hthread x Hx) as (_ & _ & _ & ?).
Qed.

Lemma only_root_has_totalChildren_witness :
  ∃ root,
    buildThread 4 forcedSample defaultOpts = Ret root
    ∧ t_totalChildren root = Some 2%Z
    ∧ map t_totalChildren (descendants root) = [None; None; None].
Proof.
  eexists. split; [vm_compute; reflexivity|]. split; [|reflexivity].
  exact (proj1 (only_root_has_totalChildren 4 forcedSample defaultOpts _ eq_refl)).
Defined.

(** ** The ids of the top-level threads *)

Lemma NoDup_map_filter {A B} (f : A → B) (p : A → bool) l :
  List.NoDup (map f l) → List.NoDup (map f (List.filter p l)).
Proof.
  induction l as [|x l IH]; [done|]. cbn [map List.filter]. intros H.
  apply List.NoDup_cons_iff in H as [Hx H].
  destruct (p x); [|by apply IH]. cbn [map]. apply List.NoDup_cons_iff.
  split; [|by apply IH]. intros Hin. apply Hx.
  apply in_map_iff in Hin as (y & <- & Hy). apply filter_In in Hy as [Hy _].
  by apply (in_map f).
Qed.

Lemma threadAnnotations_top_ids fuel annotations thread :
  threadAnnotations fuel annotations = Ret thread →
  List.NoDup (map t_id (t_children thread)).
Proof.
  intros H.
  apply threadAnnotations_table in H as (threads & Hlink & Hok & Htops & _).
  assert (Hids : map t_id (t_children thread)
                 = List.filter (isRoot (objs threads)) (ownKeys threads)).
  { clear Hok. induction Htops as [|k top ks tops (o & Ho & _ & Hreads) _ IH]; [done|].
    cbn [map]. rewrite IH. f_equal.
    destruct Hreads as (-> & _).
    destruct (collapseRoot_fields true o) as (-> & _).
    apply (linked_fromInput _ _ _ Hlink k o Ho). }
  rewrite Hids. apply List.NoDup_filter.
  eapply Permutation_NoDup; [symmetry; apply ownKeys_perm|].
  apply NoDup_ListNoDup, Hok.
Qed.

(** No two top-level threads of the result have the same id. *)
Theorem top_level_ids_distinct fuel annotations opts root :
  buildThread fuel annotations opts = Ret root →
  List.NoDup (map t_id (t_children root)).
Proof.
  intros H. apply buildThread_Ret in H as (thread & Hthread & ->).
  apply threadAnnotations_top_ids in Hthread.
  rewrite project_split. unfold afterVisible, pruneInvisible.
  cbn [t_children with_totalChildren]. rewrite countRepliesAndDepth_children.
  rewrite sortThread_unfold. cbn [t_children with_children].
  rewrite mapThread_children. cbn [t_children with_children].
  rewrite map_map.
  eapply Permutation_NoDup.
  { symmetry. apply Permutation_map. unfold sort. apply array_sort_perm. }
  rewrite !map_map.
  assert (Hext : ∀ l : list Thread,
            map (fun x => t_id (countRepliesAndDepth
                                  (sortThread (mapThread x (setCollapsed opts))
                                              (replySortCompareFn opts)
                                              (replySortCompareFn opts)) (-1 + 1))) l
            = map t_id l).
  { intros l. apply map_ext. intros x.
    destruct (countRepliesAndDepth_fields
                (sortThread (mapThread x (setCollapsed opts)) (replySortCompareFn opts)
                            (replySortCompareFn opts)) (-1 + 1)) as (-> & _).
    destruct (sortThread_fields (mapThread x (setCollapsed opts))
                (replySortCompareFn opts) (replySortCompareFn opts)) as (-> & _).
    destruct (mapThread_fields x (setCollapsed opts)) as (-> & _).
    by destruct (setCollapsed_fields opts x) as (-> & _). }
  rewrite Hext. apply NoDup_map_filter.
  rewrite mapThread_children, map_map.
  assert (Hext' : ∀ l : list Thread,
            map (fun x => t_id (mapThread x (setVisible opts))) l = map t_id l).
  { intros l. apply map_ext. intros x.
    destruct (mapThread_fields x (setVisible opts)) as (-> & _).
    by destruct (setVisible_fields opts x) as (-> & _). }
  rewrite Hext'. unfold selectTopLevel.
  destruct (threadFilterFn opts); cbn [t_children with_children].
  - apply NoDup_map_filter.
    destruct (hasSelection opts); [|done].
    cbn [t_children with_children]. by apply NoDup_map_filter.
  - destruct (hasSelection opts); [|done].
    cbn [t_children with_children]. by apply NoDup_map_filter.
Qed.

Lemma top_level_ids_distinct_witness :
  ∃ root,
    buildThread 4 sameId defaultOpts = Ret root
    ∧ map t_id (t_children root) = ["1"]
    ∧ List.NoDup (map t_id (t_children root)).
Proof.
  eexists. split; [vm_compute; reflexivity|]. split; [reflexivity|].
  exact (top_level_ids_distinct 4 sameId defaultOpts _ eq_refl).
Defined.

(** * Linking *)

(** ** What [setParent] changes *)

Lemma grown_refl o : grown o o.
Proof. repeat split. exists []. by rewrite app_nil_r. Qed.

Lemma grown_trans o1 o2 o3 : grown o1 o2 → grown o2 o3 → grown o1 o3.
Proof.
  intros (Hi & Ha & l & Hl) (Hi' & Ha' & l' & Hl'). repeat split; try congruence.
  exists (l ++ l'). by rewrite Hl', Hl, app_assoc.
Qed.

Lemma attach_lookup (threads : gmap string ThreadObj) id parentId k o :
  threads !! k = Some o →
  alter (push_child id) parentId (alter (set_parent parentId) id threads) !! k
  = Some ((if decide (k = parentId) then push_child id else fun o => o)
            ((if decide (k = id) then set_parent parentId else fun o => o) o)).
Proof.
  intros Hk. destruct (decide (k = parentId)) as [->|Hkp].
  - rewrite lookup_alter_eq. destruct (decide (parentId = id)) as [->|Hki].
    + by rewrite lookup_alter_eq, Hk.
    + by rewrite lookup_alter_ne, Hk.
  - rewrite lookup_alter_ne by done. destruct (decide (k = id)) as [->|Hki].
    + by rewrite lookup_alter_eq, Hk.
    + by rewrite lookup_alter_ne.
Qed.

Lemma attach_lookup_inv (threads : gmap string ThreadObj) id parentId k o' :
  alter (push_child id) parentId (alter (set_parent parentId) id threads) !! k = Some o' →
  ∃ o, threads !! k = Some o
       ∧ o_parent o' = (if decide (k = id) then Some parentId else o_parent o)
       ∧ o_children o' = (if decide (k = parentId) then o_children o ++ [id]
                          else o_children o)
       ∧ o_id o' = o_id o ∧ o_annotation o' = o_annotation o.
Proof.
  intros H. destruct (threads !! k) as [o|] eqn:Hk.
  - rewrite (attach_lookup _ _ _ _ _ Hk) in H. injection H as <-.
    exists o. split; [done|]. by destruct (decide (k = id)), (decide (k = parentId)).
  - assert (alter (push_child id) parentId
                   (alter (set_parent parentId) id threads) !! k = None) as Hnone
      by (by rewrite !lookup_alter_None).
    congruence.
Qed.

Lemma setParent_grows fuel :
  ∀ threads id parents threads',
    setParent fuel threads id parents = Ret threads' →
    ∀ k o, objs threads !! k = Some o →
      ∃ o', objs threads' !! k = Some o' ∧ grown o o'
            ∧ (o_parent o' = o_parent o
               ∨ (k = id ∧ truthy_opt (o_parent o) = false
                  ∧ o_parent o' = Some (List.last parents ""))).
Proof.
  induction fuel as [|fuel IH]; intros threads id parents threads' H k o Hk; [done|].
  rewrite setParent_unfold in H.
  destruct (objs threads !! id) as [thread|] eqn:Hid; [|done].
  destruct (truthy_opt (o_parent thread) || (length parents =? 0)%nat) eqn:Hc.
  { injection H as <-. exists o. split; [done|]. split; [apply grown_refl|by left]. }
  apply orb_false_iff in Hc as [Hp _].
  set (parentId := List.last parents "") in *. cbv zeta in H.
  apply bind_Ret in H as (threads1 & H1 & H).
  apply bind_Ret in H as (ok & Hok & H).
  assert (H1' : ∃ o1, objs threads1 !! k = Some o1 ∧ grown o o1
                      ∧ o_parent o1 = o_parent o).
  { destruct (objs threads !! parentId) as [parent|] eqn:Hparent.
    - injection H1 as <-. exists o. split; [done|]. split; [apply grown_refl|done].
    - assert (k ≠ parentId) as Hkp by (intros ->; congruence).
      destruct (IH _ _ _ _ H1 k o) as (o1 & Ho1 & Hg & Hpar).
      { cbn [objs assign]. by rewrite lookup_insert_ne. }
      exists o1. split; [done|]. split; [done|].
      by destruct Hpar as [?|(? & _)]. }
  destruct H1' as (o1 & Ho1 & Hg1 & Hpar1).
  destruct ok.
  - apply attach_Ret in H as [_ ->]. cbn [objs update].
    rewrite (attach_lookup _ _ _ _ _ Ho1). eexists. split; [done|]. split.
    + eapply grown_trans; [exact Hg1|].
      destruct (decide (k = parentId)), (decide (k = id));
        (split; [done|]; split; [done|]);
        solve [by exists [id] | exists []; cbn; by rewrite app_nil_r].
    + destruct (decide (k = id)) as [->|Hki].
      * right. split; [done|]. rewrite Hk in Hid. injection Hid as ->.
        split; [done|]. by destruct (decide (id = parentId)).
      * left. by destruct (decide (k = parentId)).
  - injection H as <-. exists o1. split; [done|]. split; [done|by left].
Qed.

(** [setParent] removes no thread of the table and changes no id and no
    annotation; it adds children after those a thread has; and the only
    parent it sets on a thread that was in the table is the parent of [id],
    when [id] had none, to the last of [parents]. *)
Theorem setParent_only_adds fuel threads id parents threads' :
  setParent fuel threads id parents = Ret threads' →
  ∀ k o, objs threads !! k = Some o →
    ∃ o', objs threads' !! k = Some o'
          ∧ o_id o' = o_id o ∧ o_annotation o' = o_annotation o
          ∧ (∃ added, o_children o' = o_children o ++ added)
          ∧ (o_parent o' = o_parent o
             ∨ (k = id ∧ truthy_opt (o_parent o) = false
                ∧ o_parent o' = Some (List.last parents ""))).
Proof.
  intros H k o Hk.
  destruct (setParent_grows _ _ _ _ _ H k o Hk) as (o' & Ho' & (Hi & Ha & Hch) & Hp).
  exists o'. done.
Qed.

Lemma setParent_only_adds_witness :
  ∃ threads' reply,
    setParent 3 chain3Threads "3" ["1"; "2"] = Ret threads'
    ∧ objs threads' !! "3" = Some reply
    ∧ o_parent reply = Some "2".
Proof.
  assert (H : ∃ threads', setParent 3 chain3Threads "3" ["1"; "2"] = Ret threads')
    by (eexists; vm_compute; reflexivity).
  destruct H as [threads' H].
  destruct (setParent_only_adds 3 chain3Threads "3" ["1"; "2"] threads' H
              "3" (newThread (saved "3" ["1"; "2"])) eq_refl)
    as (reply & Hreply & _ & _ & _ & [Hp|(_ & _ & Hp)]).
  - exfalso. revert H Hreply Hp. vm_compute. intros H. injection H as <-.
    intros Hreply. injection Hreply as <-. discriminate.
  - exists threads', reply. done.
Defined.

(** ** Parents come from adjacent references *)

Section Adjacent_references.
Variable R : string → string → Prop.

Lemma setParent_adjacent fuel :
  ∀ threads id parents rest threads',
    (∀ p k, adjacent (parents ++ id :: rest) p k → R p k) →
    map_Forall (fun k o => ∀ p, o_parent o = Some p → R p k) (objs threads) →
    setParent fuel threads id parents = Ret threads' →
    map_Forall (fun k o => ∀ p, o_parent o = Some p → R p k) (objs threads').
Proof.
  induction fuel as [|fuel IH]; intros threads id parents rest threads' HR HQ H; [done|].
  rewrite setParent_unfold in H.
  destruct (objs threads !! id) as [thread|] eqn:Hid; [|done].
  destruct (truthy_opt (o_parent thread) || (length parents =? 0)%nat) eqn:Hc;
    [by injection H as <-|].
  apply orb_false_iff in Hc as [_ Hlen].
  pose proof (parents_split parents Hlen) as Hsplit.
  set (parentId := List.last parents "") in *. cbv zeta in H.
  apply bind_Ret in H as (threads1 & H1 & H).
  apply bind_Ret in H as (ok & Hok & H).
  assert (HQ1 : map_Forall (fun k o => ∀ p, o_parent o = Some p → R p k) (objs threads1)).
  { destruct (objs threads !! parentId) as [parent|] eqn:Hparent.
    - by injection H1 as <-.
    - eapply (IH _ _ _ (id :: rest)); [| |exact H1].
      + intros p k Hadj. apply HR. rewrite Hsplit, <- app_assoc. exact Hadj.
      + cbn [objs assign]. apply map_Forall_insert_2; [done|exact HQ]. }
  destruct ok; [|by injection H as <-].
  apply attach_Ret in H as [_ ->]. cbn [objs update].
  intros k o Hk p Hp.
  apply attach_lookup_inv in Hk as (o1 & Hk & Hpar & _). rewrite Hpar in Hp.
  destruct (decide (k = id)) as [->|Hki].
  - injection Hp as <-. apply HR. exists (removelast parents), rest.
    by rewrite Hsplit at 1; rewrite <- app_assoc.
  - by apply (HQ1 k o1).
Qed.
End Adjacent_references.

Lemma linkThreads_adjacent fuel annotations :
  ∀ l threads threads',
    (∀ a, In a l → In a annotations) →
    map_Forall (fun k o => ∀ p, o_parent o = Some p →
                  ∃ a, In a annotations ∧ adjacent (referenceChain a) p k)
               (objs threads) →
    linkThreads fuel l threads = Ret threads' →
    map_Forall (fun k o => ∀ p, o_parent o = Some p →
                  ∃ a, In a annotations ∧ adjacent (referenceChain a) p k)
               (objs threads').
Proof.
  unfold linkThreads.
  induction l as [|a l IH]; intros threads threads' Hl HQ H.
  - by injection H as <-.
  - cbn [foldM] in H. apply bind_Ret in H as (threads1 & H1 & H).
    eapply IH; [|     |exact H].
    + intros a' Ha'. apply Hl. by right.
    + eapply (setParent_adjacent _ _ _ _ _ []); [|exact HQ|exact H1].
      intros p k Hadj. exists a. split; [apply Hl; by left|exact Hadj].
Qed.

(** The parent of a thread is the id that comes immediately before the id of
    the thread in the reference chain of an annotation of the input: a
    thread is only ever put under the nearest ancestor that some annotation
    names for it. *)
Theorem parent_is_preceding_reference fuel annotations opts root :
  buildThread fuel annotations opts = Ret root →
  ∀ node p, In node (descendants root) → t_parent node = Some p →
    ∃ a, In a annotations ∧ adjacent (referenceChain a) p (t_id node).
Proof.
  intros H node p Hnode Hp. apply buildThread_Ret in H as (thread & Hthread & ->).
  apply project_nodes in Hnode as (x & cmp & d & Hx & ->).
  destruct (passOver_fields opts cmp d x) as (Hid & _ & Hpar & _).
  rewrite Hid. rewrite Hpar in Hp.
  apply threadAnnotations_table in Hthread as (threads & Hlink & _ & _ & Hnodes).
  destruct (Hnodes x Hx) as (k & o & Ho & (Hi & _ & Hpx & _)).
  destruct (collapseRoot_fields true o) as (Hi' & _ & Hp' & _).
  rewrite Hi, Hi'. rewrite Hpx, Hp' in Hp.
  destruct (linked_fromInput _ _ _ Hlink k o Ho) as [-> _].
  eapply (linkThreads_adjacent fuel annotations annotations); [done| |exact Hlink|exact Ho|exact Hp].
  intros k' o' Hk' p'. apply createThreads_objects in Hk' as (a & _ & _ & ->). done.
Qed.

Lemma parent_is_preceding_reference_witness :
  ∃ root top reply,
    buildThread 4 chain3 defaultOpts = Ret root
    ∧ t_children root = [top] ∧ t_children top = [reply]
    ∧ t_id reply = "2" ∧ t_parent reply = Some "1"
    ∧ ∃ a, In a chain3 ∧ adjacent (referenceChain a) "1" "2".
Proof.
  assert (Hroot : ∃ root top reply,
            buildThread 4 chain3 defaultOpts = Ret root
            ∧ t_children root = [top] ∧ t_children top = [reply]
            ∧ t_id reply = "2" ∧ t_parent reply = Some "1"
            ∧ In reply (descendants root)).
  { do 3 eexists. split; [vm_compute; reflexivity|].
    do 4 (split; [reflexivity|]). right; left; reflexivity. }
  destruct Hroot as (root & top & reply & Hroot & Hch & Hch' & Hid & Hpar & Hin).
  exists root, top, reply. do 5 (split; [done|]).
  rewrite <- Hid.
  exact (parent_is_preceding_reference 4 chain3 defaultOpts root Hroot reply "1" Hin Hpar).
Defined.

(** ** The test before a thread is attached *)

Lemma parentOf_unique (threads : gmap string ThreadObj) p p' k :
  parentOf threads p k → parentOf threads p' k → p = p'.
Proof. intros (o & Ho & Hp & _) (o' & Ho' & Hp' & _). congruence. Qed.

Lemma ancestor_inv (threads : gmap string ThreadObj) x k :
  ancestor threads x k →
  ∃ p, parentOf threads p k ∧ (p = x ∨ ancestor threads x p).
Proof. intros [k' H|p k' H Hp]; eauto. Qed.

Lemma hasPathToRoot_true_root fuel (threads : gmap string ThreadObj) id ancestorId :
  hasPathToRoot fuel threads id ancestorId = Ret true →
  (∃ top, (top = ancestorId ∨ ancestor threads top ancestorId)
          ∧ isRoot threads top = true)
  ∧ ¬ ancestor threads id ancestorId.
Proof.
  revert ancestorId. induction fuel as [|fuel IH]; intros ancestorId H; [done|].
  rewrite hasPathToRoot_unfold in H.
  destruct (threads !! ancestorId) as [o|] eqn:Ho; [|done].
  destruct (o_parent o) as [p|] eqn:Hp.
  - destruct (String.eqb p id) eqn:Hid; [done|]. apply String.eqb_neq in Hid.
    destruct (truthy p) eqn:Htruthy; cbn [negb] in H.
    + assert (Hpar : parentOf threads p ancestorId) by (by exists o).
      destruct (IH _ H) as [(top & Htop & Hroot) Hnot]. split.
      * exists top. split; [|done]. right.
        destruct Htop as [->|Htop]; [by constructor|by eapply ancestor_up].
      * intros Hanc. apply ancestor_inv in Hanc as (p' & Hp' & Hanc).
        rewrite (parentOf_unique _ _ _ _ Hp' Hpar) in Hanc.
        by destruct Hanc.
    + split.
      * exists ancestorId. split; [by left|]. unfold isRoot. rewrite Ho, Hp. cbn.
        by rewrite Htruthy.
      * intros Hanc. apply ancestor_inv in Hanc as (p' & (o' & Ho' & Hp' & Ht) & _).
        congruence.
  - split.
    + exists ancestorId. split; [by left|]. unfold isRoot. by rewrite Ho, Hp.
    + intros Hanc. apply ancestor_inv in Hanc as (p' & (o' & Ho' & Hp' & Ht) & _).
      congruence.
Qed.



(** * Termination *)

(** ** Well-founded links *)

Lemma Acc_subrelation {A} (R R' : A → A → Prop) :
  (∀ y x, R' y x → R y x) → ∀ x, Acc R x → Acc R' x.
Proof.
  intros Hsub x Hx. induction Hx as [x _ IH]. constructor.
  intros y Hy. by apply IH, Hsub.
Qed.

Lemma Acc_add_edge {A} (R R' : A → A → Prop) (a b : A) :
  (∀ y x, R' y x → R y x ∨ (y = a ∧ x = b)) →
  ¬ tc R b a → a ≠ b →
  (∀ x, Acc R x) → ∀ x, Acc R' x.
Proof.
  intros Hsub Hnot Hne Hacc.
  assert (Hfar : ∀ x, Acc R x → x ≠ b → ¬ tc R b x → Acc R' x).
  { intros x Hx. induction Hx as [x _ IH]. intros Hxb Hbx. constructor.
    intros y Hy. apply Hsub in Hy as [Hy|[_ ->]]; [|done].
    apply IH; [done| |].
    - intros ->. apply Hbx. by apply tc_once.
    - intros Hby. apply Hbx. by eapply tc_r. }
  intros x. induction (Hacc x) as [x _ IH]. constructor.
  intros y Hy. apply Hsub in Hy as [Hy|[-> ->]]; [by apply IH|].
  by apply Hfar.
Qed.

Lemma ancestor_below (threads : gmap string ThreadObj) x y k :
  parentOf threads x y → ancestor threads y k → ancestor threads x k.
Proof.
  intros Hxy. induction 1 as [k Hk|p k _ IH Hk].
  - eapply ancestor_up; [by apply ancestor_parent|done].
  - by eapply ancestor_up.
Qed.

Lemma tc_parentOf_ancestor (threads : gmap string ThreadObj) x k :
  tc (parentOf threads) x k → ancestor threads x k.
Proof.
  induction 1 as [x k H|x y k H _ IH]; [by apply ancestor_parent|].
  by eapply ancestor_below.
Qed.

Lemma childOf_parentOf (threads : gmap string ThreadObj) c k :
  well_linked threads → childOf threads c k → parentOf threads k c.
Proof.
  intros (_ & Hch & Hne) (o & Ho & Hc).
  destruct (Hch k o c Ho Hc) as (co & Hco & Hpar).
  exists co. split; [done|]. split; [done|].
  apply truthy_true. by eapply Hne.
Qed.

Lemma tc_childOf_ancestor (threads : gmap string ThreadObj) c k :
  well_linked threads → tc (childOf threads) c k → ancestor threads k c.
Proof.
  intros Hwl. induction 1 as [c k H|c y k H _ IH].
  - by apply ancestor_parent, childOf_parentOf.
  - eapply ancestor_up; [exact IH|]. by apply childOf_parentOf.
Qed.

Lemma well_founded_placeholder (threads : gmap string ThreadObj) x :
  threads !! x = None →
  well_founded_links threads →
  well_founded_links (<[x := placeholder x]> threads).
Proof.
  intros Hx [Hup Hdown]. split; intros k.
  - apply (Acc_subrelation (parentOf threads)); [|apply Hup].
    intros p k' (o & Ho & Hp & Ht). apply lookup_insert_Some in Ho as [[<- <-]|[_ Ho]].
    + done.
    + by exists o.
  - apply (Acc_subrelation (childOf threads)); [|apply Hdown].
    intros c k' (o & Ho & Hc). apply lookup_insert_Some in Ho as [[<- <-]|[_ Ho]].
    + done.
    + by exists o.
Qed.

Lemma well_founded_attach (threads : gmap string ThreadObj) id parentId :
  well_linked threads → well_founded_links threads →
  id ≠ parentId → ¬ ancestor threads id parentId →
  well_founded_links
    (alter (push_child id) parentId (alter (set_parent parentId) id threads)).
Proof.
  intros Hwl [Hup Hdown] Hne Hnot. split.
  - apply (Acc_add_edge (parentOf threads) _ parentId id); [| |done|done].
    + intros p k (o' & Ho' & Hp & Ht).
      apply attach_lookup_inv in Ho' as (o & Ho & Hpar & _). rewrite Hpar in Hp.
      destruct (decide (k = id)) as [->|Hk].
      * injection Hp as <-. by right.
      * left. by exists o.
    + intros Htc. by apply Hnot, tc_parentOf_ancestor.
  - apply (Acc_add_edge (childOf threads) _ id parentId); [| |done|done].
    + intros c k (o' & Ho' & Hc).
      apply attach_lookup_inv in Ho' as (o & Ho & _ & Hch & _). rewrite Hch in Hc.
      destruct (decide (k = parentId)) as [->|Hk].
      * apply in_app_or in Hc as [Hc|[<-|[]]]; [|by right]. left. by exists o.
      * left. by exists o.
    + intros Htc. by apply Hnot, tc_childOf_ancestor.
Qed.

(** ** The calls return *)

Lemma hasPathToRoot_returns (threads : gmap string ThreadObj) id ancestorId :
  Acc (parentOf threads) ancestorId →
  ∃ fuel b, hasPathToRoot fuel threads id ancestorId = Ret b.
Proof.
  induction 1 as [ancestorId _ IH].
  destruct (threads !! ancestorId) as [o|] eqn:Ho.
  - destruct (o_parent o) as [p|] eqn:Hp.
    + destruct (String.eqb p id) eqn:Hid.
      * exists 1%nat, false. rewrite hasPathToRoot_unfold, Ho, Hp. by rewrite Hid.
      * destruct (truthy p) eqn:Ht.
        -- destruct (IH p) as (fuel & b & H); [by exists o|].
           exists (S fuel), b. rewrite hasPathToRoot_unfold, Ho, Hp. by rewrite Hid, Ht.
        -- exists 1%nat, true. rewrite hasPathToRoot_unfold, Ho, Hp. by rewrite Hid, Ht.
    + exists 1%nat, true. by rewrite hasPathToRoot_unfold, Ho, Hp.
  - exists 1%nat, false. by rewrite hasPathToRoot_unfold, Ho.
Qed.

Lemma setParent_returns parents :
  ∀ threads id,
    well_linked (objs threads) → well_founded_links (objs threads) →
    is_Some (objs threads !! id) →
    List.NoDup (parents ++ [id]) → ¬ In "" parents →
    ∃ fuel threads',
      setParent fuel threads id parents = Ret threads'
      ∧ well_founded_links (objs threads').
Proof.
  induction parents as [|parentId parents IH] using rev_ind;
    intros threads id Hwl Hwf [thread Hid] Hnodup Hne.
  { exists 1%nat, threads. split; [by eapply setParent_nil|done]. }
  destruct (truthy_opt (o_parent thread)) eqn:Hpar.
  { exists 1%nat, threads. split; [by eapply setParent_assigned|done]. }
  assert (Hneq : id ≠ parentId).
  { intros ->. rewrite <- app_assoc in Hnodup.
    apply List.NoDup_remove_2 in Hnodup. apply Hnodup.
    apply in_or_app. right. by left. }
  assert (HparentId : parentId ≠ "").
  { intros ->. apply Hne, in_or_app. right. by left. }
  assert (Hattach : ∀ fuel1 threads1,
            well_linked (objs threads1) → well_founded_links (objs threads1) →
            (∃ thread1, objs threads1 !! id = Some thread1
                        ∧ o_parent thread1 = o_parent thread) →
            ∃ fuel threads',
              (fuel1 ≤ fuel)%nat ∧
              (ok ← hasPathToRoot fuel (objs threads1) id parentId;
               if ok : bool then attach id parentId threads1 else Ret threads1)
              = Ret threads'
              ∧ well_founded_links (objs threads')).
  { intros fuel1 threads1 Hwl1 Hwf1 (thread1 & Hid1 & Hpar1).
    destruct (hasPathToRoot_returns (objs threads1) id parentId) as (fuel2 & ok & Hok);
      [apply Hwf1|].
    apply (hasPathToRoot_more _ (Nat.max fuel1 fuel2)) in Hok; [|lia].
    exists (Nat.max fuel1 fuel2). rewrite Hok. cbn. destruct ok.
    - destruct (hasPathToRoot_true _ _ _ _ Hok) as [parent1 Hparent1].
      rewrite (attach_ok _ _ _ _ _ Hid1 Hparent1). eexists. split; [lia|].
      split; [done|]. cbn [objs update].
      apply well_founded_attach; [done|done|done|].
      by apply (hasPathToRoot_true_root _ _ _ _ Hok).
    - exists threads1. split; [lia|]. done. }
  destruct (objs threads !! parentId) as [parent|] eqn:Hparent.
  - destruct (Hattach 0%nat threads Hwl Hwf) as (fuel & threads' & _ & H & Hwf'); [eauto|].
    exists (S fuel), threads'. split; [|done].
    by rewrite (setParent_existing _ _ _ _ _ _ _ Hid Hpar Hparent).
  - destruct (IH (assign parentId (placeholder parentId) threads) parentId)
      as (fuel1 & threads1 & H1 & Hwf1).
    + cbn [objs assign]. by apply well_linked_placeholder.
    + cbn [objs assign]. by apply well_founded_placeholder.
    + cbn [objs assign]. by rewrite lookup_insert_eq.
    + by apply List.NoDup_app_remove_r in Hnodup.
    + intros Hin. apply Hne, in_or_app. by left.
    + pose proof H1 as H1'.
      apply setParent_well_linked in H1' as [Hwl1 Hpres1].
      2: { cbn [objs assign]. by apply well_linked_placeholder. }
      2: { intros Hin. apply Hne, in_or_app. by left. }
      destruct (Hpres1 id thread) as (thread1 & Hid1 & _ & _ & Hpar1).
      { cbn [objs assign]. by rewrite lookup_insert_ne. }
      destruct (Hattach fuel1 threads1 Hwl1 Hwf1) as (fuel & threads' & Hle & H & Hwf').
      { exists thread1. split; [done|]. by apply Hpar1. }
      exists (S fuel), threads'. split; [|done].
      rewrite (setParent_missing _ _ _ _ _ _ Hid Hpar Hparent).
      by rewrite (setParent_more _ _ _ _ _ _ Hle H1).
Qed.

Lemma linkThreads_more fuel fuel' annotations threads threads' :
  (fuel ≤ fuel')%nat →
  linkThreads fuel annotations threads = Ret threads' →
  linkThreads fuel' annotations threads = Ret threads'.
Proof.
  intros Hle. unfold linkThreads. apply foldM_more.
  intros s a s'. by apply setParent_more.
Qed.

Lemma linkThreads_returns annotations :
  ∀ threads,
    references_not_empty annotations → references_distinct annotations →
    well_linked (objs threads) → well_founded_links (objs threads) →
    (∀ a, In a annotations → is_Some (objs threads !! annotationId a)) →
    ∃ fuel threads',
      linkThreads fuel annotations threads = Ret threads'
      ∧ well_linked (objs threads') ∧ well_founded_links (objs threads').
Proof.
  induction annotations as [|a l IH]; intros threads Hrefs Hdist Hwl Hwf Hids.
  { by exists 0%nat, threads. }
  assert (Hne : ¬ In "" (parentsOf a)).
  { intros Hin. apply parentsOf_references in Hin.
    by apply (Hrefs a "" (or_introl eq_refl)). }
  destruct (setParent_returns (parentsOf a) threads (annotationId a))
    as (fuel1 & threads1 & H1 & Hwf1); [done|done|apply Hids; by left| |done|].
  { apply Hdist. by left. }
  destruct (setParent_well_linked _ _ _ _ _ Hwl Hne H1) as [Hwl1 Hpres1].
  destruct (IH threads1) as (fuel2 & threads' & H2 & Hwl' & Hwf'); [| |done|done| |].
  - intros a' r Ha'. apply Hrefs. by right.
  - intros a' Ha'. apply Hdist. by right.
  - intros a' Ha'. destruct (Hids a' (or_intror Ha')) as [o Ho].
    destruct (Hpres1 _ _ Ho) as (o' & Ho' & _). by exists o'.
  - exists (Nat.max fuel1 fuel2), threads'. split; [|done].
    unfold linkThreads. cbn [foldM].
    rewrite (setParent_more fuel1 (Nat.max fuel1 fuel2) _ _ _ _
               (Nat.le_max_l fuel1 fuel2) H1). cbn.
    apply (linkThreads_more fuel2); [lia|done].
Qed.

Lemma mapM_returns {A B} (f : nat → A → outcome B) l :
  (∀ fuel fuel' x y, (fuel ≤ fuel')%nat → f fuel x = Ret y → f fuel' x = Ret y) →
  (∀ x, In x l → ∃ fuel y, f fuel x = Ret y) →
  ∃ fuel ys, mapM (f fuel) l = Ret ys.
Proof.
  intros Hmore. induction l as [|x l IH]; intros Hl.
  { by exists 0%nat, []. }
  destruct (Hl x (or_introl eq_refl)) as (fuel1 & y & Hy).
  destruct IH as (fuel2 & ys & Hys); [intros x' Hx'; apply Hl; by right|].
  exists (Nat.max fuel1 fuel2), (y :: ys). cbn [mapM].
  rewrite (Hmore fuel1 (Nat.max fuel1 fuel2) x y (Nat.le_max_l fuel1 fuel2) Hy). cbn.
  rewrite (mapM_more (f fuel2) (f (Nat.max fuel1 fuel2)) l) with (ys := ys); [done| |done].
  intros x' y'. apply Hmore. lia.
Qed.

Lemma readThread_returns (threads : gmap string ThreadObj) :
  well_linked threads →
  ∀ k, Acc (childOf threads) k → is_Some (threads !! k) →
    ∃ fuel t, readThread fuel threads k = Ret t.
Proof.
  intros Hwl k Hacc. induction Hacc as [k _ IH]. intros [o Ho].
  destruct (mapM_returns (fun fuel => readThread fuel threads) (o_children o))
    as (fuel & children & Hch).
  - intros fuel fuel' x y Hle. by apply readThread_more.
  - intros c Hc. apply IH; [by exists o|].
    destruct Hwl as (_ & Hlinks & _).
    destruct (Hlinks k o c Ho Hc) as (co & Hco & _). by exists co.
  - exists (S fuel). eexists. rewrite readThread_unfold, Ho, Hch. done.
Qed.

Lemma threadAnnotations_returns annotations :
  references_not_empty annotations → references_distinct annotations →
  ∃ fuel thread, threadAnnotations fuel annotations = Ret thread.
Proof.
  intros Hrefs Hdist.
  destruct (linkThreads_returns annotations (createThreads annotations))
    as (fuel1 & threads & Hlink & Hwl & Hwf); [done|done| | | |].
  - apply createThreads_well_linked.
  - split; intros k; constructor.
    + intros p (o & Ho & Hp & _).
      apply createThreads_objects in Ho as (a & _ & _ & ->). done.
    + intros c (o & Ho & Hc).
      apply createThreads_objects in Ho as (a & _ & _ & ->). done.
  - intros a Ha. by apply create_In.
  - pose proof (collectRoots_well_linked threads Hwl) as Hwl'.
    pose proof (collectRoots_roots threads) as Hroots.
    assert (Hdown : ∀ k, Acc (childOf (objs (fst (collectRoots threads)))) k).
    { intros k. apply (Acc_subrelation (childOf (objs threads))); [|apply Hwf].
      intros c k' (o' & Ho' & Hc). unfold collectRoots in Ho'.
      destruct (collectRoots_spec (ownKeys threads) threads []) as (_ & _ & Hobjs).
      rewrite Hobjs in Ho'. destruct (objs threads !! k') as [o|] eqn:Ho; [|done].
      injection Ho' as <-. exists o. split; [done|].
      by destruct (collapseRoot_fields (includes (ownKeys threads) k') o)
        as (_ & _ & _ & <-). }
    destruct (mapM_returns
                (fun fuel => readThread fuel (objs (fst (collectRoots threads))))
                (snd (collectRoots threads))) as (fuel2 & children & Hch).
    + intros fuel fuel' x y Hle. by apply readThread_more.
    + intros k Hk. apply readThread_returns; [done|apply Hdown|].
      destruct (Hroots k Hk) as (o & Ho & _). by exists o.
    + exists (Nat.max fuel1 fuel2). eexists. unfold threadAnnotations.
      rewrite (linkThreads_more fuel1 (Nat.max fuel1 fuel2) _ _ _
                 (Nat.le_max_l fuel1 fuel2) Hlink). cbn.
      destruct (collectRoots threads) as [threads' rootThreads]. cbn [fst snd] in *.
      rewrite (mapM_more (readThread fuel2 (objs threads'))
                 (readThread (Nat.max fuel1 fuel2) (objs threads')) rootThreads)
        with (ys := children); [done| |exact Hch].
      intros x y. apply readThread_more. lia.
Qed.

(** [buildThread] returns a tree when no reference is the empty string, no
    annotation names an id twice in its references or names itself, no
    identity and no reference is a name that the table inherits, and
    [expanded] has no entry that hides its [hasOwnProperty]: every recursion
    of the code ends on such input, and a deeper stack does not change the
    result. *)
Theorem buildThread_returns annotations opts :
  references_not_empty annotations → references_distinct annotations →
  ordinaryInput annotations = true →
  expanded opts !! "hasOwnProperty" = None →
  ∃ fuel root, ∀ fuel', (fuel ≤ fuel')%nat →
    buildThread fuel' annotations opts = Ret root.
Proof.
  intros Hrefs Hdist _ _.
  destruct (threadAnnotations_returns annotations Hrefs Hdist) as (fuel & thread & H).
  exists fuel, (project opts thread). intros fuel' Hle.
  apply (buildThread_more fuel); [done|]. unfold buildThread. by rewrite H.
Qed.

Lemma buildThread_returns_witness :
  ∃ fuel root, ∀ fuel', (fuel ≤ fuel')%nat →
    buildThread fuel' mutual12 defaultOpts = Ret root.
Proof.
  apply buildThread_returns.
  - by apply referencesNotEmpty_true.
  - intros a [<-|[<-|[]]]; repeat constructor; cbn; intuition discriminate.
  - reflexivity.
  - reflexivity.
Defined.

(** * No thread below itself *)

Lemma createThreads_well_founded annotations :
  well_founded_links (objs (createThreads annotations)).
Proof.
  split; intros k; constructor.
  - intros p (o & Ho & Hp & _).
    apply createThreads_objects in Ho as (a & _ & _ & ->). done.
  - intros c (o & Ho & Hc).
    apply createThreads_objects in Ho as (a & _ & _ & ->). done.
Qed.

Lemma linkThreads_well_founded fuel annotations threads :
  references_not_empty annotations → references_distinct annotations →
  linkThreads fuel annotations (createThreads annotations) = Ret threads →
  well_linked (objs threads) ∧ well_founded_links (objs threads).
Proof.
  intros Hrefs Hdist H. split.
  { eapply linkThreads_well_linked; [exact Hrefs| |exact H].
    apply createThreads_well_linked. }
  destruct (linkThreads_returns annotations (createThreads annotations))
    as (fuel0 & threads0 & H0 & _ & Hwf); [done|done| | | |].
  - apply createThreads_well_linked.
  - apply createThreads_well_founded.
  - intros a Ha. by apply create_In.
  - apply (linkThreads_more _ (Nat.max fuel fuel0)) in H; [|lia].
    apply (linkThreads_more _ (Nat.max fuel fuel0)) in H0; [|lia].
    rewrite H in H0. by injection H0 as ->.
Qed.

Lemma collectRoots_links threads :
  (∀ p k, parentOf (objs (fst (collectRoots threads))) p k → parentOf (objs threads) p k)
  ∧ (∀ c k, childOf (objs (fst (collectRoots threads))) c k → childOf (objs threads) c k).
Proof.
  unfold collectRoots.
  destruct (collectRoots_spec (ownKeys threads) threads []) as (_ & _ & Hobjs).
  split.
  - intros p k (o' & Ho' & Hp & Ht). rewrite Hobjs in Ho'.
    destruct (objs threads !! k) as [o|] eqn:Ho; [|done].
    injection Ho' as <-. exists o. split; [done|]. split; [|done].
    by destruct (collapseRoot_fields (includes (ownKeys threads) k) o) as (_ & _ & <- & _).
  - intros c k (o' & Ho' & Hc). rewrite Hobjs in Ho'.
    destruct (objs threads !! k) as [o|] eqn:Ho; [|done].
    injection Ho' as <-. exists o. split; [done|].
    by destruct (collapseRoot_fields (includes (ownKeys threads) k) o) as (_ & _ & _ & <-).
Qed.

Lemma collectRoots_well_founded threads :
  well_founded_links (objs threads) →
  well_founded_links (objs (fst (collectRoots threads))).
Proof.
  intros [Hup Hdown]. destruct (collectRoots_links threads) as [Hp Hc].
  split; intros k.
  - by apply (Acc_subrelation (parentOf (objs threads))).
  - by apply (Acc_subrelation (childOf (objs threads))).
Qed.


Lemma readThread_below fuel :
  ∀ (threads : gmap string ThreadObj) k t,
    well_linked threads →
    readThread fuel threads k = Ret t →
    t_id t = k ∧ ∀ d, In d (descendants t) → tc (childOf threads) (t_id d) k.
Proof.
  induction fuel as [|fuel IH]; intros threads k t Hwl H; [done|].
  rewrite readThread_unfold in H.
  destruct (threads !! k) as [o|] eqn:Hk; [|done].
  apply bind_Ret in H as (children & Hch & H). injection H as <-.
  apply mapM_Ret in Hch. split.
  - cbn [t_id]. by apply Hwl.
  - intros d Hd. apply in_descendants in Hd as (c' & Hc' & Hd). cbn [t_children] in Hc'.
    destruct (Forall2_In_r _ _ _ _ Hch Hc') as (c & Hc & Hread).
    destruct (IH _ _ _ Hwl Hread) as [Hid Hbelow].
    assert (Hck : childOf threads c k) by (by exists o).
    rewrite subthreads_unfold in Hd. destruct Hd as [<-|Hd].
    + rewrite Hid. by apply tc_once.
    + eapply tc_r; [by apply Hbelow|done].
Qed.

Lemma Acc_not_own_ancestor (threads : gmap string ThreadObj) x :
  Acc (parentOf threads) x → ¬ ancestor threads x x.
Proof.
  induction 1 as [x _ IH]. intros Hanc.
  pose proof Hanc as Hanc'.
  apply ancestor_inv in Hanc' as (p & Hp & [->|Hxp]).
  - by apply (IH x).
  - apply (IH p Hp). by eapply ancestor_below.
Qed.







(** * Every annotation is shown *)

Section Table_invariant.
Variable P : gmap string ThreadObj → Prop.
Hypothesis P_placeholder :
  ∀ threads x, P threads → threads !! x = None → P (<[x := placeholder x]> threads).
Hypothesis P_attach :
  ∀ threads id parentId,
    P threads → is_Some (threads !! id) → is_Some (threads !! parentId) →
    P (alter (push_child id) parentId (alter (set_parent parentId) id threads)).

Lemma setParent_table fuel :
  ∀ threads id parents threads',
    P (objs threads) →
    setParent fuel threads id parents = Ret threads' → P (objs threads').
Proof.
  induction fuel as [|fuel IH]; intros threads id parents threads' HP H; [done|].
  rewrite setParent_unfold in H.
  destruct (objs threads !! id) as [thread|] eqn:Hid; [|done].
  destruct (truthy_opt (o_parent thread) || (length parents =? 0)%nat);
    [by injection H as <-|].
  cbv zeta in H.
  apply bind_Ret in H as (threads1 & H1 & H).
  apply bind_Ret in H as (ok & Hok & H).
  assert (HP1 : P (objs threads1)).
  { destruct (objs threads !! List.last parents "") as [parent|] eqn:Hparent.
    - by injection H1 as <-.
    - eapply IH; [|exact H1]. cbn [objs assign]. by apply P_placeholder. }
  destruct ok; [|by injection H as <-].
  pose proof (hasPathToRoot_true _ _ _ _ Hok) as Hparent1.
  apply attach_Ret in H as [Hid1 ->]. cbn [objs update]. by apply P_attach.
Qed.

Lemma linkThreads_table fuel annotations :
  ∀ threads threads',
    P (objs threads) →
    linkThreads fuel annotations threads = Ret threads' → P (objs threads').
Proof.
  unfold linkThreads.
  induction annotations as [|a l IH]; intros threads threads' HP H.
  - by injection H as <-.
  - cbn [foldM] in H. apply bind_Ret in H as (threads1 & H1 & H).
    eapply IH; [|exact H]. by eapply setParent_table.
Qed.
End Table_invariant.

Lemma linked_parent_lists_child fuel annotations threads :
  linkThreads fuel annotations (createThreads annotations) = Ret threads →
  parent_lists_child (objs threads).
Proof.
  apply (linkThreads_table parent_lists_child).
  - intros m x HP Hx k o p Hk Hp.
    apply lookup_insert_Some in Hk as [[<- <-]|[Hne Hk]]; [done|].
    destruct (HP k o p Hk Hp) as (po & Hpo & Hin).
    exists po. split; [|done]. rewrite lookup_insert_ne; [done|]. intros <-. congruence.
  - intros m id parentId HP _ [parent Hparent] k o' p Hk Hp.
    apply attach_lookup_inv in Hk as (o & Hk & Hpar & _). rewrite Hpar in Hp.
    destruct (decide (k = id)) as [->|Hne].
    + injection Hp as <-. rewrite (attach_lookup _ _ _ _ _ Hparent).
      eexists. split; [done|]. rewrite decide_True by done.
      destruct (decide (parentId = id)); cbn; apply in_or_app; right; by left.
    + destruct (HP k o p Hk Hp) as (po & Hpo & Hin).
      rewrite (attach_lookup _ _ _ _ _ Hpo). eexists. split; [done|].
      destruct (decide (p = parentId)), (decide (p = id)); cbn;
        try apply in_or_app; auto.
  - intros k o p Hk. apply createThreads_objects in Hk as (a & _ & _ & ->). done.
Qed.

Lemma subthreads_trans t n x :
  In n (subthreads t) → In x (subthreads n) → In x (subthreads t).
Proof.
  induction t as [i a p v c children tc rc d IH] using Thread_ind.
  intros Hn Hx. rewrite subthreads_unfold in Hn. destruct Hn as [<-|Hn]; [done|].
  apply in_descendants in Hn as (child & Hchild & Hn).
  eapply subthreads_child; [exact Hchild|].
  rewrite List.Forall_forall in IH. by apply (IH child Hchild).
Qed.

Lemma Forall2_In_l {A B} (R : A → B → Prop) l l' x :
  Forall2 R l l' → In x l → ∃ y, In y l' ∧ R x y.
Proof.
  induction 1 as [|x0 y0 l l' HR _ IH]; intros Hx; [destruct Hx|].
  destruct Hx as [<-|Hx].
  - exists y0. split; [by left|done].
  - destruct (IH Hx) as (y & Hy & HRy). exists y. split; [by right|done].
Qed.

Lemma readThread_child fuel (threads : gmap string ThreadObj) k t o c :
  readThread fuel threads k = Ret t → threads !! k = Some o → In c (o_children o) →
  ∃ ct fuel', In ct (t_children t) ∧ readThread fuel' threads c = Ret ct.
Proof.
  destruct fuel as [|fuel]; [done|]. rewrite readThread_unfold. intros H Ho Hc.
  rewrite Ho in H. apply bind_Ret in H as (children & Hch & H). injection H as <-.
  apply mapM_Ret in Hch. destruct (Forall2_In_l _ _ _ _ Hch Hc) as (ct & Hct & Hread).
  by exists ct, fuel.
Qed.

Lemma every_key_read (threads : gmap string ThreadObj) roots children :
  parent_lists_child threads →
  (∀ k o, threads !! k = Some o → truthy_opt (o_parent o) = false → In k roots) →
  Forall2 (fun k t => ∃ fuel, readThread fuel threads k = Ret t) roots children →
  ∀ k, Acc (parentOf threads) k → is_Some (threads !! k) →
    ∃ n fuel, In n (flat_map subthreads children) ∧ readThread fuel threads k = Ret n.
Proof.
  intros HP Hroots Hread k Hacc. induction Hacc as [k _ IH]. intros [o Ho].
  destruct (truthy_opt (o_parent o)) eqn:Hpar.
  - destruct (o_parent o) as [p|] eqn:Hp; [|done]. cbn in Hpar.
    destruct (HP k o p Ho Hp) as (po & Hpo & Hin).
    destruct (IH p) as (n & fuel & Hn & Hreadn); [by exists o|by exists po|].
    destruct (readThread_child _ _ _ _ _ _ Hreadn Hpo Hin) as (ct & fuel' & Hct & Hreadc).
    exists ct, fuel'. split; [|done].
    apply in_flat_map in Hn as (top & Htop & Hn). apply in_flat_map.
    exists top. split; [done|]. eapply subthreads_trans; [exact Hn|].
    eapply subthreads_child; [exact Hct|apply subthreads_self].
  - destruct (Forall2_In_l _ _ _ _ Hread (Hroots k o Ho Hpar)) as (t & Ht & fuel & Hreadt).
    exists t, fuel. split; [|done]. apply in_flat_map.
    exists t. split; [done|apply subthreads_self].
Qed.

Lemma linkThreads_grows fuel annotations :
  ∀ threads threads',
    linkThreads fuel annotations threads = Ret threads' →
    ∀ k o, objs threads !! k = Some o →
      ∃ o', objs threads' !! k = Some o' ∧ grown o o'.
Proof.
  unfold linkThreads.
  induction annotations as [|a l IH]; intros threads threads' H k o Hk.
  - injection H as <-. exists o. split; [done|apply grown_refl].
  - cbn [foldM] in H. apply bind_Ret in H as (threads1 & H1 & H).
    destruct (setParent_grows _ _ _ _ _ H1 k o Hk) as (o1 & Ho1 & Hg1 & _).
    destruct (IH _ _ H k o1 Ho1) as (o' & Ho' & Hg').
    exists o'. split; [done|]. by eapply grown_trans.
Qed.

(** Every annotation has its thread in the tree of [threadAnnotations]. *)
Lemma threadAnnotations_complete fuel annotations thread :
  references_not_empty annotations → references_distinct annotations →
  threadAnnotations fuel annotations = Ret thread →
  ∀ a, In a annotations →
    ∃ node a', In node (descendants thread) ∧ t_id node = annotationId a
               ∧ t_annotation node = Some a'
               ∧ In a' annotations ∧ annotationId a' = annotationId a.
Proof.
  intros Hrefs Hdist H a Ha. unfold threadAnnotations in H.
  apply bind_Ret in H as (threads & Hlink & H).
  pose proof (linked_parent_lists_child _ _ _ Hlink) as HP.
  pose proof (linkThreads_keys_ok _ _ _ _ (create_keys_ok _ _ keys_ok_empty) Hlink) as Hok.
  pose proof (linkThreads_grows _ _ _ _ Hlink) as Hgrows.
  destruct (linkThreads_well_founded _ _ _ Hrefs Hdist Hlink) as [Hwl Hwf].
  pose proof (collectRoots_well_founded threads Hwf) as [Hup' _].
  destruct (collectRoots_links threads) as [_ _].
  unfold collectRoots in *.
  destruct (collectRoots_spec (ownKeys threads) threads []) as (Hroots & _ & Hobjs).
  destruct (foldl collectStep (threads, []) (ownKeys threads)) as [threads' rootThreads].
  cbn [fst snd app] in *. subst rootThreads.
  apply bind_Ret in H as (children & Hch & H). injection H as <-.
  apply mapM_Ret in Hch. unfold descendants. cbn [t_children].
  assert (Hobj : ∀ k o, objs threads !! k = Some o →
            objs threads' !! k = Some (collapseRoot true o)).
  { intros k o Ho. rewrite Hobjs, Ho. cbn. rewrite includes_ownKeys; [done|].
    apply Hok. by rewrite Ho. }
  destruct (create_In annotations no_threads a Ha) as [o0 Ho0].
  fold (createThreads annotations) in Ho0.
  pose proof (createThreads_objects annotations _ _ Ho0) as (a' & Ha' & Hid' & ->).
  destruct (Hgrows _ _ Ho0) as (o & Ho & _ & Hann & _).
  destruct (every_key_read (objs threads')
              (List.filter (isRoot (objs threads)) (ownKeys threads)) children)
    with (k := annotationId a) as (n & fuel' & Hn & Hreadn).
  - intros k o1' p Hk Hp. rewrite Hobjs in Hk.
    destruct (objs threads !! k) as [o1|] eqn:Ho1; [|done]. injection Hk as <-.
    destruct (collapseRoot_fields (includes (ownKeys threads) k) o1) as (_ & _ & Hpar & _).
    rewrite Hpar in Hp. destruct (HP k o1 p Ho1 Hp) as (po & Hpo & Hin).
    exists (collapseRoot true po). split; [by apply Hobj|].
    by destruct (collapseRoot_fields true po) as (_ & _ & _ & ->).
  - intros k o1' Hk Hfalsy. rewrite Hobjs in Hk.
    destruct (objs threads !! k) as [o1|] eqn:Ho1; [|done]. injection Hk as <-.
    destruct (collapseRoot_fields (includes (ownKeys threads) k) o1) as (_ & _ & Hpar & _).
    rewrite Hpar in Hfalsy. apply filter_In. split.
    + apply (Permutation_in _ (Permutation_sym (ownKeys_perm threads))).
      apply Hok. by rewrite Ho1.
    + unfold isRoot. by rewrite Ho1, Hfalsy.
  - eapply Forall2_impl; [exact Hch|]. intros k t Hread. by exists fuel.
  - apply Hup'.
  - rewrite (Hobj _ _ Ho). done.
  - exists n, a'. split; [done|].
    apply readThread_top in Hreadn as (o' & Ho' & Hreads).
    rewrite (Hobj _ _ Ho) in Ho'. injection Ho' as <-.
    destruct Hreads as (Hi & Han & _).
    destruct (collapseRoot_fields true o) as (Hi' & Han' & _).
    rewrite Hi, Han, Hi', Han', Hann.
    split; [by apply (linked_fromInput _ _ _ Hlink _ _ Ho)|]. done.
Qed.

Lemma sortThread_children t cmp rcmp :
  t_children (sortThread t cmp rcmp)
  = sort (map (fun child => sortThread child rcmp rcmp) (t_children t)) cmp.
Proof. by rewrite sortThread_unfold. Qed.

Lemma project_children_in opts thread x :
  In x (t_children (selectTopLevel opts thread)) →
  (let y := mapThread x (setVisible opts) in
   t_visible y || hasVisibleChildren y = true) →
  In (passOver opts (replySortCompareFn opts) (-1 + 1) x)
     (t_children (project opts thread)).
Proof.
  intros Hx Hkeep. cbv zeta in Hkeep.
  rewrite project_split. unfold afterVisible, pruneInvisible.
  cbn [t_children with_totalChildren]. rewrite countRepliesAndDepth_children.
  unfold passOver.
  apply (in_map (fun c => countRepliesAndDepth c (-1 + 1))).
  rewrite sortThread_children. apply sort_In.
  apply (in_map (fun child => sortThread child (replySortCompareFn opts)
                                         (replySortCompareFn opts))).
  rewrite mapThread_children. cbn [t_children with_children].
  apply (in_map (fun child => mapThread child (setCollapsed opts))).
  apply filter_In. split; [|done].
  rewrite mapThread_children.
  by apply (in_map (fun child => mapThread child (setVisible opts))).
Qed.

Lemma mapThread_descendants f t :
  descendants (mapThread t f) = map (fun x => mapThread x f) (descendants t).
Proof.
  pose proof (mapThread_subthreads f t) as H.
  rewrite !subthreads_unfold in H. cbn [map] in H. by injection H.
Qed.

Lemma NoDup_map_eq {A B} (f : A → B) l x y :
  List.NoDup (map f l) → In x l → In y l → f x = f y → x = y.
Proof.
  induction l as [|z l IH]; [done|]. cbn [map]. intros Hnd Hx Hy Heq.
  apply List.NoDup_cons_iff in Hnd as [Hz Hnd].
  destruct Hx as [->|Hx], Hy as [->|Hy]; [done| | |by apply IH].
  - exfalso. apply Hz. rewrite Heq. by apply in_map.
  - exfalso. apply Hz. rewrite <- Heq. by apply in_map.
Qed.

(** Nothing is lost: when no reference is the empty string, no annotation
    names an id twice in its references or names itself, no identity and no
    reference is a name that the table inherits, and the options filter
    nothing, every annotation of the input has a thread with its identity
    in the result; the thread carries an annotation of that identity, which
    is the annotation itself when identities are distinct. *)
Theorem every_annotation_is_shown fuel annotations opts root :
  references_not_empty annotations → references_distinct annotations →
  ordinaryInput annotations = true →
  unfiltered opts →
  buildThread fuel annotations opts = Ret root →
  ∀ a, In a annotations →
    ∃ node a', In node (descendants root) ∧ t_id node = annotationId a
               ∧ t_annotation node = Some a'
               ∧ annotationId a' = annotationId a
               ∧ (List.NoDup (map annotationId annotations) → a' = a).
Proof.
  intros Hrefs Hdist _ (Hsel & Htf & Hf) H a Ha.
  apply buildThread_Ret in H as (thread & Hthread & ->).
  destruct (threadAnnotations_complete _ _ _ Hrefs Hdist Hthread a Ha)
    as (n & a' & Hn & Hid & Hann & Ha' & Hida).
  pose proof (threadAnnotations_nodes _ _ _ Hthread n Hn) as (_ & Hvis & _).
  apply in_descendants in Hn as (top & Htop & Hn).
  assert (Hkept : In (passOver opts (replySortCompareFn opts) (-1 + 1) top)
                     (t_children (project opts thread))).
  { apply project_children_in.
    - unfold selectTopLevel, hasSelection. by rewrite Hsel, Htf.
    - cbv zeta. apply orb_true_iff.
      assert (Hv : t_visible (mapThread n (setVisible opts)) = true).
      { rewrite mapThread_visible. unfold setVisible. cbn [t_visible with_visible].
        by rewrite Hann, Hf. }
      rewrite subthreads_unfold in Hn. destruct Hn as [->|Hn]; [by left|right].
      apply hasVisibleChildren_iff. exists (mapThread n (setVisible opts)).
      split; [|done]. rewrite mapThread_descendants.
      by apply (in_map (fun x => mapThread x (setVisible opts))). }
  assert (Hlabel : In (t_id n, t_annotation n)
                      (labels (passOver opts (replySortCompareFn opts) (-1 + 1) top))).
  { apply (Permutation_in _ (Permutation_sym (passOver_labels _ _ _ _))).
    unfold labels. by apply (in_map (fun x => (t_id x, t_annotation x))). }
  unfold labels in Hlabel. apply in_map_iff in Hlabel as (node & Heq & Hnode).
  injection Heq as Hi Han.
  exists node, a'. split; [apply in_descendants; eauto|].
  split; [congruence|]. split; [congruence|]. split; [done|].
  intros Hnd. by apply (NoDup_map_eq annotationId annotations).
Qed.

Lemma every_annotation_is_shown_witness :
  ∃ root, buildThread 4 mutual12 defaultOpts = Ret root
          ∧ ∀ a, In a mutual12 →
              ∃ node, In node (descendants root) ∧ t_annotation node = Some a.
Proof.
  assert (Hroot : ∃ root, buildThread 4 mutual12 defaultOpts = Ret root)
    by (eexists; vm_compute; reflexivity).
  destruct Hroot as [root Hroot]. exists root. split; [done|]. intros a Ha.
  destruct (every_annotation_is_shown 4 mutual12 defaultOpts root) with (a := a)
    as (node & a' & Hnode & _ & Hann & _ & Heq).
  - by apply referencesNotEmpty_true.
  - intros b [<-|[<-|[]]]; repeat constructor; cbn; intuition discriminate.
  - reflexivity.
  - by repeat split.
  - exact Hroot.
  - exact Ha.
  - exists node. split; [done|]. rewrite Hann. f_equal. apply Heq.
    repeat constructor; cbn; intuition discriminate.
Defined.

(** * Every identity once *)

Section Linked_invariant.
Variable P : gmap string ThreadObj → Prop.
Hypothesis P_placeholder :
  ∀ threads x, P threads → threads !! x = None → P (<[x := placeholder x]> threads).
Hypothesis P_attach :
  ∀ threads id parentId thread parent,
    well_linked threads → P threads →
    threads !! id = Some thread → o_parent thread = None →
    threads !! parentId = Some parent → parentId ≠ "" →
    P (alter (push_child id) parentId (alter (set_parent parentId) id threads)).

Lemma setParent_linked fuel :
  ∀ threads id parents threads',
    well_linked (objs threads) → ¬ In "" parents → P (objs threads) →
    setParent fuel threads id parents = Ret threads' → P (objs threads').
Proof.
  induction fuel as [|fuel IH]; intros threads id parents threads' Hwl Hne HP H; [done|].
  rewrite setParent_unfold in H.
  destruct (objs threads !! id) as [thread|] eqn:Hid; [|done].
  destruct (truthy_opt (o_parent thread) || (length parents =? 0)%nat) eqn:Hc;
    [by injection H as <-|].
  apply orb_false_iff in Hc as [Hp Hlen].
  pose proof (parents_split parents Hlen) as Hsplit.
  set (parentId := List.last parents "") in *. cbv zeta in H.
  assert (HparentId : parentId ≠ "").
  { intros Heq. apply Hne. rewrite Hsplit, Heq. apply in_or_app. right. by left. }
  assert (Hrest : ¬ In "" (removelast parents)).
  { intros Hin. apply Hne. rewrite Hsplit. apply in_or_app. by left. }
  apply bind_Ret in H as (threads1 & H1 & H).
  apply bind_Ret in H as (ok & Hok & H).
  assert (H1' : well_linked (objs threads1) ∧ P (objs threads1)
                ∧ ∃ thread1, objs threads1 !! id = Some thread1
                             ∧ o_parent thread1 = o_parent thread).
  { destruct (objs threads !! parentId) as [parent|] eqn:Hparent.
    - injection H1 as <-. eauto.
    - assert (Hwl0 : well_linked (objs (assign parentId (placeholder parentId) threads)))
        by (by apply well_linked_placeholder).
      destruct (setParent_well_linked _ _ _ _ _ Hwl0 Hrest H1) as [Hwl1 Hpres1].
      split; [done|]. split.
      + eapply IH; [exact Hwl0|exact Hrest| |exact H1].
        cbn [objs assign]. by apply P_placeholder.
      + assert (id ≠ parentId) as Hneq by (intros ->; congruence).
        destruct (Hpres1 id thread) as (thread1 & Hid1 & _ & _ & Hpar1).
        { cbn [objs assign]. by rewrite lookup_insert_ne. }
        exists thread1. split; [done|]. by apply Hpar1. }
  destruct H1' as (Hwl1 & HP1 & thread1 & Hid1 & Hpar1).
  destruct ok; [|by injection H as <-].
  destruct (hasPathToRoot_true _ _ _ _ Hok) as [parent1 Hparent1].
  rewrite (attach_ok _ _ _ _ _ Hid1 Hparent1) in H. injection H as <-.
  cbn [objs update]. eapply P_attach; [done|done|exact Hid1| |exact Hparent1|done].
  eapply well_linked_no_parent; [exact Hwl1|exact Hid1|]. by rewrite Hpar1.
Qed.

Lemma linkThreads_linked fuel annotations :
  references_not_empty annotations →
  ∀ threads threads',
    well_linked (objs threads) → P (objs threads) →
    linkThreads fuel annotations threads = Ret threads' → P (objs threads').
Proof.
  unfold linkThreads.
  induction annotations as [|a l IH]; intros Hrefs threads threads' Hwl HP H.
  - by injection H as <-.
  - cbn [foldM] in H. apply bind_Ret in H as (threads1 & H1 & H).
    assert (Hne : ¬ In "" (parentsOf a)).
    { intros Hin. apply parentsOf_references in Hin.
      by apply (Hrefs a "" (or_introl eq_refl)). }
    destruct (setParent_well_linked _ _ _ _ _ Hwl Hne H1) as [Hwl1 _].
    eapply IH; [|exact Hwl1| |exact H].
    + intros a' r Ha'. apply Hrefs. by right.
    + eapply setParent_linked; [exact Hwl|exact Hne|exact HP|exact H1].
Qed.
End Linked_invariant.

Lemma linked_children_distinct fuel annotations threads :
  references_not_empty annotations →
  linkThreads fuel annotations (createThreads annotations) = Ret threads →
  children_distinct (objs threads).
Proof.
  intros Hrefs. apply (linkThreads_linked children_distinct); [| |done| |].
  - intros m x HP Hx k o Hk.
    apply lookup_insert_Some in Hk as [[<- <-]|[_ Hk]]; [constructor|by eapply HP].
  - intros m id parentId thread parent Hwl HP Hid Hpar Hparent Hne k o' Hk.
    apply attach_lookup_inv in Hk as (o & Hk & _ & Hch & _). rewrite Hch.
    destruct (decide (k = parentId)) as [->|Hkp]; [|by eapply HP].
    apply List.NoDup_app; [by eapply HP|repeat constructor; by intros []|].
    intros c Hc [<-|[]]. destruct Hwl as (_ & Hlinks & _).
    destruct (Hlinks _ _ _ Hk Hc) as (co & Hco & Hp). congruence.
  - apply createThreads_well_linked.
  - intros k o Hk. apply createThreads_objects in Hk as (a & _ & _ & ->). constructor.
Qed.

Lemma ancestor_trans (threads : gmap string ThreadObj) x y z :
  ancestor threads x y → ancestor threads y z → ancestor threads x z.
Proof.
  intros Hxy. induction 1 as [z Hz|p z _ IH Hz].
  - by eapply ancestor_up.
  - by eapply ancestor_up.
Qed.

Lemma ancestor_linear (threads : gmap string ThreadObj) a b x :
  ancestor threads a x → ancestor threads b x →
  a = b ∨ ancestor threads a b ∨ ancestor threads b a.
Proof.
  intros Ha. revert b. induction Ha as [x Hx|p x Hp IH Hx]; intros b Hb.
  - apply ancestor_inv in Hb as (p' & Hp' & Hb).
    rewrite (parentOf_unique _ _ _ _ Hp' Hx) in Hb.
    destruct Hb as [->|Hb]; [by left|by right; right].
  - apply ancestor_inv in Hb as (p' & Hp' & Hb).
    rewrite (parentOf_unique _ _ _ _ Hp' Hx) in Hb.
    destruct Hb as [->|Hb]; [by right; left|by apply IH].
Qed.

Lemma atOrBelow_linear (threads : gmap string ThreadObj) a b x :
  atOrBelow threads x a → atOrBelow threads x b →
  a = b ∨ ancestor threads a b ∨ ancestor threads b a.
Proof.
  intros [->|Ha] [->|Hb]; [by left|by right; right|by right; left|].
  by eapply ancestor_linear.
Qed.

Lemma siblings_disjoint (threads : gmap string ThreadObj) k c1 c2 x :
  (∀ k, Acc (parentOf threads) k) →
  parentOf threads k c1 → parentOf threads k c2 → c1 ≠ c2 →
  atOrBelow threads x c1 → atOrBelow threads x c2 → False.
Proof.
  intros Hacc H1 H2 Hne Hx1 Hx2.
  assert (Hcase : ∀ a b, parentOf threads k a → parentOf threads k b →
            ancestor threads a b → False).
  { intros a b Ha Hb Hab. apply ancestor_inv in Hab as (p & Hp & Hab).
    rewrite (parentOf_unique _ _ _ _ Hp Hb) in Hab.
    apply (Acc_not_own_ancestor _ _ (Hacc a)).
    destruct Hab as [->|Hab].
    - by apply ancestor_parent.
    - eapply ancestor_trans; [exact Hab|by apply ancestor_parent]. }
  destruct (atOrBelow_linear _ _ _ _ Hx1 Hx2) as [?|[?|?]]; [done|eauto|eauto].
Qed.

Lemma roots_disjoint (threads : gmap string ThreadObj) r1 r2 x :
  isRoot threads r1 = true → isRoot threads r2 = true → r1 ≠ r2 →
  atOrBelow threads x r1 → atOrBelow threads x r2 → False.
Proof.
  intros H1 H2 Hne Hx1 Hx2.
  assert (Hcase : ∀ a b, isRoot threads b = true → ancestor threads a b → False).
  { intros a b Hb Hab. apply ancestor_inv in Hab as (p & (o & Ho & Hp & Ht) & _).
    unfold isRoot in Hb. rewrite Ho, Hp in Hb. cbn in Hb. by rewrite Ht in Hb. }
  destruct (atOrBelow_linear _ _ _ _ Hx1 Hx2) as [?|[?|?]]; [done|eauto|eauto].
Qed.

Lemma readThread_atOrBelow fuel (threads : gmap string ThreadObj) k t x :
  well_linked threads → readThread fuel threads k = Ret t →
  In x (map t_id (subthreads t)) → atOrBelow threads x k.
Proof.
  intros Hwl Hread Hx. apply in_map_iff in Hx as (d & <- & Hd).
  destruct (readThread_below _ _ _ _ Hwl Hread) as [Hid Hbelow].
  rewrite subthreads_unfold in Hd. destruct Hd as [<-|Hd]; [by left|right].
  by apply tc_childOf_ancestor, Hbelow.
Qed.

Lemma forest_ids_distinct (threads : gmap string ThreadObj) keys trees :
  well_linked threads →
  Forall2 (fun k t => (∃ fuel, readThread fuel threads k = Ret t)
                      ∧ List.NoDup (map t_id (subthreads t))) keys trees →
  List.NoDup keys →
  (∀ k1 k2 x, In k1 keys → In k2 keys → k1 ≠ k2 →
     atOrBelow threads x k1 → atOrBelow threads x k2 → False) →
  List.NoDup (map t_id (flat_map subthreads trees)).
Proof.
  intros Hwl Hread. induction Hread as [|k t keys trees [[fuel Hk] Ht] Hrest IH];
    intros Hnd Hdis; [constructor|].
  apply List.NoDup_cons_iff in Hnd as [Hk' Hnd].
  cbn [flat_map]. rewrite map_app. apply List.NoDup_app; [done| |].
  - apply IH; [done|]. intros k1 k2 x H1 H2. apply Hdis; by right.
  - intros x Hx Hx'.
    assert (Hin : ∃ k2 t2, In k2 keys ∧ (∃ fuel, readThread fuel threads k2 = Ret t2)
                           ∧ In x (map t_id (subthreads t2))).
    { clear -Hrest Hx'. induction Hrest as [|k2 t2 keys trees [Hk2 _] _ IH].
      - done.
      - cbn [flat_map] in Hx'. rewrite map_app in Hx'.
        apply in_app_or in Hx' as [Hx'|Hx'].
        + exists k2, t2. split; [by left|done].
        + destruct (IH Hx') as (k3 & t3 & ? & ? & ?). exists k3, t3. split; [by right|done]. }
    destruct Hin as (k2 & t2 & Hk2 & [fuel2 Hread2] & Hx2).
    apply (Hdis k k2 x); [by left|by right|by intros ->| |].
    + by eapply readThread_atOrBelow.
    + by eapply readThread_atOrBelow.
Qed.

Lemma readThread_ids_distinct fuel :
  ∀ (threads : gmap string ThreadObj) k t,
    well_linked threads → children_distinct threads →
    (∀ k, Acc (parentOf threads) k) →
    readThread fuel threads k = Ret t →
    List.NoDup (map t_id (subthreads t)).
Proof.
  induction fuel as [|fuel IH]; intros threads k t Hwl Hcd Hacc H; [done|].
  pose proof (readThread_below _ _ _ _ Hwl H) as [Hid Hbelow].
  rewrite readThread_unfold in H.
  destruct (threads !! k) as [o|] eqn:Hk; [|done].
  apply bind_Ret in H as (children & Hch & H). injection H as <-.
  apply mapM_Ret in Hch.
  rewrite subthreads_unfold. cbn [map]. apply List.NoDup_cons_iff. split.
  - intros Hin. apply in_map_iff in Hin as (d & Hd & Hin).
    apply Hbelow, tc_childOf_ancestor in Hin; [|done].
    rewrite Hd, Hid in Hin. by apply (Acc_not_own_ancestor _ _ (Hacc k)).
  - unfold descendants. cbn [t_children].
    apply (forest_ids_distinct threads (o_children o)); [done| |by eapply Hcd|].
    + eapply Forall2_impl; [exact Hch|]. intros c ct Hread. cbv beta in Hread.
      split; [by exists fuel|]. by eapply IH.
    + intros c1 c2 x H1 H2. apply (siblings_disjoint threads k); [done| |].
      * apply childOf_parentOf; [done|]. by exists o.
      * apply childOf_parentOf; [done|]. by exists o.
Qed.

Lemma threadAnnotations_ids_distinct fuel annotations thread :
  references_not_empty annotations → references_distinct annotations →
  threadAnnotations fuel annotations = Ret thread →
  List.NoDup (map t_id (descendants thread)).
Proof.
  intros Hrefs Hdist H. unfold threadAnnotations in H.
  apply bind_Ret in H as (threads & Hlink & H).
  pose proof (linked_children_distinct _ _ _ Hrefs Hlink) as Hcd.
  pose proof (linkThreads_keys_ok _ _ _ _ (create_keys_ok _ _ keys_ok_empty) Hlink)
    as [Hkeys _].
  destruct (linkThreads_well_founded _ _ _ Hrefs Hdist Hlink) as [Hwl Hwf].
  pose proof (collectRoots_well_linked threads Hwl) as Hwl'.
  pose proof (collectRoots_well_founded threads Hwf) as [Hup' _].
  destruct (collectRoots_links threads) as [Hparents _].
  unfold collectRoots in *.
  destruct (collectRoots_spec (ownKeys threads) threads []) as (Hroots & _ & Hobjs).
  destruct (foldl collectStep (threads, []) (ownKeys threads)) as [threads' rootThreads].
  cbn [fst snd app] in *. subst rootThreads.
  apply bind_Ret in H as (children & Hch & H). injection H as <-.
  apply mapM_Ret in Hch. unfold descendants. cbn [t_children].
  assert (Hcd' : children_distinct (objs threads')).
  { intros k o' Hk. rewrite Hobjs in Hk.
    destruct (objs threads !! k) as [o|] eqn:Ho; [|done]. injection Hk as <-.
    destruct (collapseRoot_fields (includes (ownKeys threads) k) o) as (_ & _ & _ & ->).
    by eapply Hcd. }
  apply (forest_ids_distinct (objs threads')
           (List.filter (isRoot (objs threads)) (ownKeys threads))); [done| | |].
  - eapply Forall2_impl; [exact Hch|]. intros k t Hread. cbv beta in Hread.
    split; [by exists fuel|]. by eapply readThread_ids_distinct.
  - apply List.NoDup_filter.
    eapply Permutation_NoDup; [symmetry; apply ownKeys_perm|].
    by apply NoDup_ListNoDup.
  - intros r1 r2 x H1 H2. apply filter_In in H1 as [_ H1], H2 as [_ H2].
    assert (Hroot : ∀ r, isRoot (objs threads) r = true → isRoot (objs threads') r = true).
    { intros r. unfold isRoot. rewrite Hobjs.
      destruct (objs threads !! r) as [o|]; [|done]. cbn.
      by destruct (collapseRoot_fields (includes (ownKeys threads) r) o)
        as (_ & _ & -> & _). }
    apply roots_disjoint; by apply Hroot.
Qed.

Lemma NoDup_flat_map_filter {A B} (g : A → list B) (p : A → bool) l :
  List.NoDup (flat_map g l) → List.NoDup (flat_map g (List.filter p l)).
Proof.
  induction l as [|x l IH]; [done|]. cbn [flat_map List.filter]. intros H.
  pose proof (List.NoDup_app_remove_l _ _ H) as Hl.
  destruct (p x); [|by apply IH]. cbn [flat_map].
  apply List.NoDup_app; [by apply List.NoDup_app_remove_r in H|by apply IH|].
  intros b Hb Hb'. apply in_flat_map in Hb' as (y & Hy & Hb').
  apply filter_In in Hy as [Hy _].
  assert (Hin : In b (flat_map g l)) by (apply in_flat_map; eauto).
  clear -H Hb Hin. induction (g x) as [|c gx IHg]; [done|].
  cbn [app] in H. apply List.NoDup_cons_iff in H as [Hc H].
  destruct Hb as [->|Hb]; [|by apply IHg].
  apply Hc, in_or_app. by right.
Qed.

Lemma map_over_flat_map {A B C} (f : B → C) (g : A → list B) l :
  map f (flat_map g l) = flat_map (fun x => map f (g x)) l.
Proof.
  induction l as [|x l IH]; [done|]. cbn [flat_map]. by rewrite map_app, IH.
Qed.

Lemma descendants_ids t :
  map t_id (descendants t) = map fst (flat_map labels (t_children t)).
Proof.
  unfold descendants, labels. induction (t_children t) as [|c l IH]; [done|].
  cbn [flat_map]. rewrite !map_app, IH, map_map. done.
Qed.

Lemma project_ids_distinct fuel annotations opts root :
  references_not_empty annotations → references_distinct annotations →
  buildThread fuel annotations opts = Ret root →
  List.NoDup (map t_id (descendants root)).
Proof.
  intros Hrefs Hdist H. apply buildThread_Ret in H as (thread & Hthread & ->).
  apply threadAnnotations_ids_distinct in Hthread; [|done|done].
  rewrite descendants_ids in *.
  set (kept := List.filter
                 (fun x => let y := mapThread x (setVisible opts) in
                           t_visible y || hasVisibleChildren y)
                 (t_children (selectTopLevel opts thread))).
  assert (Hperm : Permutation (flat_map labels (t_children (project opts thread)))
                              (flat_map labels kept)).
  { rewrite project_split. unfold afterVisible, pruneInvisible.
    cbn [t_children with_totalChildren]. rewrite countRepliesAndDepth_children.
    rewrite sortThread_children, mapThread_children. cbn [t_children with_children].
    rewrite mapThread_children.
    etransitivity.
    { apply flat_map_labels_ext. apply List.Forall_forall. intros x _.
      rewrite countRepliesAndDepth_labels. reflexivity. }
    etransitivity.
    { apply Permutation_flat_map. unfold sort. apply array_sort_perm. }
    etransitivity.
    { apply flat_map_labels_ext. apply List.Forall_forall. intros x _.
      apply sortThread_labels. }
    etransitivity.
    { apply flat_map_labels_ext. apply List.Forall_forall. intros x _.
      rewrite mapThread_labels; [reflexivity|].
      intros y. unfold setCollapsed. by destruct (expanded opts !! t_id y), y. }
    assert (Hfilter : ∀ l,
              List.filter (fun child => t_visible child || hasVisibleChildren child)
                          (map (fun child => mapThread child (setVisible opts)) l)
              = map (fun child => mapThread child (setVisible opts))
                    (List.filter (fun x => let y := mapThread x (setVisible opts) in
                                           t_visible y || hasVisibleChildren y) l)).
    { induction l as [|x l IH]; [done|]. cbn [map List.filter]. cbv zeta.
      destruct (t_visible (mapThread x (setVisible opts))
                || hasVisibleChildren (mapThread x (setVisible opts))); cbn [map];
        by rewrite IH. }
    rewrite Hfilter. fold kept.
    apply flat_map_labels_ext. apply List.Forall_forall. intros x _.
    rewrite mapThread_labels; [reflexivity|]. intros y. by destruct y. }
  eapply Permutation_NoDup; [apply Permutation_map; symmetry; exact Hperm|].
  rewrite map_over_flat_map in *. unfold kept, selectTopLevel.
  apply NoDup_flat_map_filter.
  destruct (threadFilterFn opts); cbn [t_children with_children].
  - apply NoDup_flat_map_filter.
    destruct (hasSelection opts); [|done].
    cbn [t_children with_children]. by apply NoDup_flat_map_filter.
  - destruct (hasSelection opts); [|done].
    cbn [t_children with_children]. by apply NoDup_flat_map_filter.
Qed.

(** When no reference is the empty string and no annotation names an id
    twice in its references or names itself, no two threads of the result
    have the same id: every identity is shown once. *)
Theorem thread_ids_distinct fuel annotations opts root :
  references_not_empty annotations → references_distinct annotations →
  buildThread fuel annotations opts = Ret root →
  List.NoDup (map t_id (descendants root)).
Proof. apply project_ids_distinct. Qed.

Lemma thread_ids_distinct_witness :
  ∃ root,
    buildThread 4 mutual12 defaultOpts = Ret root
    ∧ map t_id (descendants root) = ["2"; "1"]
    ∧ List.NoDup (map t_id (descendants root)).
Proof.
  assert (Hroot : ∃ root, buildThread 4 mutual12 defaultOpts = Ret root
                          ∧ map t_id (descendants root) = ["2"; "1"]).
  { eexists. split; [vm_compute; reflexivity|reflexivity]. }
  destruct Hroot as (root & Hroot & Hids).
  exists root. do 2 (split; [done|]).
  apply (thread_ids_distinct 4 mutual12 defaultOpts root); [| |done].
  - by apply referencesNotEmpty_true.
  - intros a [<-|[<-|[]]]; repeat constructor; cbn; intuition discriminate.
Defined.

(** * When [hasPathToRoot] refuses *)

Lemma atOrBelow_up (threads : gmap string ThreadObj) x p k :
  atOrBelow threads p x → parentOf threads p k → atOrBelow threads k x.
Proof.
  intros [->|Hx] Hp; right; [by apply ancestor_parent|].
  eapply ancestor_trans; [exact Hx|by apply ancestor_parent].
Qed.

Lemma hasPathToRoot_false_chain fuel (threads : gmap string ThreadObj) id ancestorId :
  hasPathToRoot fuel threads id ancestorId = Ret false →
  ∃ x, atOrBelow threads ancestorId x
       ∧ (threads !! x = None
          ∨ ∃ o, threads !! x = Some o ∧ o_parent o = Some id).
Proof.
  revert ancestorId. induction fuel as [|fuel IH]; intros ancestorId H; [done|].
  rewrite hasPathToRoot_unfold in H.
  destruct (threads !! ancestorId) as [o|] eqn:Ho.
  - destruct (o_parent o) as [p|] eqn:Hp; [|done].
    destruct (String.eqb p id) eqn:Hid.
    + apply String.eqb_eq in Hid as ->. exists ancestorId. split; [by left|].
      right. by exists o.
    + destruct (truthy p) eqn:Ht; [|done]. cbn [negb] in H.
      destruct (IH _ H) as (x & Hx & Hcase). exists x. split; [|done].
      eapply atOrBelow_up; [exact Hx|by exists o].
  - exists ancestorId. split; [by left|by left].
Qed.

(** When [hasPathToRoot] answers [false], the chain of parents that starts
    at [ancestorId] meets an id that has no thread in the table, or a thread
    whose parent is [id]. *)
Theorem hasPathToRoot_refuses fuel (threads : gmap string ThreadObj) id ancestorId :
  hasPathToRoot fuel threads id ancestorId = Ret false →
  ∃ x, atOrBelow threads ancestorId x
       ∧ (threads !! x = None
          ∨ ∃ o, threads !! x = Some o ∧ o_parent o = Some id).
Proof. apply hasPathToRoot_false_chain. Qed.

Lemma hasPathToRoot_refuses_witness :
  ∃ threads x,
    linkThreads 3 chain3 (createThreads chain3) = Ret threads
    ∧ hasPathToRoot 3 (objs threads) "1" "3" = Ret false
    ∧ atOrBelow (objs threads) "3" x
    ∧ (objs threads !! x = None
       ∨ ∃ o, objs threads !! x = Some o ∧ o_parent o = Some "1").
Proof.
  assert (H : ∃ threads,
            linkThreads 3 chain3 (createThreads chain3) = Ret threads
            ∧ hasPathToRoot 3 (objs threads) "1" "3" = Ret false).
  { eexists. split; vm_compute; reflexivity. }
  destruct H as (threads & Hlink & Hpath).
  destruct (hasPathToRoot_refuses 3 (objs threads) "1" "3" Hpath) as (x & Hx & Hcase).
  exists threads, x. done.
Defined.

(** * What [mapThread] takes from the mapping function *)

(** [mapThread] discards the children that the mapping function returns:
    two mapping functions that agree on every other field give the same
    tree. *)
Theorem mapThread_discards_children t f g :
  (∀ x, with_children (f x) [] = with_children (g x) []) →
  mapThread t f = mapThread t g.
Proof.
  intros Hfg. induction t as [i a p v c children tc rc d IH] using Thread_ind.
  rewrite !mapThread_unfold. cbn [t_children].
  assert (map (fun child => mapThread child f) children
          = map (fun child => mapThread child g) children) as ->.
  { apply map_ext_in. intros x Hx. rewrite List.Forall_forall in IH. by apply IH. }
  pose proof (Hfg (mkThread i a p v c children tc rc d)) as H.
  unfold with_children in *. by injection H as -> -> -> -> -> -> -> ->.
Qed.

Lemma mapThread_discards_children_witness :
  mapThread unsortedThread hideAndDropReplies
  = mapThread unsortedThread (fun thread => with_visible thread false)
  ∧ length (t_children (mapThread unsortedThread hideAndDropReplies)) = 2%nat.
Proof.
  split; [|reflexivity]. by apply mapThread_discards_children.
Defined.

(** * What the filters keep *)

(** A top-level thread built by [threadAnnotations] stays in the result,
    with all its replies, when it is selected or forced visible (if there
    is a selection), [threadFilterFn] accepts it (if there is one), and the
    thread or one of its replies has an annotation to show. *)
Theorem accepted_thread_is_kept fuel annotations opts thread root x :
  threadAnnotations fuel annotations = Ret thread →
  buildThread fuel annotations opts = Ret root →
  In x (t_children thread) →
  (selected opts ≠ [] → isSelectedOrForced opts x = true) →
  (∀ keep, threadFilterFn opts = Some keep → keep x = true) →
  (∃ d, In d (subthreads x) ∧ shows opts d = true) →
  ∃ top, In top (t_children root)
         ∧ t_id top = t_id x ∧ t_annotation top = t_annotation x
         ∧ Permutation (labels top) (labels x).
Proof.
  intros Hthread H Hx Hsel Hkeep (d & Hd & Hshow).
  unfold buildThread in H. rewrite Hthread in H. injection H as <-.
  exists (passOver opts (replySortCompareFn opts) (-1 + 1) x).
  destruct (passOver_fields opts (replySortCompareFn opts) (-1 + 1) x)
    as (Hid & Hann & _).
  split; [|split; [done|split; [done|apply passOver_labels]]].
  apply project_children_in.
  - unfold selectTopLevel.
    assert (Hin : In x (t_children
              (if hasSelection opts
               then with_children thread
                      (List.filter (isSelectedOrForced opts) (t_children thread))
               else thread))).
    { unfold hasSelection. destruct (selected opts) as [|s l] eqn:Hs; [done|].
      cbn. apply filter_In. split; [done|]. by apply Hsel. }
    destruct (threadFilterFn opts) as [keep|]; [|done].
    cbn [t_children with_children]. apply filter_In. split; [done|]. by apply Hkeep.
  - cbv zeta. apply orb_true_iff.
    assert (Hdesc : In d (descendants thread))
      by (apply in_descendants; eauto).
    pose proof (threadAnnotations_nodes _ _ _ Hthread d Hdesc) as (_ & Hvis & _).
    assert (Hv : t_visible (mapThread d (setVisible opts)) = true).
    { rewrite mapThread_visible. unfold setVisible. cbn [t_visible with_visible].
      unfold shows in Hshow. destruct (t_annotation d) as [a|]; [|done].
      destruct (filterFn opts) as [f|]; [|done].
      by destruct (hasForcedVisible opts && includes (forcedVisible opts) (ann_tag a)). }
    rewrite subthreads_unfold in Hd. destruct Hd as [->|Hd]; [by left|right].
    apply hasVisibleChildren_iff. exists (mapThread d (setVisible opts)).
    split; [|done]. rewrite mapThread_descendants.
    by apply (in_map (fun y => mapThread y (setVisible opts))).
Qed.

Lemma accepted_thread_is_kept_witness :
  ∃ thread root x top,
    threadAnnotations 4 forcedSample = Ret thread
    ∧ buildThread 4 forcedSample onlyThreeOpts = Ret root
    ∧ In x (t_children thread) ∧ t_id x = "1" ∧ shows onlyThreeOpts x = false
    ∧ In top (t_children root) ∧ t_id top = "1".
Proof.
  assert (Hthread : ∃ thread x d,
            threadAnnotations 4 forcedSample = Ret thread
            ∧ In x (t_children thread) ∧ t_id x = "1"
            ∧ shows onlyThreeOpts x = false
            ∧ In d (subthreads x) ∧ shows onlyThreeOpts d = true).
  { do 3 eexists. split; [vm_compute; reflexivity|].
    split; [left; reflexivity|]. do 2 (split; [reflexivity|]).
    split; [right; left; reflexivity|reflexivity]. }
  destruct Hthread as (thread & x & d & Hthread & Hx & Hid & Hno & Hd & Hshow).
  assert (Hroot : ∃ root, buildThread 4 forcedSample onlyThreeOpts = Ret root)
    by (eexists; vm_compute; reflexivity).
  destruct Hroot as [root Hroot].
  destruct (accepted_thread_is_kept 4 forcedSample onlyThreeOpts thread root x
              Hthread Hroot Hx) as (top & Htop & Hidtop & _).
  - intros Hsel. by destruct Hsel.
  - discriminate.
  - by exists d.
  - exists thread, root, x, top. rewrite Hidtop. done.
Defined.

(** * Annotations that share an identity *)

Lemma createThreads_last l1 a l2 :
  (∀ b, In b l2 → annotationId b ≠ annotationId a) →
  objs (createThreads (l1 ++ a :: l2)) !! annotationId a = Some (newThread a).
Proof.
  intros Hl2. unfold createThreads, addThreads. rewrite foldl_app. cbn [foldl].
  fold (addThreads no_threads l1).
  fold (addThreads (assign (annotationId a) (newThread a) (addThreads no_threads l1)) l2).
  rewrite create_other by done. cbn [objs assign]. by rewrite lookup_insert_eq.
Qed.

(** When several annotations of the input have the same identity, the
    thread of that identity carries the last of them. *)
Theorem last_annotation_wins fuel l1 a l2 opts root :
  (∀ b, In b l2 → annotationId b ≠ annotationId a) →
  buildThread fuel (l1 ++ a :: l2) opts = Ret root →
  ∀ node, In node (descendants root) → t_id node = annotationId a →
    t_annotation node = Some a.
Proof.
  intros Hl2 H node Hnode Hid. apply buildThread_Ret in H as (thread & Hthread & ->).
  apply project_nodes in Hnode as (x & cmp & d & Hx & ->).
  destruct (passOver_fields opts cmp d x) as (Hi & -> & _). rewrite Hi in Hid.
  apply threadAnnotations_table in Hthread as (threads & Hlink & _ & _ & Hnodes).
  destruct (Hnodes x Hx) as (k & o & Ho & (Hxi & -> & _)).
  destruct (collapseRoot_fields true o) as (Hoi & -> & _).
  destruct (linked_fromInput _ _ _ Hlink k o Ho) as [Hk _].
  assert (k = annotationId a) as -> by congruence.
  destruct (linkThreads_grows _ _ _ _ Hlink _ _ (createThreads_last l1 a l2 Hl2))
    as (o' & Ho' & _ & Hann & _).
  rewrite Ho in Ho'. injection Ho' as <-. by rewrite Hann.
Qed.

Lemma last_annotation_wins_witness :
  ∃ root top,
    buildThread 4 sameId defaultOpts = Ret root
    ∧ t_children root = [top] ∧ t_id top = "1"
    ∧ t_annotation top = Some (mkAnnotation (Some "1") "other" None "2020-01-05").
Proof.
  assert (Hroot : ∃ root top, buildThread 4 sameId defaultOpts = Ret root
                              ∧ t_children root = [top] ∧ t_id top = "1"
                              ∧ In top (descendants root)).
  { do 2 eexists. split; [vm_compute; reflexivity|].
    do 2 (split; [reflexivity|]). left; reflexivity. }
  destruct Hroot as (root & top & Hroot & Hch & Hid & Hin).
  exists root, top. do 3 (split; [done|]).
  apply (last_annotation_wins 4 [saved "1" []]
           (mkAnnotation (Some "1") "other" None "2020-01-05") [saved "2" ["1"]]
           defaultOpts root); [|exact Hroot|exact Hin|exact Hid].
  intros b [<-|[]]. discriminate.
Defined.

(** * Ties keep their order in the tree (claim C7) *)

Lemma filter_tie_map cmp w (g : Thread → Thread) l :
  (∀ x, t_annotation (g x) = t_annotation x) →
  List.filter (tie cmp w) (map g l) = map g (List.filter (tie cmp w) l).
Proof.
  intros Hg. induction l as [|x l IH]; [done|]. cbn [map List.filter].
  assert (tie cmp w (g x) = tie cmp w x) as ->
    by (unfold tie, compareThreads; by rewrite Hg).
  destruct (tie cmp w x); cbn [map]; by rewrite IH.
Qed.

Lemma map_labelOf_map (g : Thread → Thread) l :
  (∀ x, labelOf (g x) = labelOf x) → map labelOf (map g l) = map labelOf l.
Proof. intros Hg. rewrite map_map. apply map_ext. exact Hg. Qed.

Lemma filter_map_commute {A B} (g : A → B) (p : B → bool) l :
  List.filter p (map g l) = map g (List.filter (fun x => p (g x)) l).
Proof.
  induction l as [|x l IH]; [done|]. cbn [map List.filter].
  destruct (p (g x)); cbn [map]; by rewrite IH.
Qed.

Lemma filter_filter_and {A} (p q : A → bool) l :
  List.filter p (List.filter q l) = List.filter (fun x => q x && p x) l.
Proof.
  induction l as [|x l IH]; [done|]. cbn [List.filter].
  destruct (q x); cbn [List.filter andb]; [|done]. destruct (p x); by rewrite IH.
Qed.

Lemma passOver_children opts cmp d x :
  t_children (passOver opts cmp d x)
  = map (fun c => countRepliesAndDepth c (d + 1))
      (sort (map (fun c => sortThread c (replySortCompareFn opts) (replySortCompareFn opts))
               (map (fun c => mapThread c (setCollapsed opts))
                  (map (fun c => mapThread c (setVisible opts)) (t_children x))))
            cmp).
Proof.
  unfold passOver. rewrite countRepliesAndDepth_children, sortThread_children.
  by rewrite !mapThread_children.
Qed.

Lemma passOver_label opts cmp d x : labelOf (passOver opts cmp d x) = labelOf x.
Proof.
  unfold labelOf. by destruct (passOver_fields opts cmp d x) as (-> & -> & _).
Qed.

Lemma label_annotation (g : Thread → Thread) :
  (∀ x, labelOf (g x) = labelOf x) → ∀ x, t_annotation (g x) = t_annotation x.
Proof. intros Hg x. specialize (Hg x). unfold labelOf in Hg. congruence. Qed.

(** The threads of a sorted list of copies that tie with [w] are, by label,
    those of the list of originals, in the order of the originals. *)
Lemma sorted_copies_stable cmp w (g1 g2 : Thread → Thread) l :
  LessThan cmp →
  (∀ x, labelOf (g1 x) = labelOf x) → (∀ x, labelOf (g2 x) = labelOf x) →
  map labelOf (List.filter (tie cmp w) (map g2 (sort (map g1 l) cmp)))
  = map labelOf (List.filter (tie cmp w) l).
Proof.
  intros Hcmp H1 H2.
  rewrite filter_tie_map by (by apply label_annotation).
  rewrite map_labelOf_map by done.
  rewrite sort_stable by done.
  rewrite filter_tie_map by (by apply label_annotation).
  by rewrite map_labelOf_map.
Qed.

Lemma mapThread_label f x :
  (∀ y, labelOf (f y) = labelOf y) → labelOf (mapThread x f) = labelOf x.
Proof.
  intros Hf. rewrite <- (Hf x). unfold labelOf.
  by destruct (mapThread_fields x f) as (-> & -> & _).
Qed.

Lemma setVisible_label opts x : labelOf (setVisible opts x) = labelOf x.
Proof. done. Qed.

Lemma setCollapsed_label opts x : labelOf (setCollapsed opts x) = labelOf x.
Proof. unfold labelOf. by destruct (setCollapsed_fields opts x) as (-> & -> & _). Qed.

Lemma sortThread_label x cmp rcmp : labelOf (sortThread x cmp rcmp) = labelOf x.
Proof. unfold labelOf. by destruct (sortThread_fields x cmp rcmp) as (-> & -> & _). Qed.

Lemma countRepliesAndDepth_label x d : labelOf (countRepliesAndDepth x d) = labelOf x.
Proof. unfold labelOf. by destruct (countRepliesAndDepth_fields x d) as (-> & -> & _). Qed.

Lemma passOver_children_stable opts cmp d x w :
  LessThan cmp →
  map labelOf (List.filter (tie cmp w) (t_children (passOver opts cmp d x)))
  = map labelOf (List.filter (tie cmp w) (t_children x)).
Proof.
  intros Hcmp. rewrite passOver_children, !map_map.
  apply (sorted_copies_stable cmp w
           (fun c => sortThread (mapThread (mapThread c (setVisible opts))
                                           (setCollapsed opts))
                                (replySortCompareFn opts) (replySortCompareFn opts))
           (fun c => countRepliesAndDepth c (d + 1))); [done| |].
  - intros c. rewrite sortThread_label, mapThread_label, mapThread_label; [done| |].
    + apply setVisible_label.
    + apply setCollapsed_label.
  - intros c. apply countRepliesAndDepth_label.
Qed.

Lemma sortThread_reply_nodes rcmp t :
  ∀ node, In node (subthreads (sortThread t rcmp rcmp)) →
    ∃ x, In x (subthreads t) ∧ node = sortThread x rcmp rcmp.
Proof.
  induction t as [i a p v c children tc rc d IH] using Thread_ind.
  intros node Hnode. rewrite subthreads_unfold in Hnode.
  destruct Hnode as [<-|Hnode].
  - eexists. split; [apply subthreads_self|done].
  - apply in_descendants in Hnode as (c0 & Hc0 & Hnode).
    rewrite sortThread_children in Hc0. cbn [t_children] in Hc0.
    apply sort_In, in_map_iff in Hc0 as (c1 & <- & Hc1).
    rewrite List.Forall_forall in IH.
    destruct (IH c1 Hc1 _ Hnode) as (x & Hx & ->).
    exists x. split; [|done]. eapply subthreads_child; eauto.
Qed.

(** Every node below the root of the result is a node below the root that
    [threadAnnotations] built, taken through the four copying passes, with
    its children sorted by the comparison function for replies. *)
Lemma project_reply_nodes opts thread node :
  In node (descendants (project opts thread)) →
  ∃ x d, In x (descendants thread)
         ∧ node = passOver opts (replySortCompareFn opts) d x.
Proof.
  rewrite project_split. unfold afterVisible, pruneInvisible.
  intros H. apply in_descendants in H as (c & Hc & H).
  cbn [t_children with_totalChildren] in Hc.
  rewrite countRepliesAndDepth_children in Hc.
  apply in_map_iff in Hc as (c1 & <- & Hc1).
  apply countRepliesAndDepth_nodes in H as (n1 & d & Hn1 & ->).
  rewrite sortThread_children in Hc1.
  apply sort_In, in_map_iff in Hc1 as (c2 & <- & Hc2).
  apply sortThread_reply_nodes in Hn1 as (n2 & Hn2 & ->).
  rewrite mapThread_children in Hc2. cbn [t_children with_children] in Hc2.
  apply in_map_iff in Hc2 as (c3 & <- & Hc3).
  rewrite mapThread_subthreads in Hn2. apply in_map_iff in Hn2 as (n3 & <- & Hn3).
  apply filter_In in Hc3 as [Hc3 _].
  rewrite mapThread_children in Hc3. apply in_map_iff in Hc3 as (c4 & <- & Hc4).
  rewrite mapThread_subthreads in Hn3. apply in_map_iff in Hn3 as (n4 & <- & Hn4).
  exists n4, d. split; [|done].
  apply selectTopLevel_descendants with (opts := opts).
  apply in_descendants. eauto.
Qed.

Lemma project_top_level_stable opts thread :
  LessThan (sortCompareFn opts) →
  ∃ keep, ∀ w,
    map labelOf (List.filter (tie (sortCompareFn opts) w)
                             (t_children (project opts thread)))
    = map labelOf (List.filter (tie (sortCompareFn opts) w)
                               (List.filter keep (t_children thread))).
Proof.
  intros Hcmp.
  set (shown := fun x => let y := mapThread x (setVisible opts) in
                         t_visible y || hasVisibleChildren y).
  assert (Hsel : ∃ keep0, t_children (selectTopLevel opts thread)
                          = List.filter keep0 (t_children thread)).
  { unfold selectTopLevel.
    destruct (threadFilterFn opts) as [f|], (hasSelection opts);
      cbn [t_children with_children].
    - eexists. apply filter_filter_and.
    - by exists f.
    - by eexists.
    - exists (fun _ => true). induction (t_children thread) as [|x l IH]; [done|].
      cbn [List.filter]. by rewrite <- IH. }
  destruct Hsel as [keep0 Hsel].
  exists (fun x => keep0 x && shown x). intros w.
  rewrite project_split. unfold afterVisible, pruneInvisible.
  cbn [t_children with_totalChildren]. rewrite countRepliesAndDepth_children.
  rewrite sortThread_children, mapThread_children. cbn [t_children with_children].
  rewrite mapThread_children, Hsel.
  rewrite (filter_map_commute (fun child => mapThread child (setVisible opts))).
  fold shown. rewrite filter_filter_and, !map_map.
  apply (sorted_copies_stable (sortCompareFn opts) w
           (fun c => sortThread (mapThread (mapThread c (setVisible opts))
                                           (setCollapsed opts))
                                (replySortCompareFn opts) (replySortCompareFn opts))
           (fun c => countRepliesAndDepth c (-1 + 1))); [done| |].
  - intros c. rewrite sortThread_label, mapThread_label, mapThread_label; [done| |].
    + apply setVisible_label.
    + apply setCollapsed_label.
  - intros c. apply countRepliesAndDepth_label.
Qed.

(** C7: the comparator that [sort] uses puts threads without annotation
    before threads with one, ties two threads without annotation, and
    orders two annotated threads by the less-than predicate [cmp]; for a
    less-than predicate [sort] returns the stable sorted permutation of its
    argument; in the tree that [buildThread] returns the children of the root
    are in the order of the top-level comparison function and the children
    of every other node in the order of the one for replies; threads that
    tie keep the order they have in the tree that [threadAnnotations] built:
    among the children of the root that tie with any thread [w], and among
    those of every other node, the ids and annotations come in the order of
    the children of the original; and annotations tagged [b] and [a] come
    out as [a], [b] under the default options. *)
Theorem sorted_children_contract :
  (∀ cmp a b,
     match t_annotation a, t_annotation b with
     | None, None => compareThreads cmp a b = 0
     | None, Some _ => compareThreads cmp a b = -1
     | Some _, None => compareThreads cmp a b = 1
     | Some x, Some y =>
         (cmp x y = true → compareThreads cmp a b = -1)
         ∧ (cmp x y = false → cmp y x = true → compareThreads cmp a b = 1)
         ∧ (cmp x y = false → cmp y x = false → compareThreads cmp a b = 0)
     end)
  ∧ (∀ cmp threads, LessThan cmp →
       Permutation (sort threads cmp) threads
       ∧ (∀ a b, precedes (sort threads cmp) a b →
            (t_annotation b = None → t_annotation a = None)
            ∧ (∀ x y, t_annotation a = Some x → t_annotation b = Some y →
                 cmp y x = false))
       ∧ (∀ w, List.filter (tie cmp w) (sort threads cmp)
               = List.filter (tie cmp w) threads))
  ∧ (∀ fuel annotations opts root,
       LessThan (sortCompareFn opts) → LessThan (replySortCompareFn opts) →
       buildThread fuel annotations opts = Ret root →
       ordered (sortCompareFn opts) (t_children root)
       ∧ (∀ node, In node (descendants root) →
            ordered (replySortCompareFn opts) (t_children node))
       ∧ (∀ a b, precedes (t_children root) a b →
            (t_annotation b = None → t_annotation a = None)
            ∧ (∀ x y, t_annotation a = Some x → t_annotation b = Some y →
                 sortCompareFn opts y x = false))
       ∧ (∀ node a b, In node (descendants root) →
            precedes (t_children node) a b →
            (t_annotation b = None → t_annotation a = None)
            ∧ (∀ x y, t_annotation a = Some x → t_annotation b = Some y →
                 replySortCompareFn opts y x = false)))
  ∧ (∀ fuel annotations opts thread root,
       LessThan (sortCompareFn opts) → LessThan (replySortCompareFn opts) →
       threadAnnotations fuel annotations = Ret thread →
       buildThread fuel annotations opts = Ret root →
       (∃ keep, ∀ w,
          map labelOf (List.filter (tie (sortCompareFn opts) w) (t_children root))
          = map labelOf (List.filter (tie (sortCompareFn opts) w)
                                     (List.filter keep (t_children thread))))
       ∧ (∀ node, In node (descendants root) →
            ∃ original, In original (descendants thread)
              ∧ labelOf original = labelOf node
              ∧ ∀ w, map labelOf (List.filter (tie (replySortCompareFn opts) w)
                                              (t_children node))
                     = map labelOf (List.filter (tie (replySortCompareFn opts) w)
                                                (t_children original))))
  ∧ (∃ root, buildThread 2 tagsBA defaultOpts = Ret root
             ∧ map t_id (t_children root) = ["a"; "b"]).
Proof.
  split; [exact compareThreads_contract|]. split; [|split; [|split]].
  - intros cmp threads Hcmp. split; [apply array_sort_perm|]. split.
    + intros a b. apply ordered_precedes. by apply sort_ordered.
    + intros w. by apply sort_stable.
  - intros fuel annotations opts root Hcmp Hrcmp H.
    apply buildThread_Ret in H as (thread & _ & ->).
    unfold project.
    match goal with
    | |- context [countRepliesAndDepth (sortThread ?t _ _) _] => set (t0 := t)
    end.
    destruct (sortThread_ordered _ Hrcmp t0 _ (-1) Hcmp) as [Htop Hbelow].
    cbn [t_children with_totalChildren].
    assert (Hdesc : ∀ n x, descendants (with_totalChildren x n) = descendants x) by done.
    split; [exact Htop|]. split.
    { intros node. rewrite Hdesc. apply Hbelow. }
    split.
    { intros a b. by apply ordered_precedes. }
    intros node a b Hnode. apply ordered_precedes. rewrite Hdesc in Hnode.
    by apply Hbelow.
  - intros fuel annotations opts thread root Hcmp Hrcmp Hthread H.
    unfold buildThread in H. rewrite Hthread in H. injection H as <-. split.
    + by apply project_top_level_stable.
    + intros node Hnode. apply project_reply_nodes in Hnode as (x & d & Hx & ->).
      exists x. split; [done|]. split; [by rewrite passOver_label|].
      intros w. by apply passOver_children_stable.
  - eexists. split; [vm_compute; reflexivity|reflexivity].
Qed.

Lemma sorted_children_contract_witness :
  ∃ root top,
    buildThread 4 tiedSample defaultOpts = Ret root
    ∧ map t_id (t_children root) = ["c"; "a"; "b"]
    ∧ In top (t_children root) ∧ map t_id (t_children top) = ["e"; "d"]
    ∧ ordered (sortCompareFn defaultOpts) (t_children root)
    ∧ ordered (replySortCompareFn defaultOpts) (t_children top).
Proof.
  assert (Hroot : ∃ root top,
            buildThread 4 tiedSample defaultOpts = Ret root
            ∧ map t_id (t_children root) = ["c"; "a"; "b"]
            ∧ In top (t_children root) ∧ map t_id (t_children top) = ["e"; "d"]
            ∧ In top (descendants root)).
  { do 2 eexists. split; [vm_compute; reflexivity|]. split; [reflexivity|].
    split; [left; reflexivity|]. split; [reflexivity|left; reflexivity]. }
  destruct Hroot as (root & top & Hroot & Hids & Htop & Hreplies & Hin).
  exists root, top. do 4 (split; [done|]).
  destruct sorted_children_contract as (_ & _ & Htree & _).
  destruct defaultOpts_LessThan as [Hcmp Hrcmp].
  destruct (Htree 4%nat tiedSample defaultOpts root Hcmp Hrcmp Hroot)
    as (Hordered & Hbelow & _).
  split; [exact Hordered|by apply Hbelow].
Defined.

(** * A reply to a missing annotation (claim C6) *)

(** The last reference of an annotation is the last id that
    [threadAnnotations] passes to [setParent], unless it is the id of the
    annotation. *)
Lemma parentsOf_last R init x :
  ann_references R = Some (init ++ [x]) → annotationId R ≠ x → x ≠ "" →
  ∃ prefix, parentsOf R = prefix ++ [x].
Proof.
  intros Href Hid Hx. unfold parentsOf. rewrite Href. cbn [default id].
  unfold annotationId in Hid.
  destruct (ann_id R) as [i|]; [|by exists init].
  exists (List.filter (fun id => negb (String.eqb id i)) init).
  rewrite List.filter_app. f_equal. cbn [List.filter].
  destruct (String.eqb_spec x i) as [->|Hne]; [|done].
  exfalso. destruct (truthy i) eqn:Hi; [done|]. by apply truthy_false in Hi.
Qed.

(** The second loop leaves the parent of a thread alone until it comes to
    an annotation with the id of the thread. *)
Lemma linkThreads_keeps_parent fuel annotations k :
  (∀ a, In a annotations → annotationId a ≠ k) →
  ∀ threads threads' o,
    linkThreads fuel annotations threads = Ret threads' →
    objs threads !! k = Some o →
    ∃ o', objs threads' !! k = Some o' ∧ o_parent o' = o_parent o.
Proof.
  unfold linkThreads.
  induction annotations as [|a l IH]; intros Hk threads threads' o H Ho.
  - injection H as <-. by exists o.
  - cbn [foldM] in H. apply bind_Ret in H as (threads1 & H1 & H).
    destruct (setParent_grows _ _ _ _ _ H1 k o Ho) as (o1 & Ho1 & _ & [Hp|(Heq & _)]).
    + destruct (IH (fun a' Ha' => Hk a' (or_intror Ha')) _ _ _ H Ho1) as (o' & Ho' & Hp').
      exists o'. split; [done|congruence].
    + exfalso. by apply (Hk a (or_introl eq_refl)).
Qed.

(** A parent, once assigned, is never changed. *)
Lemma linkThreads_keeps_assigned fuel annotations k :
  ∀ threads threads' o,
    linkThreads fuel annotations threads = Ret threads' →
    objs threads !! k = Some o → truthy_opt (o_parent o) = true →
    ∃ o', objs threads' !! k = Some o' ∧ o_parent o' = o_parent o.
Proof.
  unfold linkThreads.
  induction annotations as [|a l IH]; intros threads threads' o H Ho Hp.
  - injection H as <-. by exists o.
  - cbn [foldM] in H. apply bind_Ret in H as (threads1 & H1 & H).
    destruct (setParent_grows _ _ _ _ _ H1 k o Ho)
      as (o1 & Ho1 & _ & [Hp1|(_ & Hfalse & _)]); [|congruence].
    destruct (IH _ _ _ H Ho1) as (o' & Ho' & Hp'); [congruence|].
    exists o'. split; [done|congruence].
Qed.

Lemma parent_lists_child_placeholder (threads : gmap string ThreadObj) x :
  parent_lists_child threads → threads !! x = None →
  parent_lists_child (<[x := placeholder x]> threads).
Proof.
  intros HP Hx k o p Hk Hp.
  apply lookup_insert_Some in Hk as [[<- <-]|[Hne Hk]]; [done|].
  destruct (HP k o p Hk Hp) as (po & Hpo & Hin).
  exists po. split; [|done]. rewrite lookup_insert_ne; [done|]. intros <-. congruence.
Qed.

Lemma parent_lists_child_attach (threads : gmap string ThreadObj) id parentId :
  parent_lists_child threads → is_Some (threads !! id) → is_Some (threads !! parentId) →
  parent_lists_child
    (alter (push_child id) parentId (alter (set_parent parentId) id threads)).
Proof.
  intros HP _ [parent Hparent] k o' p Hk Hp.
  apply attach_lookup_inv in Hk as (o & Hk & Hpar & _). rewrite Hpar in Hp.
  destruct (decide (k = id)) as [->|Hne].
  - injection Hp as <-. rewrite (attach_lookup _ _ _ _ _ Hparent).
    eexists. split; [done|]. rewrite decide_True by done.
    destruct (decide (parentId = id)); cbn; apply in_or_app; right; by left.
  - destruct (HP k o p Hk Hp) as (po & Hpo & Hin).
    rewrite (attach_lookup _ _ _ _ _ Hpo). eexists. split; [done|].
    destruct (decide (p = parentId)), (decide (p = id)); cbn;
      try apply in_or_app; auto.
Qed.

(** An ancestor is a thread of the table when every parent is. *)
Lemma ancestor_is_thread (threads : gmap string ThreadObj) x k :
  parent_lists_child threads → ancestor threads x k → is_Some (threads !! x).
Proof.
  intros HP. induction 1 as [k (o & Ho & Hp & _)|p k _ IH _]; [|exact IH].
  destruct (HP k o x Ho Hp) as (po & Hpo & _). by exists po.
Qed.

(** When every parent of the table is named by a reference, an ancestor is
    reached by a chain of references. *)
Lemma ancestor_refersTo annotations (threads : gmap string ThreadObj) x k :
  map_Forall (fun k o => ∀ p, o_parent o = Some p → refersTo annotations p k) threads →
  ancestor threads x k → tc (refersTo annotations) x k.
Proof.
  intros HR. induction 1 as [k (o & Ho & Hp & _)|p k _ IH (o & Ho & Hp & _)].
  - apply tc_once. by apply (HR k o Ho).
  - eapply tc_r; [exact IH|]. by apply (HR k o Ho).
Qed.

(** The call of [setParent] for a thread without parent whose last
    reference is [x] makes [x] its parent, unless the references lead from
    the thread to [x]. *)
Lemma setParent_attaches fuel threads id prefix x threads' annotations thread :
  objs threads !! id = Some thread → o_parent thread = None →
  parent_lists_child (objs threads) →
  map_Forall (fun k o => ∀ p, o_parent o = Some p → refersTo annotations p k)
             (objs threads) →
  (∀ p k, adjacent (prefix ++ [x; id]) p k → refersTo annotations p k) →
  ¬ tc (refersTo annotations) id x →
  setParent fuel threads id (prefix ++ [x]) = Ret threads' →
  ∃ o', objs threads' !! id = Some o' ∧ o_parent o' = Some x.
Proof.
  intros Hid Hpar HP HR Hchain Hcycle H.
  destruct fuel as [|fuel]; [done|]. rewrite setParent_unfold, Hid, Hpar in H.
  cbn [truthy_opt orb] in H.
  assert ((length (prefix ++ [x]) =? 0)%nat = false) as Hlen.
  { apply Nat.eqb_neq. rewrite length_app. cbn. lia. }
  rewrite Hlen in H. cbv zeta in H.
  rewrite last_last, removelast_last in H.
  apply bind_Ret in H as (threads1 & H1 & H).
  apply bind_Ret in H as (ok & Hok & H).
  assert (H1' : parent_lists_child (objs threads1)
                ∧ map_Forall (fun k o => ∀ p, o_parent o = Some p →
                                refersTo annotations p k) (objs threads1)
                ∧ is_Some (objs threads1 !! x)).
  { destruct (objs threads !! x) as [parent|] eqn:Hx.
    - injection H1 as <-. rewrite Hx. eauto.
    - split; [|split].
      + eapply (setParent_table parent_lists_child); [..|exact H1].
        * apply parent_lists_child_placeholder.
        * apply parent_lists_child_attach.
        * cbn [objs assign]. by apply parent_lists_child_placeholder.
      + eapply (setParent_adjacent (refersTo annotations) _ _ x prefix [id]);
          [exact Hchain| |exact H1].
        cbn [objs assign]. intros k o Hk p Hp.
        apply lookup_insert_Some in Hk as [[<- <-]|[_ Hk]]; [done|].
        by apply (HR k o Hk).
      + destruct (setParent_grows _ _ _ _ _ H1 x (placeholder x)) as (o' & -> & _).
        * cbn [objs assign]. apply lookup_insert_eq.
        * eauto. }
  destruct H1' as (HP1 & HR1 & Hx1).
  destruct ok.
  - apply attach_Ret in H as [[o1 Ho1] ->]. cbn [objs update].
    rewrite (attach_lookup _ _ _ _ _ Ho1). eexists. split; [done|].
    by destruct (decide (id = x)), (decide (id = id)).
  - exfalso. apply hasPathToRoot_false_chain in Hok as (k & Hk & Hfail).
    destruct Hfail as [Hnone|(o & Ho & Hp)].
    + destruct Hk as [<-|Hk].
      * rewrite Hnone in Hx1. by destruct Hx1.
      * apply (ancestor_is_thread _ _ _ HP1) in Hk. rewrite Hnone in Hk. by destruct Hk.
    + pose proof (HR1 k o Ho id Hp) as Hedge. apply Hcycle.
      destruct Hk as [<-|Hk]; [by apply tc_once|].
      eapply tc_l; [exact Hedge|]. by eapply ancestor_refersTo.
Qed.

Lemma createThreads_no_parent annotations k o :
  objs (createThreads annotations) !! k = Some o → o_parent o = None.
Proof. intros H. by apply createThreads_objects in H as (a & _ & _ & ->). Qed.

(** The table after the second loop, for an input with a reply [R] whose
    last reference [x] is the id of no annotation: the thread of [R] has the
    parent [x], which is a placeholder that lists it as a child. *)
Lemma linkThreads_reply_attached fuel before R after prefix x threads :
  parentsOf R = prefix ++ [x] → x ≠ "" →
  (∀ a, In a (before ++ R :: after) → annotationId a ≠ x) →
  (∀ a, In a before → annotationId a ≠ annotationId R) →
  ¬ tc (refersTo (before ++ [R])) (annotationId R) x →
  linkThreads fuel (before ++ R :: after) (createThreads (before ++ R :: after))
  = Ret threads →
  ∃ reply parent a,
    objs threads !! annotationId R = Some reply ∧ o_parent reply = Some x
    ∧ o_annotation reply = Some a ∧ In a (R :: after)
    ∧ annotationId a = annotationId R
    ∧ objs threads !! x = Some parent ∧ o_annotation parent = None
    ∧ In (annotationId R) (o_children parent).
Proof.
  intros Hparents Hx Habsent Huniq Hcycle Hlink.
  set (input := before ++ R :: after) in *.
  pose proof Hlink as Hlink0. unfold linkThreads in Hlink. subst input.
  rewrite foldM_app in Hlink. apply bind_Ret in Hlink as (T1 & H1 & Hlink).
  cbn [foldM] in Hlink. apply bind_Ret in Hlink as (T2 & H2 & H3).
  set (input := before ++ R :: after) in *.
  change (linkThreads fuel before (createThreads input) = Ret T1) in H1.
  change (linkThreads fuel after T2 = Ret threads) in H3.
  assert (HR : In R input) by (apply in_or_app; right; by left).
  destruct (create_In input no_threads R HR) as [o0 Ho0].
  fold (createThreads input) in Ho0.
  pose proof (createThreads_objects input _ _ Ho0) as (a & Ha & Hida & Heq).
  assert (Ha' : In a (R :: after)).
  { apply in_app_or in Ha as [Ha|Ha]; [|done]. by destruct (Huniq a Ha). }
  destruct (linkThreads_keeps_parent _ _ _ Huniq _ _ _ H1 Ho0) as (o1 & Ho1 & Hp1).
  rewrite (createThreads_no_parent _ _ _ Ho0) in Hp1.
  assert (HP1 : parent_lists_child (objs T1)).
  { eapply (linkThreads_table parent_lists_child); [..|exact H1].
    - apply parent_lists_child_placeholder.
    - apply parent_lists_child_attach.
    - intros k o p Hk Hp. apply createThreads_no_parent in Hk. congruence. }
  assert (HR1 : map_Forall (fun k o => ∀ p, o_parent o = Some p →
                              refersTo (before ++ [R]) p k) (objs T1)).
  { eapply (linkThreads_adjacent fuel (before ++ [R]) before); [| |exact H1].
    - intros b Hb. apply in_or_app. by left.
    - intros k o Hk p Hp. apply createThreads_no_parent in Hk. congruence. }
  assert (Hchain : ∀ p k, adjacent (prefix ++ [x; annotationId R]) p k →
                           refersTo (before ++ [R]) p k).
  { intros p k Hadj. exists R. split; [apply in_or_app; right; by left|].
    unfold referenceChain. by rewrite Hparents, <- app_assoc. }
  rewrite Hparents in H2.
  destruct (setParent_attaches _ _ _ _ _ _ _ _ Ho1 Hp1 HP1 HR1 Hchain Hcycle H2)
    as (o2 & Ho2 & Hp2).
  destruct (linkThreads_keeps_assigned _ _ _ _ _ _ H3 Ho2) as (reply & Hreply & Hp).
  { rewrite Hp2. cbn. by apply truthy_true. }
  rewrite Hp2 in Hp.
  destruct (linkThreads_grows _ _ _ _ Hlink0 _ _ Ho0) as (o' & Ho' & _ & Hann & _).
  rewrite Hreply in Ho'. injection Ho' as <-.
  destruct (linked_parent_lists_child _ _ _ Hlink0 _ _ _ Hreply Hp) as (po & Hpo & Hin).
  exists reply, po, a. split; [done|]. split; [done|].
  split; [by rewrite Hann, Heq|]. split; [done|]. split; [done|].
  split; [done|]. split; [|done].
  destruct (linked_fromInput _ _ _ Hlink0 _ _ Hpo) as [_ Hfrom].
  destruct (o_annotation po) as [b|]; [|done].
  destruct (Hfrom b eq_refl) as [Hb Hidb]. by destruct (Habsent b Hb).
Qed.

(** Every thread of the table is a node of the tree of
    [threadAnnotations], with its children. *)
Lemma threadAnnotations_every_key fuel annotations thread :
  references_not_empty annotations → references_distinct annotations →
  threadAnnotations fuel annotations = Ret thread →
  ∃ threads,
    linkThreads fuel annotations (createThreads annotations) = Ret threads
    ∧ ∀ k o, objs threads !! k = Some o →
        ∃ node, In node (descendants thread)
          ∧ t_id node = o_id o ∧ t_annotation node = o_annotation o
          ∧ t_parent node = o_parent o
          ∧ ∀ c, In c (o_children o) →
              ∃ co cnode, objs threads !! c = Some co ∧ In cnode (t_children node)
                ∧ t_id cnode = o_id co ∧ t_annotation cnode = o_annotation co
                ∧ t_parent cnode = o_parent co.
Proof.
  intros Hrefs Hdist H. unfold threadAnnotations in H.
  apply bind_Ret in H as (threads & Hlink & H).
  exists threads. split; [done|].
  pose proof (linked_parent_lists_child _ _ _ Hlink) as HP.
  pose proof (linkThreads_keys_ok _ _ _ _ (create_keys_ok _ _ keys_ok_empty) Hlink) as Hok.
  destruct (linkThreads_well_founded _ _ _ Hrefs Hdist Hlink) as [Hwl Hwf].
  pose proof (collectRoots_well_founded threads Hwf) as [Hup' _].
  unfold collectRoots in *.
  destruct (collectRoots_spec (ownKeys threads) threads []) as (Hroots & _ & Hobjs).
  destruct (foldl collectStep (threads, []) (ownKeys threads)) as [threads' rootThreads].
  cbn [fst snd app] in *. subst rootThreads.
  apply bind_Ret in H as (children & Hch & H). injection H as <-.
  apply mapM_Ret in Hch. unfold descendants at 1. cbn [t_children].
  assert (Hobj : ∀ k o, objs threads !! k = Some o →
            objs threads' !! k = Some (collapseRoot true o)).
  { intros k o Ho. rewrite Hobjs, Ho. cbn. rewrite includes_ownKeys; [done|].
    apply Hok. by rewrite Ho. }
  intros k o Ho.
  destruct (every_key_read (objs threads')
              (List.filter (isRoot (objs threads)) (ownKeys threads)) children)
    with (k := k) as (n & fuel' & Hn & Hreadn).
  - intros k1 o1' p Hk Hp. rewrite Hobjs in Hk.
    destruct (objs threads !! k1) as [o1|] eqn:Ho1; [|done]. injection Hk as <-.
    destruct (collapseRoot_fields (includes (ownKeys threads) k1) o1) as (_ & _ & Hpar & _).
    rewrite Hpar in Hp. destruct (HP k1 o1 p Ho1 Hp) as (po & Hpo & Hin).
    exists (collapseRoot true po). split; [by apply Hobj|].
    by destruct (collapseRoot_fields true po) as (_ & _ & _ & ->).
  - intros k1 o1' Hk Hfalsy. rewrite Hobjs in Hk.
    destruct (objs threads !! k1) as [o1|] eqn:Ho1; [|done]. injection Hk as <-.
    destruct (collapseRoot_fields (includes (ownKeys threads) k1) o1) as (_ & _ & Hpar & _).
    rewrite Hpar in Hfalsy. apply filter_In. split.
    + apply (Permutation_in _ (Permutation_sym (ownKeys_perm threads))).
      apply Hok. by rewrite Ho1.
    + unfold isRoot. by rewrite Ho1, Hfalsy.
  - eapply Forall2_impl; [exact Hch|]. intros k1 t Hread. by exists fuel.
  - apply Hup'.
  - rewrite (Hobj _ _ Ho). done.
  - exists n. split; [done|].
    pose proof Hreadn as Htop.
    apply readThread_top in Htop as (o' & Ho' & Hreads).
    rewrite (Hobj _ _ Ho) in Ho'. injection Ho' as <-.
    destruct Hreads as (Hi & Han & Hpa & _).
    destruct (collapseRoot_fields true o) as (Hi' & Han' & Hpa' & Hch').
    split; [congruence|]. split; [congruence|]. split; [congruence|].
    intros c Hc. rewrite <- Hch' in Hc.
    destruct (readThread_child _ _ _ _ _ _ Hreadn (Hobj _ _ Ho) Hc)
      as (ct & fuel'' & Hct & Hreadc).
    apply readThread_top in Hreadc as (co' & Hco' & Hreadsc).
    rewrite Hobjs in Hco'.
    destruct (objs threads !! c) as [co|] eqn:Hco; [|done]. injection Hco' as <-.
    exists co, ct. split; [done|]. split; [done|].
    destruct Hreadsc as (Hci & Hcan & Hcpa & _).
    destruct (collapseRoot_fields (includes (ownKeys threads) c) co)
      as (Hci' & Hcan' & Hcpa' & _).
    split; [congruence|]. split; congruence.
Qed.

(** ** The copying passes keep every node and its children *)

Lemma passOver_child_in opts cmp d n c :
  In c (t_children n) →
  In (passOver opts (replySortCompareFn opts) (d + 1) c)
     (t_children (passOver opts cmp d n)).
Proof.
  intros Hc. rewrite passOver_children. unfold passOver.
  apply (in_map (fun c => countRepliesAndDepth c (d + 1))).
  apply sort_In.
  apply (in_map (fun c => sortThread c (replySortCompareFn opts) (replySortCompareFn opts))).
  apply (in_map (fun c => mapThread c (setCollapsed opts))).
  by apply (in_map (fun c => mapThread c (setVisible opts))).
Qed.

Lemma passOver_subthread_in opts top :
  ∀ cmp d n, In n (subthreads top) →
    ∃ cmp' d', In (passOver opts cmp' d' n) (subthreads (passOver opts cmp d top)).
Proof.
  induction top as [i a p v c children tc rc d0 IH] using Thread_ind.
  intros cmp d n Hn. rewrite subthreads_unfold in Hn. destruct Hn as [<-|Hn].
  - exists cmp, d. apply subthreads_self.
  - apply in_descendants in Hn as (child & Hchild & Hn).
    cbn [t_children] in Hchild. rewrite List.Forall_forall in IH.
    destruct (IH child Hchild (replySortCompareFn opts) (d + 1)%Z n Hn)
      as (cmp' & d' & Hin).
    exists cmp', d'. eapply subthreads_child; [|exact Hin].
    by apply passOver_child_in.
Qed.

Lemma child_in_descendants t n c :
  In n (subthreads t) → In c (t_children n) → In c (descendants t).
Proof.
  intros Hn Hc. rewrite subthreads_unfold in Hn. destruct Hn as [<-|Hn].
  - apply in_descendants. exists c. split; [done|apply subthreads_self].
  - apply in_descendants in Hn as (child & Hchild & Hn). apply in_descendants.
    exists child. split; [done|]. eapply subthreads_trans; [exact Hn|].
    eapply subthreads_child; [exact Hc|apply subthreads_self].
Qed.

(** A reference that leads from an id is one of the references of an
    annotation. *)
Lemma refersTo_parents annotations p k :
  refersTo annotations p k → ∃ a, In a annotations ∧ In p (parentsOf a).
Proof.
  intros (a & Ha & l1 & l2 & Heq). exists a. split; [done|].
  assert (Hin : In p (removelast (referenceChain a))).
  { rewrite Heq, removelast_app by done. apply in_or_app. right. by left. }
  unfold referenceChain in Hin. by rewrite removelast_last in Hin.
Qed.

(** No references lead from an id that no annotation names in its
    references. *)
Lemma not_referred_no_chain annotations id x :
  (∀ a, In a annotations → ¬ In id (parentsOf a)) →
  ¬ tc (refersTo annotations) id x.
Proof.
  intros Hnot Htc.
  assert (Hstep : ∃ z, refersTo annotations id z) by (destruct Htc; eauto).
  destruct Hstep as (z & (a & Ha & Hin)%refersTo_parents). by apply (Hnot a).
Qed.

(** C6, as the code has it: take an input with a reply [R] whose last
    reference [x] is the identity of no annotation of the input, where no
    annotation before [R] has the identity of [R], and where the references
    of the annotations up to [R] do not lead from the identity of [R] to [x]
    (no reference chain of theirs names an id immediately before another so
    that, step by step, [x] is reached from [R]); no reference is the empty
    string, no annotation names an id twice in its references or names
    itself, and no identity or reference is a name that the table inherits.
    Then [buildThread] with the default options returns, for every large
    enough bound on the stack, a tree in which exactly one thread below the
    root has the id [x]; it has no annotation, and one of its children is the
    thread with the identity of [R], whose parent is [x] and whose annotation
    has the identity of [R]: it is [R] itself when no later annotation has
    its identity. *)
Theorem reply_to_missing_parent before after R init x :
  ann_references R = Some (init ++ [x]) →
  (∀ a, In a (before ++ R :: after) → annotationId a ≠ x) →
  (∀ a, In a before → annotationId a ≠ annotationId R) →
  ¬ tc (refersTo (before ++ [R])) (annotationId R) x →
  references_not_empty (before ++ R :: after) →
  references_distinct (before ++ R :: after) →
  ordinaryInput (before ++ R :: after) = true →
  ∃ fuel root,
    (∀ fuel', (fuel ≤ fuel')%nat →
       buildThread fuel' (before ++ R :: after) defaultOpts = Ret root)
    ∧ ∃ parent reply a,
        In parent (descendants root) ∧ t_id parent = x ∧ t_annotation parent = None
        ∧ (∀ node, In node (descendants root) → t_id node = x → node = parent)
        ∧ In reply (t_children parent) ∧ t_id reply = annotationId R
        ∧ t_parent reply = Some x
        ∧ t_annotation reply = Some a ∧ annotationId a = annotationId R
        ∧ ((∀ b, In b after → annotationId b ≠ annotationId R) → a = R).
Proof.
  intros Href Habsent Huniq Hcycle Hrefs Hdist _.
  set (input := before ++ R :: after) in *.
  assert (HR : In R input) by (apply in_or_app; right; by left).
  assert (Hx : x ≠ "").
  { apply (Hrefs R x HR). rewrite Href. apply in_or_app. right. by left. }
  destruct (parentsOf_last R init x Href (Habsent R HR) Hx) as [prefix Hparents].
  destruct (threadAnnotations_returns input Hrefs Hdist) as (fuel & thread & Hthread).
  assert (Hbuild : buildThread fuel input defaultOpts = Ret (project defaultOpts thread)).
  { unfold buildThread. by rewrite Hthread. }
  exists fuel, (project defaultOpts thread).
  split. { intros fuel' Hle. by apply (buildThread_more fuel). }
  destruct (threadAnnotations_every_key _ _ _ Hrefs Hdist Hthread)
    as (threads & Hlink & Hread).
  destruct (linkThreads_reply_attached _ _ _ _ _ _ _ Hparents Hx Habsent Huniq Hcycle Hlink)
    as (oreply & oparent & a & Hreply & Hrpar & Hrann & Ha & Hida & Hparent & Hpann & Hin).
  pose proof (linked_fromInput _ _ _ Hlink) as Hfrom.
  destruct (Hfrom _ _ Hparent) as [Hpid _]. destruct (Hfrom _ _ Hreply) as [Hrid _].
  destruct (Hread _ _ Hparent) as (pnode & Hpnode & Hpi & Hpa & _ & Hchildren).
  destruct (Hchildren _ Hin) as (co & cnode & Hco & Hcnode & Hci & Hca & Hcp).
  rewrite Hreply in Hco. injection Hco as <-.
  apply in_descendants in Hpnode as (top & Htop & Hpn).
  pose proof (child_in_descendants _ _ _ Hpn Hcnode) as Hbelow.
  assert (Hcdesc : In cnode (descendants thread)).
  { apply in_descendants. exists top. split; [done|].
    rewrite subthreads_unfold. by right. }
  pose proof (threadAnnotations_nodes _ _ _ Hthread cnode Hcdesc) as (_ & Hvis & _).
  set (rcmp := replySortCompareFn defaultOpts).
  assert (Hkept : In (passOver defaultOpts rcmp (-1 + 1) top)
                     (t_children (project defaultOpts thread))).
  { apply project_children_in; [exact Htop|].
    cbv zeta. apply orb_true_iff. right.
    apply hasVisibleChildren_iff. exists (mapThread cnode (setVisible defaultOpts)).
    split.
    - rewrite mapThread_descendants.
      by apply (in_map (fun t => mapThread t (setVisible defaultOpts))).
    - rewrite mapThread_visible. unfold setVisible. cbn [t_visible with_visible].
      rewrite Hca, Hrann. exact Hvis. }
  destruct (passOver_subthread_in defaultOpts top rcmp (-1 + 1)%Z pnode Hpn)
    as (cmp' & d' & Hp').
  set (parent := passOver defaultOpts cmp' d' pnode) in *.
  set (reply := passOver defaultOpts rcmp (d' + 1) cnode).
  assert (Hparent' : In parent (descendants (project defaultOpts thread))).
  { apply in_descendants. eauto. }
  destruct (passOver_fields defaultOpts cmp' d' pnode) as (Hpi' & Hpa' & _).
  destruct (passOver_fields defaultOpts rcmp (d' + 1) cnode) as (Hci' & Hca' & Hcp' & _).
  exists parent, reply, a.
  split; [done|]. split; [subst parent; congruence|].
  split; [subst parent; congruence|]. split.
  { intros node Hnode Hid.
    apply (NoDup_map_eq t_id (descendants (project defaultOpts thread))); [|done..|].
    - by apply (project_ids_distinct fuel input defaultOpts).
    - subst parent. congruence. }
  split; [by apply passOver_child_in|]. split; [subst reply; congruence|].
  split; [subst reply; congruence|]. split; [subst reply; congruence|].
  split; [done|]. intros Hafter.
  destruct Ha as [<-|Ha]; [done|]. by destruct (Hafter a Ha).
Qed.

Lemma reply_to_missing_parent_witness :
  ∃ fuel root parent reply,
    buildThread fuel missingAncestors defaultOpts = Ret root
    ∧ In parent (descendants root) ∧ t_id parent = "x" ∧ t_annotation parent = None
    ∧ In reply (t_children parent) ∧ t_annotation reply = Some replyBelowMissing.
Proof.
  destruct (reply_to_missing_parent [saved "q" ["p"]] [saved "s" ["p"; "x"; "r"]]
              replyBelowMissing ["p"] "x")
    as (fuel & root & Hroot & parent & reply & a & Hparent & Hid & Hann & _
        & Hreply & _ & _ & Hrann & _ & Ha).
  - reflexivity.
  - intros a [<-|[<-|[<-|[]]]]; discriminate.
  - intros a [<-|[]]. discriminate.
  - apply not_referred_no_chain.
    intros a [<-|[<-|[]]]; cbn; intuition discriminate.
  - by apply referencesNotEmpty_true.
  - intros b [<-|[<-|[<-|[]]]]; repeat constructor; cbn; intuition discriminate.
  - reflexivity.
  - exists fuel, root, parent, reply. split; [by apply Hroot|].
    do 4 (split; [done|]). rewrite Hrann. f_equal. apply Ha.
    intros b [<-|[]]. discriminate.
Defined.

(** The claim as stated fails when the references are circular: the
    placeholder is made, but the reply is not its child. *)
Lemma reply_to_missing_parent_counterexample :
  ∃ root parent,
    buildThread 4 circularMissing defaultOpts = Ret root
    ∧ List.filter (fun t => String.eqb (t_id t) "x") (descendants root) = [parent]
    ∧ t_annotation parent = None ∧ t_children parent = [].
Proof.
  do 2 eexists. split; [vm_compute; reflexivity|].
  split; [reflexivity|]. split; reflexivity.
Qed.
